(** * A two-player WebSocket room relay: model and properties

    The repository holds two variants of the same relay server:
    - [src/server.js]          (module [ServerJs] below),
    - [src/unnamed/part_000]   (module [Part000] below).

    Both keep a process-wide [rooms] map from a room code to a room object
    [{ clients : Set<WS>, sides : Map<WS,'X'|'O'> }], answer [join], relay
    [move] and [reset], clean up on [close], and run a ping/pong heartbeat.

    The embedding follows the JavaScript closely:
    - a connection ([ws]) is an object identity, here a [nat];
    - JavaScript strings are sequences of UTF-16 code units;
    - a [Set] is a list without repetition in insertion order, a [Map] an
      association list in insertion order (both iterate in that order);
    - room objects live in a heap and the [rooms] map holds references to
      them, because [part_000] keeps a reference to a room across a call that
      may remove the room from the map;
    - a handler returns the new state and the list of [send] calls it made,
      or [None] when it is left by an uncaught [TypeError]; in both files
      such an exception can only be raised before the handler has changed
      the registry or sent anything;
    - a message sent is recorded as its text carries it: the payload of a
      [move] is the request's [data] as [JSON.stringify] writes it. *)

From Stdlib Require Import String Ascii Bool Arith NArith ZArith Lia List.
Import ListNotations.
Open Scope nat_scope.

(** ** JavaScript values *)

(** A JavaScript string: its UTF-16 code units. *)
Definition jsstring := list N.

Definition jsstring_eq_dec : forall a b : jsstring, {a = b} + {a <> b} :=
  list_eq_dec N.eq_dec.

(** An ASCII literal as a JavaScript string. *)
Definition lit (s : string) : jsstring :=
  map N_of_ascii (list_ascii_of_string s).

(** A JSON number, carried as the two observations the servers make of a
    number: its truthiness (it is neither 0 nor NaN) and the text [String(n)]
    yields. *)
Record number := { num_truthy : bool; num_text : jsstring }.

(** What [JSON.parse] returns. *)
#[local] Set Warnings "-register-all".
Inductive json :=
| JNull
| JBool (b : bool)
| JNum (n : number)
| JStr (s : jsstring)
| JArr (items : list json)
| JObj (fields : list (jsstring * json)).
#[local] Set Warnings "register-all".

(** A value read from a property: [None] is [undefined]. *)
Definition jsval := option json.

(** ** [Set] and [Map], in insertion order *)

Section Collections.
Context {K V : Type} (eq_dec : forall x y : K, {x = y} + {x <> y}).

(** [s.has(x)] *)
Fixpoint Set_has (x : K) (s : list K) : bool :=
  match s with
  | [] => false
  | y :: s' => if eq_dec x y then true else Set_has x s'
  end.

(** [s.add(x)]: a new element goes last, a present one stays where it is. *)
Definition Set_add (x : K) (s : list K) : list K :=
  if Set_has x s then s else s ++ [x].

(** [s.delete(x)]: the set without [x] (the call's result is [s.has(x)]). *)
Fixpoint Set_delete (x : K) (s : list K) : list K :=
  match s with
  | [] => []
  | y :: s' => if eq_dec x y then Set_delete x s' else y :: Set_delete x s'
  end.

(** [m.get(k)]: [None] is [undefined]. *)
Fixpoint Map_get (k : K) (m : list (K * V)) : option V :=
  match m with
  | [] => None
  | (k', v) :: m' => if eq_dec k k' then Some v else Map_get k m'
  end.

(** [m.has(k)] *)
Definition Map_has (k : K) (m : list (K * V)) : bool :=
  match Map_get k m with Some _ => true | None => false end.

(** [m.set(k, v)] on a present key: the entry keeps its place. *)
Fixpoint Map_replace (k : K) (v : V) (m : list (K * V)) : list (K * V) :=
  match m with
  | [] => []
  | (k', v') :: m' =>
      if eq_dec k k' then (k', v) :: m' else (k', v') :: Map_replace k v m'
  end.

(** [m.set(k, v)]: a new key goes last. *)
Definition Map_set (k : K) (v : V) (m : list (K * V)) : list (K * V) :=
  if Map_has k m then Map_replace k v m else m ++ [(k, v)].

(** [m.delete(k)] *)
Fixpoint Map_delete (k : K) (m : list (K * V)) : list (K * V) :=
  match m with
  | [] => []
  | (k', v) :: m' =>
      if eq_dec k k' then Map_delete k m' else (k', v) :: Map_delete k m'
  end.

(** [m.values()] *)
Definition Map_values (m : list (K * V)) : list V := map snd m.

End Collections.

(** ** Coercions the servers apply to message fields *)

(** Own property [k] of a parsed object. *)
Definition field (k : string) (fields : list (jsstring * json)) : jsval :=
  Map_get jsstring_eq_dec (lit k) fields.

(** [!!v] *)
Definition truthy (v : jsval) : bool :=
  match v with
  | None => false
  | Some JNull => false
  | Some (JBool b) => b
  | Some (JNum n) => num_truthy n
  | Some (JStr s) => match s with [] => false | _ => true end
  | Some (JArr _) => true
  | Some (JObj _) => true
  end.

(** [v || ''] *)
Definition or_empty (v : jsval) : json :=
  match v with
  | Some j => if truthy v then j else JStr []
  | None => JStr []
  end.

(** [a.join(',')] over already converted elements; [None] when converting an
    element threw. *)
Fixpoint join_comma (parts : list (option jsstring)) : option jsstring :=
  match parts with
  | [] => Some []
  | [p] => p
  | p :: rest =>
      match p, join_comma rest with
      | Some s, Some t => Some (s ++ lit "," ++ t)
      | _, _ => None
      end
  end.

(** [String(v)] for a parsed value. An array is joined with commas, [null]
    elements giving the empty string. A plain object gives
    ["[object Object]"], unless it has an own property [toString]: a parsed
    value is never callable, so the conversion throws a [TypeError], here
    [None]. *)
Fixpoint js_String (v : json) : option jsstring :=
  match v with
  | JNull => Some (lit "null")
  | JBool true => Some (lit "true")
  | JBool false => Some (lit "false")
  | JNum n => Some (num_text n)
  | JStr s => Some s
  | JArr items =>
      join_comma
        ((fix elements (l : list json) : list (option jsstring) :=
            match l with
            | [] => []
            | JNull :: l' => Some [] :: elements l'
            | x :: l' => js_String x :: elements l'
            end) items)
  | JObj fields =>
      match field "toString" fields with
      | Some _ => None
      | None => Some (lit "[object Object]")
      end
  end.

(** White space and line terminators, as [String.prototype.trim] strips
    them: TAB, LF, VT, FF, CR, SP, NBSP, U+1680, U+2000..U+200A, U+2028,
    U+2029, U+202F, U+205F, U+3000, U+FEFF. *)
Definition is_space (c : N) : bool :=
  (existsb (N.eqb c)
     [9; 10; 11; 12; 13; 32; 160; 5760; 8232; 8233; 8239; 8287; 12288; 65279]
   || ((8192 <=? c) && (c <=? 8202)))%N.

Fixpoint trim_start (s : jsstring) : jsstring :=
  match s with
  | [] => []
  | c :: s' => if is_space c then trim_start s' else s
  end.

(** [s.trim()] *)
Definition trim (s : jsstring) : jsstring :=
  rev (trim_start (rev (trim_start s))).

(** ** What [JSON.stringify] writes *)

(** [Number.isFinite(n)], read off [String(n)]. JSON text has no number
    that is not finite, but [JSON.parse] yields [Infinity] for a literal out
    of range, such as [1e999]. *)
Definition is_finite (n : number) : bool :=
  negb (existsb
          (fun t => if jsstring_eq_dec (num_text n) t then true else false)
          [lit "Infinity"; lit "-Infinity"; lit "NaN"]).

(** [JSON.stringify(v)] for a parsed value [v], as the value the text
    written stands for. A number that is not finite is written [null], at
    any depth; everything else is written as it is: a parsed value holds no
    [undefined], no function and no [toJSON] method, and an object is
    written with its own properties in their order. A finite number is
    written as [String] gives it, so a negative zero is written [0]:
    [number] does not tell the two zeros apart. *)
Fixpoint stringified (v : json) : json :=
  match v with
  | JNum n => if is_finite n then JNum n else JNull
  | JArr items => JArr (map stringified items)
  | JObj fields => JObj (map (fun kv => (fst kv, stringified (snd kv))) fields)
  | _ => v
  end.

(** A property of the object passed to [JSON.stringify]: one whose value is
    [undefined] is left out of the text. *)
Definition stringified_field (v : jsval) : jsval := option_map stringified v.

(** No number in the value is [Infinity], [-Infinity] or [NaN]. *)
Fixpoint all_finite (v : json) : bool :=
  match v with
  | JNum n => is_finite n
  | JArr items => forallb all_finite items
  | JObj fields => forallb (fun kv => all_finite (snd kv)) fields
  | _ => true
  end.

(** ** The data both servers share *)

(** A connection: the identity of a [ws] object. *)
Definition conn := nat.

(** ['X'] and ['O']. *)
Inductive side := X | O.

Definition side_eq_dec : forall a b : side, {a = b} + {a <> b}.
Proof. decide equality. Defined.

(** What a [sides] map may hold for a connection: a side, or [null] (here
    [None]), the value [assignSide] and [chooseSide] return when both sides
    are used. *)
Definition slot := option side.

Definition slot_eq_dec : forall a b : slot, {a = b} + {a <> b}.
Proof. decide equality. apply side_eq_dec. Defined.

(** A room object, [{ clients: Set<WS>, sides: Map<WS,'X'|'O'> }]. *)
Record room := { clients : list conn; sides : list (conn * slot) }.

(** [{ clients: new Set(), sides: new Map() }] *)
Definition new_room : room := {| clients := []; sides := [] |}.

(** A reference to a room object. *)
Definition ref := nat.

(** The room objects allocated so far, and the [rooms] map,
    [code -> reference], in insertion order. *)
Record store := { heap : list room; rooms : list (jsstring * ref) }.

(** [const rooms = new Map()] *)
Definition empty_store : store := {| heap := []; rooms := [] |}.

(** The object a reference points to. *)
Definition deref (a : ref) (st : store) : room := nth a (heap st) new_room.

Fixpoint update_nth {A : Type} (i : nat) (x : A) (l : list A) : list A :=
  match l, i with
  | [], _ => []
  | _ :: l', 0 => x :: l'
  | y :: l', S i' => y :: update_nth i' x l'
  end.

(** A mutation of the object behind a reference. *)
Definition write (a : ref) (r : room) (st : store) : store :=
  {| heap := update_nth a r (heap st); rooms := rooms st |}.

(** [rooms.get(code)] *)
Definition rooms_get (code : jsstring) (st : store) : option ref :=
  Map_get jsstring_eq_dec code (rooms st).

(** [rooms.delete(code)] *)
Definition rooms_delete (code : jsstring) (st : store) : store :=
  {| heap := heap st; rooms := Map_delete jsstring_eq_dec code (rooms st) |}.

(** [getRoom(code)], the same function in both files:
    [if (!rooms.has(code)) rooms.set(code, {...}); return rooms.get(code);] *)
Definition getRoom (code : jsstring) (st : store) : ref * store :=
  match rooms_get code st with
  | Some a => (a, st)
  | None =>
      let a := length (heap st) in
      (a, {| heap := heap st ++ [new_room];
             rooms := rooms st ++ [(code, a)] |})
  end.

(** The registry as a reader sees it: each code with its room. *)
Definition registry (st : store) : list (jsstring * room) :=
  map (fun e => (fst e, deref (snd e) st)) (rooms st).

(** The room registered under a code, if any. *)
Definition room_of (code : jsstring) (st : store) : option room :=
  Map_get jsstring_eq_dec code (registry st).

(** [new Set(room.sides.values())] then [!used.has('X')], [!used.has('O')]:
    the body of [assignSide] ([server.js]) and of [chooseSide]
    ([part_000]). *)
Definition free_side (r : room) : slot :=
  let used := Map_values (sides r) in
  if negb (Set_has slot_eq_dec (Some X) used) then Some X
  else if negb (Set_has slot_eq_dec (Some O) used) then Some O
  else None.

(** [r.clients.add(ws)] *)
Definition add_client (ws : conn) (r : room) : room :=
  {| clients := Set_add Nat.eq_dec ws (clients r); sides := sides r |}.

(** [r.sides.set(ws, side)] *)
Definition set_side (ws : conn) (sd : slot) (r : room) : room :=
  {| clients := clients r; sides := Map_set Nat.eq_dec ws sd (sides r) |}.

(** [r.clients.delete(ws); r.sides.delete(ws);] *)
Definition evict (ws : conn) (r : room) : room :=
  {| clients := Set_delete Nat.eq_dec ws (clients r);
     sides := Map_delete Nat.eq_dec ws (sides r) |}.

(** [if (r.clients.size === 0) rooms.delete(code);] *)
Definition delete_if_empty (code : jsstring) (r : room) (st : store) : store :=
  if length (clients r) =? 0 then rooms_delete code st else st.

(** ** Messages *)

Inductive error := missing_room | room_full | invalid_json | not_joined.

(** The messages as the texts sent carry them: the objects the servers
    pass to [JSON.stringify], with every field as [JSON.stringify] writes
    it. Room codes, sides and error names are written as they are; the
    payload of a [move] is the one field it can rewrite ([stringified]). A
    field whose value is [undefined] is absent from the text sent: [from]
    is [None] then, and [Some None] when it is [null]. *)
Inductive outmsg :=
| Joined (room : jsstring) (side : slot)
| Error (e : error)
| PeerJoined (side : slot)
| PeerLeft (room : option jsstring)
| Move (from : option slot) (data : jsval)
| Reset.

(** One [c.send(...)] call. *)
Definition send := (conn * outmsg)%type.

(** What arrives on the ['message'] event: text [JSON.parse] rejects, or
    the parsed value. *)
Inductive frame :=
| Malformed
| Parsed (m : json).

(** The client messages [{t:'join', room}], [{t:'move', room, data}] and
    [{t:'reset', room}], parsed, and the frames that carry them. *)
Definition msg_join_body (room : json) : json :=
  JObj [(lit "t", JStr (lit "join")); (lit "room", room)].
Definition msg_move_body (room : json) (data : json) : json :=
  JObj [(lit "t", JStr (lit "move")); (lit "room", room); (lit "data", data)].
Definition msg_reset_body (room : json) : json :=
  JObj [(lit "t", JStr (lit "reset")); (lit "room", room)].
Definition msg_join (room : json) : frame := Parsed (msg_join_body room).
Definition msg_move (room : json) (data : json) : frame :=
  Parsed (msg_move_body room data).
Definition msg_reset (room : json) : frame := Parsed (msg_reset_body room).

(** [m.k] for a parsed value that is not [null]: only an object has own
    properties named [t], [room] or [data]. *)
Definition prop (k : string) (m : json) : jsval :=
  match m with
  | JObj fields => field k fields
  | _ => None
  end.

(** [v === 'k'] *)
Definition is_string (k : string) (v : jsval) : bool :=
  match v with
  | Some (JStr s) => if jsstring_eq_dec s (lit k) then true else false
  | _ => false
  end.

(** [peer.readyState === 1], as the transport reports it at the time of a
    call. *)
Definition readiness := conn -> bool.

(** ** The heartbeat's data *)

(** [wss.clients] with each connection's [isAlive] flag. *)
Definition tracked := list (conn * bool).

(** What a sweep asks of the transport. *)
Inductive probe :=
| Terminate (ws : conn)
| Ping (ws : conn).

(** [ws.on('pong', () => (ws.isAlive = true))], the same in both files. *)
Definition on_pong (ws : conn) (t : tracked) : tracked :=
  map (fun e => if Nat.eq_dec (fst e) ws then (fst e, true) else e) t.

(** ** [src/server.js] *)

Module ServerJs.

(** The [rooms] map with its objects, and each connection's
    [ws.currentRoom] ([null] when the connection has no entry). *)
Record state := { objects : store; currentRoom : list (conn * jsstring) }.

Definition init : state := {| objects := empty_store; currentRoom := [] |}.

(** [function sideFor(room, ws) { return room.sides.get(ws); }] *)
Definition sideFor (r : room) (ws : conn) : option slot :=
  Map_get Nat.eq_dec ws (sides r).

(** [for (const c of room.clients) if (c !== ws) return c; return null;] *)
Fixpoint first_other (ws : conn) (cs : list conn) : option conn :=
  match cs with
  | [] => None
  | c :: cs' => if Nat.eq_dec c ws then first_other ws cs' else Some c
  end.

Definition otherClient (r : room) (ws : conn) : option conn :=
  first_other ws (clients r).

(** [function assignSide(room, ws)] *)
Definition assignSide (r : room) (ws : conn) : slot := free_side r.

(** [if (peer && peer.readyState === 1) peer.send(msg)] *)
Definition send_if_open (ready : readiness) (peer : option conn)
    (m : outmsg) : list send :=
  match peer with
  | Some p => if ready p then [(p, m)] else []
  | None => []
  end.

(** The [join] branch, after the room code passed the check of line 66. *)
Definition join (ready : readiness) (ws : conn) (code : jsstring)
    (s : state) : state * list send :=
  let (a, st1) := getRoom code (objects s) in
  if 2 <=? length (clients (deref a st1)) then
    ({| objects := st1; currentRoom := currentRoom s |},
     [(ws, Error room_full)])
  else
    let r1 := add_client ws (deref a st1) in
    let side := assignSide r1 ws in
    let r2 := set_side ws side r1 in
    ({| objects := write a r2 st1;
        currentRoom := Map_set Nat.eq_dec ws code (currentRoom s) |},
     (ws, Joined code side)
       :: send_if_open ready (otherClient r2 ws) (PeerJoined side)).

(** [!code || ws.currentRoom !== code] is false: [code] is a non-empty
    string and is the connection's current room. *)
Definition in_current_room (ws : conn) (code : jsval) (s : state)
    : option jsstring :=
  match code, Map_get Nat.eq_dec ws (currentRoom s) with
  | Some (JStr c), Some cur =>
      if truthy code then
        if jsstring_eq_dec cur c then Some c else None
      else None
  | _, _ => None
  end.

(** The code after the [join] branch: the membership check and the relay
    of [move] and [reset]. The peer is sent
    [JSON.stringify({ t:'move', from, data: msg.data })]. *)
Definition relay (ready : readiness) (ws : conn) (msg : json) (s : state)
    : state * list send :=
  match in_current_room ws (prop "room" msg) s with
  | None => (s, [(ws, Error not_joined)])
  | Some code =>
      let (a, st1) := getRoom code (objects s) in
      let r := deref a st1 in
      let peer := otherClient r ws in
      let from := sideFor r ws in
      let s1 := {| objects := st1; currentRoom := currentRoom s |} in
      if is_string "move" (prop "t" msg) then
        (s1, send_if_open ready peer
               (Move from (stringified_field (prop "data" msg))))
      else if is_string "reset" (prop "t" msg) then
        (s1, send_if_open ready peer Reset)
      else (s1, [])
  end.

(** [ws.on('message', (raw) => ...)]. Destructuring [null] throws. *)
Definition on_message (ready : readiness) (ws : conn) (raw : frame)
    (s : state) : option (state * list send) :=
  match raw with
  | Malformed => Some (s, [(ws, Error invalid_json)])
  | Parsed JNull => None
  | Parsed msg =>
      if is_string "join" (prop "t" msg) then
        match prop "room" msg with
        | Some (JStr (c :: cs)) => Some (join ready ws (c :: cs) s)
        | _ => Some (s, [(ws, Error missing_room)])
        end
      else Some (relay ready ws msg s)
  end.

(** [ws.on('close', () => ...)] *)
Definition on_close (ready : readiness) (ws : conn) (s : state)
    : state * list send :=
  match Map_get Nat.eq_dec ws (currentRoom s) with
  | None => (s, [])
  | Some [] => (s, [])
  | Some code =>
      let (a, st1) := getRoom code (objects s) in
      let r := deref a st1 in
      let peer := otherClient r ws in
      let st2 := write a (evict ws r) st1 in
      let out := send_if_open ready peer (PeerLeft None) in
      let st3 := delete_if_empty code (evict ws r) st2 in
      ({| objects := st3; currentRoom := currentRoom s |}, out)
  end.

(** The states the server reaches, with the connections already closed.
    The transport emits ['close'] once per connection and delivers no
    frame of a connection after it; a handler left by an exception ends the
    process. *)
Inductive reachable : state -> list conn -> Prop :=
| reach_init : reachable init []
| reach_message s closed ready ws raw s' out :
    reachable s closed -> ~ In ws closed ->
    on_message ready ws raw s = Some (s', out) ->
    reachable s' closed
| reach_close s closed ready ws s' out :
    reachable s closed -> ~ In ws closed ->
    on_close ready ws s = (s', out) ->
    reachable s' (ws :: closed).

(** The heartbeat's tick: [wss.clients.forEach(ws => { if (!ws.isAlive)
    return ws.terminate(); ws.isAlive = false; ws.ping(); })]. The [return]
    leaves the callback, and [forEach] goes on with the next connection. *)
Fixpoint sweep (t : tracked) : tracked * list probe :=
  match t with
  | [] => ([], [])
  | (ws, alive) :: rest =>
      let (rest', probes) := sweep rest in
      if negb alive then ((ws, alive) :: rest', Terminate ws :: probes)
      else ((ws, false) :: rest', Ping ws :: probes)
  end.

End ServerJs.

(** ** [src/unnamed/part_000] *)

Module Part000.

(** [function chooseSide(roomObj)] *)
Definition chooseSide (r : room) : slot := free_side r.

(** [c !== except] *)
Definition is_not (except : option conn) (c : conn) : bool :=
  match except with
  | Some e => if Nat.eq_dec c e then false else true
  | None => true
  end.

(** [function broadcast(roomObj, msg, except = null)] *)
Definition broadcast (ready : readiness) (r : room) (msg : outmsg)
    (except : option conn) : list send :=
  map (fun c => (c, msg))
      (filter (fun c => ready c && is_not except c) (clients r)).

(** The loop of [leaveEverywhere] over the remaining entries of [rooms]:
    the first room whose [clients.delete(ws)] succeeds is cleaned up, and
    the loop breaks. *)
Fixpoint leave_loop (ready : readiness) (ws : conn)
    (entries : list (jsstring * ref)) (st : store) : store * list send :=
  match entries with
  | [] => (st, [])
  | (code, a) :: rest =>
      let r := deref a st in
      if Set_has Nat.eq_dec ws (clients r) then
        let st1 := write a (evict ws r) st in
        let out := broadcast ready (evict ws r) (PeerLeft (Some code)) None in
        (delete_if_empty code (evict ws r) st1, out)
      else leave_loop ready ws rest st
  end.

(** [function leaveEverywhere(ws)] *)
Definition leaveEverywhere (ready : readiness) (ws : conn) (st : store)
    : store * list send :=
  leave_loop ready ws (rooms st) st.

(** [String(m.room || '').trim()]; [None] when [String] throws. *)
Definition room_code (m : json) : option jsstring :=
  match js_String (or_empty (prop "room" m)) with
  | Some s => Some (trim s)
  | None => None
  end.

(** The [join] branch, after the room code passed the check of line 62.
    The room is fetched before the connection leaves its former room. *)
Definition join (ready : readiness) (ws : conn) (code : jsstring)
    (st : store) : store * list send :=
  let (r, st1) := getRoom code st in
  let (st2, left) := leaveEverywhere ready ws st1 in
  let side := chooseSide (deref r st2) in
  match side with
  | None => (st2, left ++ [(ws, Error room_full)])
  | Some _ =>
      let r' := set_side ws side (add_client ws (deref r st2)) in
      (write r r' st2,
       left ++ (ws, Joined code side)
            :: broadcast ready r' (PeerJoined side) (Some ws))
  end.

(** The [move] and [reset] branches: [rooms.get(code)], the membership
    check, and the broadcast to the others. *)
Definition relay (ready : readiness) (ws : conn) (code : jsstring)
    (msg : option slot -> outmsg) (st : store) : list send :=
  match rooms_get code st with
  | None => []
  | Some a =>
      let r := deref a st in
      if negb (Set_has Nat.eq_dec ws (clients r)) then []
      else broadcast ready r (msg (Map_get Nat.eq_dec ws (sides r))) (Some ws)
  end.

(** [ws.on('message', (buf) => ...)]. The message of a [move] is what
    [broadcast] sends, [JSON.stringify({ t: 'move', from, data: m.data })]. *)
Definition on_message (ready : readiness) (ws : conn) (buf : frame)
    (st : store) : option (store * list send) :=
  match buf with
  | Malformed => Some (st, [])
  | Parsed m =>
      let t := prop "t" m in
      if negb (truthy t) then Some (st, [])
      else if is_string "join" t then
        match room_code m with
        | None => None
        | Some [] => Some (st, [(ws, Error missing_room)])
        | Some code => Some (join ready ws code st)
        end
      else if is_string "move" t then
        match room_code m with
        | None => None
        | Some code =>
            Some (st, relay ready ws code
                        (fun from =>
                           Move from (stringified_field (prop "data" m))) st)
        end
      else if is_string "reset" t then
        match room_code m with
        | None => None
        | Some code => Some (st, relay ready ws code (fun _ => Reset) st)
        end
      else Some (st, [])
  end.

(** [ws.on('close', () => leaveEverywhere(ws))] and
    [ws.on('error', () => leaveEverywhere(ws))] *)
Definition on_close (ready : readiness) (ws : conn) (st : store)
    : store * list send :=
  leaveEverywhere ready ws st.

(** The states the server reaches: frames, closes and errors of any
    connection, in any order. *)
Inductive reachable : store -> Prop :=
| reach_init : reachable empty_store
| reach_message st ready ws buf st' out :
    reachable st ->
    on_message ready ws buf st = Some (st', out) ->
    reachable st'
| reach_close st ready ws st' out :
    reachable st ->
    on_close ready ws st = (st', out) ->
    reachable st'.

(** The heartbeat's tick: [for (const ws of wss.clients) { if (ws.isAlive
    === false) return ws.terminate(); ws.isAlive = false; ws.ping(); }].
    The [return] leaves the timer's callback: the connections after the
    first dead one are not visited. *)
Fixpoint sweep (t : tracked) : tracked * list probe :=
  match t with
  | [] => ([], [])
  | (ws, alive) :: rest =>
      if negb alive then ((ws, alive) :: rest, [Terminate ws])
      else
        let (rest', probes) := sweep rest in
        ((ws, false) :: rest', Ping ws :: probes)
  end.

End Part000.

(** ** Well-formed stores and rooms *)

(** The [rooms] map has one entry per code, no two codes share a room
    object, and every reference points into the heap. *)
Definition store_wf (st : store) : Prop :=
  NoDup (map fst (rooms st)) /\ NoDup (map snd (rooms st)) /\
  forall code a, In (code, a) (rooms st) -> a < length (heap st).

(** The shapes a registered room takes: one member with a side, or two
    members with the two sides; [sides] lists the members in the order
    of [clients]. *)
Inductive room_ok : room -> Prop :=
| ok_one a s :
    room_ok {| clients := [a]; sides := [(a, Some s)] |}
| ok_two a b s t :
    a <> b -> s <> t ->
    room_ok {| clients := [a; b]; sides := [(a, Some s); (b, Some t)] |}.

(** Every registered room has one of these shapes. *)
Definition rooms_ok (st : store) : Prop :=
  forall code a, In (code, a) (rooms st) -> room_ok (deref a st).

(** A room in one of the two shapes, or the empty room [getRoom] has just
    created. *)
Definition room_ok0 (r : room) : Prop := room_ok r \/ r = new_room.

Definition rooms_ok0 (st : store) : Prop :=
  forall code a, In (code, a) (rooms st) -> room_ok0 (deref a st).

(** No connection is a member of two registered rooms. *)
Definition one_room_each (st : store) : Prop :=
  forall c1 a1 c2 a2 ws,
    In (c1, a1) (rooms st) -> In (c2, a2) (rooms st) ->
    In ws (clients (deref a1 st)) -> In ws (clients (deref a2 st)) ->
    c1 = c2.

(** The role a room records for a connection. *)
Definition role_of (r : room) (ws : conn) : option slot :=
  Map_get Nat.eq_dec ws (sides r).

(** The invariant of a room as the data model states it: at most two
    members; the role assignment has one entry per member, each a side, and
    none for anyone else; no two members share a side. *)
Definition room_inv (r : room) : Prop :=
  NoDup (clients r) /\ length (clients r) <= 2 /\
  NoDup (map fst (sides r)) /\
  (forall ws, In ws (clients r) <-> exists sd, role_of r ws = Some (Some sd)) /\
  (forall ws, role_of r ws <> Some None) /\
  (forall ws1 ws2 sd,
     role_of r ws1 = Some sd -> role_of r ws2 = Some sd -> ws1 = ws2).

(** The invariant of the registry: every registered room satisfies
    [room_inv] and has a member. *)
Definition registry_inv (st : store) : Prop :=
  forall code r, In (code, r) (registry st) -> room_inv r /\ clients r <> [].

(** A connection is a member of the room registered under a code. *)
Definition member (ws : conn) (code : jsstring) (st : store) : Prop :=
  exists r, room_of code st = Some r /\ In ws (clients r).

(** In [server.js], every open connection with a current room is a member
    of that room. *)
Definition current_ok (s : ServerJs.state) (closed : list conn) : Prop :=
  forall ws code,
    ~ In ws closed ->
    Map_get Nat.eq_dec ws (ServerJs.currentRoom s) = Some code ->
    code <> [] /\
    exists a, rooms_get code (ServerJs.objects s) = Some a /\
              In ws (clients (deref a (ServerJs.objects s))).

(** What the proofs carry along the runs of [part_000]. *)
Definition inv_part000 (st : store) : Prop :=
  store_wf st /\ rooms_ok st /\ one_room_each st.

(** What the proofs carry along the runs of [server.js]. *)
Definition inv_server (s : ServerJs.state) (closed : list conn) : Prop :=
  store_wf (ServerJs.objects s) /\ rooms_ok (ServerJs.objects s) /\
  current_ok s closed.

(** A [move] or [reset] message: its [t] is one of the two strings. *)
Definition relayed (m : json) : Prop :=
  is_string "move" (prop "t" m) = true \/
  is_string "reset" (prop "t" m) = true.

(** A string that does not begin with white space; for the reverse of a
    string, one that does not end with it. *)
Definition no_space_first (s : jsstring) : Prop :=
  match s with
  | [] => True
  | c :: _ => is_space c = false
  end.

(** What becomes of a registered room when [ws] leaves it
    ([clients.delete(ws)], [sides.delete(ws)], and [rooms.delete(code)] once
    [clients.size === 0]): the room without [ws], or no room when [ws] was
    its last member; a room [ws] is not in stays as it is. *)
Definition leave_room (ws : conn) (o : option room) : option room :=
  match o with
  | None => None
  | Some r =>
      if Set_has Nat.eq_dec ws (clients r) then
        match clients (evict ws r) with
        | [] => None
        | _ => Some (evict ws r)
        end
      else Some r
  end.


(** A message is addressed as the handlers of a connection [ws] address
    theirs: a reply ([joined], [error]) to [ws] itself, a notification
    ([peer_joined], [peer_left], [move], [reset]) to another connection,
    which is open. *)
Definition addressed (ready : readiness) (ws : conn) (e : send) : Prop :=
  match snd e with
  | Joined _ _ | Error _ => fst e = ws
  | _ => fst e <> ws /\ ready (fst e) = true
  end.

(** ** Example runs *)

(** Every connection open. *)
Definition all_open : readiness := fun _ => true.

Definition abc : jsstring := lit "abc".
Definition xyz : jsstring := lit "xyz".

(** A room with connections 1 and 2, in the order they joined. *)
Definition room_1_2 : room :=
  {| clients := [1; 2]; sides := [(1, Some X); (2, Some O)] |}.

(** A room with one connection. *)
Definition room_solo (ws : conn) : room :=
  {| clients := [ws]; sides := [(ws, Some X)] |}.

(** [part_000] after connection 1 joined "abc". *)
Definition solo_abc : store :=
  {| heap := [room_solo 1]; rooms := [(abc, 0)] |}.

(** [part_000] after connections 1 and 2 joined "abc". *)
Definition pair_abc : store :=
  {| heap := [room_1_2]; rooms := [(abc, 0)] |}.

(** [part_000] after connections 1 and 2 joined "abc" and connection 3
    joined "xyz". *)
Definition pair_abc_solo_xyz : store :=
  {| heap := [room_1_2; room_solo 3]; rooms := [(abc, 0); (xyz, 1)] |}.

(** [server.js] after connections 1 and 2 joined "abc". *)
Definition server_pair_abc : ServerJs.state :=
  {| ServerJs.objects := pair_abc;
     ServerJs.currentRoom := [(1, abc); (2, abc)] |}.

(** [server.js] after connections 1 and 2 joined "abc" and connection 1
    then joined "xyz": it is still a member of "abc". *)
Definition server_pair_abc_then_xyz : ServerJs.state :=
  {| ServerJs.objects :=
       {| heap := [room_1_2; room_solo 1]; rooms := [(abc, 0); (xyz, 1)] |};
     ServerJs.currentRoom := [(1, xyz); (2, abc)] |}.

(** The payload [{x: 1}]. *)
Definition payload_x1 : json :=
  JObj [(lit "x", JNum {| num_truthy := true; num_text := lit "1" |})].

(** The number the JSON literal [1e999] parses to, [Infinity]. *)
Definition infinity : json :=
  JNum {| num_truthy := true; num_text := lit "Infinity" |}.

(** A connection that is not open, among open ones. *)
Definition all_open_but (c : conn) : readiness :=
  fun p => if Nat.eq_dec p c then false else true.

(** The value [{"toString": null}] parses to: [String] throws on it. *)
Definition no_toString : json := JObj [(lit "toString", JNull)].

(** Case analysis on the comparisons of connections in a goal. *)
Ltac case_conn :=
  repeat match goal with
  | |- context [Nat.eq_dec ?x ?y] => destruct (Nat.eq_dec x y); subst; simpl
  | H : context [Nat.eq_dec ?x ?y] |- _ =>
      destruct (Nat.eq_dec x y); subst; simpl in H
  end.

(** ** Facts about [Set] and [Map] *)

Section CollectionFacts.
Context {K V : Type} (eq_dec : forall x y : K, {x = y} + {x <> y}).

Lemma Set_has_In (x : K) (s : list K) :
  Set_has eq_dec x s = true <-> In x s.
Proof.
  induction s as [|y s IH]; simpl.
  - split; [discriminate | tauto].
  - destruct (eq_dec x y) as [->|Hne].
    + split; auto.
    + rewrite IH. split; [auto | intros [H|H]; [congruence | exact H]].
Qed.

Lemma Set_has_not_In (x : K) (s : list K) :
  Set_has eq_dec x s = false <-> ~ In x s.
Proof.
  rewrite <- Set_has_In. destruct (Set_has eq_dec x s); split; congruence.
Qed.

Lemma Set_delete_In (x y : K) (s : list K) :
  In y (Set_delete eq_dec x s) <-> y <> x /\ In y s.
Proof.
  induction s as [|z s IH]; simpl.
  - tauto.
  - destruct (eq_dec x z) as [->|Hne]; simpl; rewrite IH.
    + split; [tauto | intros [H1 [H2|H2]]; [congruence | tauto]].
    + split; [intros [H|H]; [subst; split; auto | tauto] | tauto].
Qed.

Lemma Set_delete_absent (x : K) (s : list K) :
  ~ In x s -> Set_delete eq_dec x s = s.
Proof.
  induction s as [|z s IH]; simpl; intros H; [reflexivity|].
  destruct (eq_dec x z) as [->|Hne]; [tauto|].
  f_equal. apply IH. tauto.
Qed.

Lemma Map_get_In (k : K) (v : V) (m : list (K * V)) :
  Map_get eq_dec k m = Some v -> In (k, v) m.
Proof.
  induction m as [|[k' v'] m IH]; simpl; [discriminate|].
  destruct (eq_dec k k') as [->|Hne]; intros H.
  - left. congruence.
  - right. auto.
Qed.

Lemma Map_get_None (k : K) (m : list (K * V)) :
  Map_get eq_dec k m = None <-> ~ In k (map fst m).
Proof.
  induction m as [|[k' v'] m IH]; simpl; [tauto|].
  destruct (eq_dec k k') as [->|Hne].
  - split; [discriminate | tauto].
  - rewrite IH. split; [intros H [E|I]; [congruence | tauto] | tauto].
Qed.

Lemma In_Map_get (k : K) (v : V) (m : list (K * V)) :
  NoDup (map fst m) -> In (k, v) m -> Map_get eq_dec k m = Some v.
Proof.
  induction m as [|[k' v'] m IH]; simpl; [tauto|].
  intros Hnd [E|I].
  - inversion E; subst. destruct (eq_dec k k); [reflexivity | tauto].
  - inversion Hnd; subst.
    destruct (eq_dec k k') as [->|Hne]; [|auto].
    exfalso. apply H1. apply (in_map fst) in I. exact I.
Qed.

Lemma Map_get_app (k : K) (m m' : list (K * V)) :
  Map_get eq_dec k (m ++ m') =
  match Map_get eq_dec k m with
  | Some v => Some v
  | None => Map_get eq_dec k m'
  end.
Proof.
  induction m as [|[k' v'] m IH]; simpl; [reflexivity|].
  destruct (eq_dec k k'); auto.
Qed.

Lemma Map_delete_In (k : K) (e : K * V) (m : list (K * V)) :
  In e (Map_delete eq_dec k m) <-> fst e <> k /\ In e m.
Proof.
  induction m as [|[k' v'] m IH]; simpl; [tauto|].
  destruct (eq_dec k k') as [->|Hne]; simpl; rewrite IH.
  - split; [tauto|]. intros [H1 [H2|H2]]; [subst; simpl in H1; tauto | tauto].
  - split; [|tauto].
    intros [H|H]; [subst; simpl; split; auto | tauto].
Qed.

Lemma Map_delete_absent (k : K) (m : list (K * V)) :
  ~ In k (map fst m) -> Map_delete eq_dec k m = m.
Proof.
  induction m as [|[k' v'] m IH]; simpl; intros H; [reflexivity|].
  destruct (eq_dec k k') as [->|Hne]; [tauto|].
  f_equal. apply IH. tauto.
Qed.

Lemma Map_delete_app (k : K) (m m' : list (K * V)) :
  Map_delete eq_dec k (m ++ m') =
  Map_delete eq_dec k m ++ Map_delete eq_dec k m'.
Proof.
  induction m as [|[k' v'] m IH]; simpl; [reflexivity|].
  destruct (eq_dec k k'); simpl; rewrite IH; reflexivity.
Qed.

Lemma Map_get_delete (k k' : K) (m : list (K * V)) :
  Map_get eq_dec k' (Map_delete eq_dec k m) =
  if eq_dec k k' then None else Map_get eq_dec k' m.
Proof.
  induction m as [|[k0 v0] m IH]; simpl.
  - destruct (eq_dec k k'); reflexivity.
  - destruct (eq_dec k k0) as [->|Hne]; simpl.
    + rewrite IH. destruct (eq_dec k0 k') as [->|Hne'].
      * reflexivity.
      * destruct (eq_dec k' k0); [congruence | reflexivity].
    + destruct (eq_dec k' k0) as [->|Hne'].
      * destruct (eq_dec k k0); [congruence | reflexivity].
      * exact IH.
Qed.

Lemma NoDup_Map_delete_fst (k : K) (m : list (K * V)) :
  NoDup (map fst m) -> NoDup (map fst (Map_delete eq_dec k m)).
Proof.
  induction m as [|[k' v'] m IH]; simpl; intros H; [constructor|].
  inversion H; subst.
  destruct (eq_dec k k'); simpl; [auto|].
  constructor; [|auto].
  intros Hin. apply H2. apply in_map_iff in Hin as [e [E Hin]].
  apply Map_delete_In in Hin as [_ Hin].
  apply in_map_iff. exists e. auto.
Qed.

Lemma NoDup_Map_delete_snd (k : K) (m : list (K * V)) :
  NoDup (map snd m) -> NoDup (map snd (Map_delete eq_dec k m)).
Proof.
  induction m as [|[k' v'] m IH]; simpl; intros H; [constructor|].
  inversion H; subst.
  destruct (eq_dec k k'); simpl; [auto|].
  constructor; [|auto].
  intros Hin. apply H2. apply in_map_iff in Hin as [e [E Hin]].
  apply Map_delete_In in Hin as [_ Hin].
  apply in_map_iff. exists e. auto.
Qed.

Lemma Map_get_replace (k k' : K) (v : V) (m : list (K * V)) :
  Map_get eq_dec k' (Map_replace eq_dec k v m) =
  match Map_get eq_dec k' m with
  | Some v' => if eq_dec k k' then Some v else Some v'
  | None => None
  end.
Proof.
  induction m as [|[k0 v0] m IH]; simpl; [reflexivity|].
  destruct (eq_dec k k0) as [->|Hne]; simpl.
  - destruct (eq_dec k' k0) as [->|Hne'].
    + destruct (eq_dec k0 k0); [reflexivity | tauto].
    + destruct (Map_get eq_dec k' m); [|reflexivity].
      destruct (eq_dec k0 k'); [congruence | reflexivity].
  - destruct (eq_dec k' k0) as [->|Hne'].
    + destruct (eq_dec k k0); [congruence | reflexivity].
    + exact IH.
Qed.

Lemma Map_get_set_same (k : K) (v : V) (m : list (K * V)) :
  Map_get eq_dec k (Map_set eq_dec k v m) = Some v.
Proof.
  unfold Map_set, Map_has.
  destruct (Map_get eq_dec k m) eqn:E.
  - rewrite Map_get_replace, E. destruct (eq_dec k k); [reflexivity | tauto].
  - rewrite Map_get_app, E. simpl. destruct (eq_dec k k); [reflexivity | tauto].
Qed.

Lemma Map_get_set_other (k k' : K) (v : V) (m : list (K * V)) :
  k <> k' -> Map_get eq_dec k' (Map_set eq_dec k v m) = Map_get eq_dec k' m.
Proof.
  intros Hne. unfold Map_set, Map_has.
  destruct (Map_get eq_dec k m) eqn:E.
  - rewrite Map_get_replace. destruct (Map_get eq_dec k' m); [|reflexivity].
    destruct (eq_dec k k'); [tauto | reflexivity].
  - rewrite Map_get_app. destruct (Map_get eq_dec k' m); [reflexivity|].
    simpl. destruct (eq_dec k' k); [congruence | reflexivity].
Qed.

Lemma Map_delete_twice (k : K) (m : list (K * V)) :
  Map_delete eq_dec k (Map_delete eq_dec k m) = Map_delete eq_dec k m.
Proof.
  apply Map_delete_absent. intros H.
  apply in_map_iff in H as (e & E & H).
  apply Map_delete_In in H as [H _]. tauto.
Qed.

End CollectionFacts.

(** ** The coercions at work *)

Example trim_strips_both_ends :
  trim (lit "  a b ") = lit "a b" /\ trim [160; 9; 10; 8232]%N = [].
Proof. split; reflexivity. Qed.

Example String_of_array :
  js_String (JArr [JStr (lit "a"); JNull; JArr [JBool true; JBool false]])
  = Some (lit "a,,true,false").
Proof. reflexivity. Qed.

Example String_of_object :
  js_String (JObj [(lit "x", JNull)]) = Some (lit "[object Object]") /\
  js_String (JObj [(lit "toString", JNull)]) = None.
Proof. split; reflexivity. Qed.

Example room_code_coerces :
  Part000.room_code (msg_join_body (JStr (lit " abc "))) = Some (lit "abc") /\
  Part000.room_code (msg_join_body (JBool true)) = Some (lit "true") /\
  Part000.room_code (msg_join_body (JBool false)) = Some [] /\
  Part000.room_code (msg_join_body (JArr [])) = Some [].
Proof. repeat split; reflexivity. Qed.

(** ** Facts about the store *)

Lemma nth_update_nth_same {A : Type} (i : nat) (x d : A) (l : list A) :
  i < length l -> nth i (update_nth i x l) d = x.
Proof.
  revert i. induction l as [|y l IH]; intros [|i] H; simpl in *;
    try lia; [reflexivity | apply IH; lia].
Qed.

Lemma nth_update_nth_other {A : Type} (i j : nat) (x d : A) (l : list A) :
  i <> j -> nth j (update_nth i x l) d = nth j l d.
Proof.
  revert i j. induction l as [|y l IH]; intros [|i] [|j] H; simpl;
    try reflexivity; try lia.
  apply IH. lia.
Qed.

Lemma length_update_nth {A : Type} (i : nat) (x : A) (l : list A) :
  length (update_nth i x l) = length l.
Proof.
  revert i. induction l as [|y l IH]; intros [|i]; simpl; auto.
Qed.

Lemma update_nth_same {A : Type} (i : nat) (d : A) (l : list A) :
  update_nth i (nth i l d) l = l.
Proof.
  revert i. induction l as [|y l IH]; intros [|i]; simpl; auto.
  f_equal. apply IH.
Qed.

Lemma deref_write_same (a : ref) (r : room) (st : store) :
  a < length (heap st) -> deref a (write a r st) = r.
Proof. intros H. apply nth_update_nth_same. exact H. Qed.

Lemma deref_write_other (a b : ref) (r : room) (st : store) :
  a <> b -> deref b (write a r st) = deref b st.
Proof. intros H. apply nth_update_nth_other. exact H. Qed.

Lemma write_deref (a : ref) (st : store) : write a (deref a st) st = st.
Proof.
  destruct st as [h rs]. unfold write, deref. simpl.
  rewrite update_nth_same. reflexivity.
Qed.

Lemma store_wf_write (a : ref) (r : room) (st : store) :
  store_wf st -> store_wf (write a r st).
Proof.
  intros (H1 & H2 & H3). repeat split; simpl; auto.
  intros code b Hin. rewrite length_update_nth. eauto.
Qed.

Lemma store_wf_rooms_delete (code : jsstring) (st : store) :
  store_wf st -> store_wf (rooms_delete code st).
Proof.
  intros (H1 & H2 & H3). repeat split; simpl.
  - apply NoDup_Map_delete_fst. exact H1.
  - apply NoDup_Map_delete_snd. exact H2.
  - intros c b Hin. apply Map_delete_In in Hin as [_ Hin]. eauto.
Qed.

Lemma store_wf_delete_if_empty (code : jsstring) (r : room) (st : store) :
  store_wf st -> store_wf (delete_if_empty code r st).
Proof.
  intros H. unfold delete_if_empty.
  destruct (length (clients r) =? 0); auto using store_wf_rooms_delete.
Qed.

Lemma store_wf_empty : store_wf empty_store.
Proof. repeat split; simpl; try constructor. intros ? ? []. Qed.

Lemma rooms_get_In (code : jsstring) (a : ref) (st : store) :
  rooms_get code st = Some a -> In (code, a) (rooms st).
Proof. apply Map_get_In. Qed.

Lemma In_rooms_get (code : jsstring) (a : ref) (st : store) :
  store_wf st -> In (code, a) (rooms st) -> rooms_get code st = Some a.
Proof. intros (H & _). apply In_Map_get. exact H. Qed.

(** Two entries of [rooms] with the same reference are the same entry. *)
Lemma same_ref_same_code (st : store) (c1 c2 : jsstring) (a : ref) :
  store_wf st -> In (c1, a) (rooms st) -> In (c2, a) (rooms st) -> c1 = c2.
Proof.
  intros (_ & H & _). revert H.
  induction (rooms st) as [|[c b] l IH]; simpl; [tauto|].
  intros Hnd [E1|I1] [E2|I2]; inversion Hnd; subst.
  - congruence.
  - inversion E1; subst. exfalso. apply H1.
    apply (in_map snd) in I2. exact I2.
  - inversion E2; subst. exfalso. apply H1.
    apply (in_map snd) in I1. exact I1.
  - auto.
Qed.

Lemma getRoom_present (code : jsstring) (a : ref) (st : store) :
  rooms_get code st = Some a -> getRoom code st = (a, st).
Proof. intros H. unfold getRoom. rewrite H. reflexivity. Qed.

Lemma getRoom_absent (code : jsstring) (st : store) :
  rooms_get code st = None ->
  getRoom code st =
  (length (heap st),
   {| heap := heap st ++ [new_room];
      rooms := rooms st ++ [(code, length (heap st))] |}).
Proof. intros H. unfold getRoom. rewrite H. reflexivity. Qed.

Lemma deref_grow (a : ref) (h : list room) (rs rs' : list (jsstring * ref)) :
  deref a {| heap := h ++ [new_room]; rooms := rs' |} =
  deref a {| heap := h; rooms := rs |}.
Proof.
  unfold deref. simpl.
  destruct (Nat.lt_ge_cases a (length h)) as [Hlt|Hge].
  - apply app_nth1. exact Hlt.
  - rewrite (nth_overflow h) by exact Hge.
    destruct (Nat.eq_dec a (length h)) as [->|Hne].
    + rewrite nth_middle. reflexivity.
    + apply nth_overflow. rewrite length_app. simpl. lia.
Qed.

Lemma store_wf_grow (code : jsstring) (st : store) :
  store_wf st -> rooms_get code st = None ->
  store_wf {| heap := heap st ++ [new_room];
              rooms := rooms st ++ [(code, length (heap st))] |}.
Proof.
  intros (H1 & H2 & H3) Hnone. apply Map_get_None in Hnone.
  repeat split; simpl.
  - rewrite map_app. simpl. apply NoDup_app; [exact H1 | repeat constructor; auto |].
    intros c Hin [E|[]]. subst. tauto.
  - rewrite map_app. simpl. apply NoDup_app; [exact H2 | repeat constructor; auto |].
    intros b Hin [E|[]]. subst.
    apply in_map_iff in Hin as [[c b] [E Hin]]. simpl in E. subst.
    apply H3 in Hin. lia.
  - intros c b Hin. rewrite length_app. simpl.
    apply in_app_or in Hin as [Hin|[E|[]]].
    + apply H3 in Hin. lia.
    + inversion E. lia.
Qed.

Lemma store_wf_getRoom (code : jsstring) (st : store) :
  store_wf st -> store_wf (snd (getRoom code st)).
Proof.
  intros H. unfold getRoom.
  destruct (rooms_get code st) eqn:E; simpl; [exact H|].
  apply store_wf_grow; assumption.
Qed.

(** [getRoom] returns the reference registered under the code. *)
Lemma getRoom_registered (code : jsstring) (st : store) :
  In (code, fst (getRoom code st)) (rooms (snd (getRoom code st))).
Proof.
  unfold getRoom. destruct (rooms_get code st) eqn:E; simpl.
  - apply rooms_get_In. exact E.
  - apply in_or_app. right. left. reflexivity.
Qed.

(** The registry pairs each code of [rooms] with the object it refers
    to. *)
Lemma in_registry (st : store) (code : jsstring) (r : room) :
  In (code, r) (registry st) <->
  exists a, In (code, a) (rooms st) /\ r = deref a st.
Proof.
  unfold registry. rewrite in_map_iff. split.
  - intros [[c a] [E Hin]]. simpl in E. inversion E; subst. eauto.
  - intros [a [Hin ->]]. exists (code, a). auto.
Qed.

Lemma room_of_rooms_get (code : jsstring) (st : store) :
  room_of code st =
  match rooms_get code st with
  | Some a => Some (deref a st)
  | None => None
  end.
Proof.
  unfold room_of, rooms_get, registry.
  induction (rooms st) as [|[c a] l IH]; simpl; [reflexivity|].
  destruct (jsstring_eq_dec code c); auto.
Qed.

(** ** Facts about rooms *)

Lemma room_ok_inv (r : room) : room_ok r -> room_inv r /\ clients r <> [].
Proof.
  intros H. split; [|destruct H; discriminate].
  destruct H as [a s|a b s t Hab Hst]; unfold room_inv, role_of; simpl.
  - repeat split.
    + repeat constructor; simpl; tauto.
    + lia.
    + repeat constructor; simpl; tauto.
    + intros [E|[]]. subst. exists s. case_conn; tauto.
    + intros [sd E]. case_conn; [auto | discriminate].
    + intros ws. case_conn; discriminate.
    + intros ws1 ws2 sd. case_conn; congruence.
  - repeat split.
    + repeat constructor; simpl; intuition congruence.
    + lia.
    + repeat constructor; simpl; intuition congruence.
    + intros [E|[E|[]]]; subst; case_conn; eauto; tauto.
    + intros [sd E]. case_conn; auto; discriminate.
    + intros ws. case_conn; discriminate.
    + intros ws1 ws2 sd. case_conn; congruence.
Qed.

Lemma free_side_add_client (ws : conn) (r : room) :
  free_side (add_client ws r) = free_side r.
Proof. reflexivity. Qed.

Lemma free_side_two (r : room) :
  room_ok r -> length (clients r) = 2 -> free_side r = None.
Proof.
  intros H. destruct H as [a s|a b s t Hab Hst]; simpl; [discriminate|].
  intros _. destruct s, t; try reflexivity; congruence.
Qed.

Lemma free_side_one (r : room) :
  room_ok r -> length (clients r) < 2 -> exists sd, free_side r = Some sd.
Proof.
  intros H. destruct H as [a s|a b s t Hab Hst]; simpl; [|lia].
  intros _. destruct s; eexists; reflexivity.
Qed.

(** When both sides are taken the room has two members, and conversely. *)
Lemma free_side_None (r : room) :
  room_ok r -> (free_side r = None <-> length (clients r) = 2).
Proof.
  intros H. split; [|apply free_side_two; exact H].
  destruct H as [a s|a b s t Hab Hst]; simpl; [|reflexivity].
  destruct s; discriminate.
Qed.

(** A connection that takes the free side of an empty room, of a room it is
    alone in, or of a room with one other member, leaves the room in one of
    the two shapes. *)
Lemma enter_room_ok (ws : conn) (r : room) (sd : side) :
  room_ok r \/ r = new_room ->
  free_side r = Some sd ->
  room_ok (set_side ws (Some sd) (add_client ws r)).
Proof.
  intros [H| ->] Hfree.
  - destruct H as [a s|a b s t Hab Hst].
    + unfold set_side, add_client, Map_set, Map_has, Set_add. simpl.
      destruct (Nat.eq_dec ws a) as [->|Hne]; simpl.
      * destruct (Nat.eq_dec a a); [|tauto]. constructor.
      * constructor; [congruence|].
        destruct s; inversion Hfree; discriminate.
    + destruct s, t; try discriminate; congruence.
  - unfold set_side, add_client, Map_set, Map_has, Set_add. simpl. constructor.
Qed.

Lemma enter_room_member (ws : conn) (r : room) (sd : slot) :
  In ws (clients (set_side ws sd (add_client ws r))).
Proof.
  unfold set_side, add_client, Set_add. simpl.
  destruct (Set_has Nat.eq_dec ws (clients r)) eqn:E.
  - apply Set_has_In in E. exact E.
  - apply in_or_app. right. left. reflexivity.
Qed.

Lemma enter_room_keeps (ws c : conn) (r : room) (sd : slot) :
  In c (clients r) -> In c (clients (set_side ws sd (add_client ws r))).
Proof.
  unfold set_side, add_client, Set_add. simpl. intros H.
  destruct (Set_has Nat.eq_dec ws (clients r)); [exact H|].
  apply in_or_app. left. exact H.
Qed.

Lemma enter_room_members (ws c : conn) (r : room) (sd : slot) :
  In c (clients (set_side ws sd (add_client ws r))) ->
  c = ws \/ In c (clients r).
Proof.
  unfold set_side, add_client, Set_add. simpl.
  destruct (Set_has Nat.eq_dec ws (clients r)); [tauto|].
  intros H. apply in_app_or in H as [H|[H|[]]]; auto.
Qed.

(** Evicting a member leaves a room in a good shape, or empty when the
    member was alone. *)
Lemma evict_ok (ws : conn) (r : room) :
  room_ok r -> In ws (clients r) ->
  (clients r = [ws] /\ evict ws r = new_room) \/
  (length (clients r) = 2 /\ room_ok (evict ws r)).
Proof.
  intros H Hin.
  destruct H as [a s|a b s t Hab Hst]; unfold evict; simpl in *.
  - left. destruct Hin as [->|[]]. case_conn; tauto.
  - right. split; [reflexivity|].
    destruct Hin as [->|[->|[]]]; case_conn; try tauto; constructor.
Qed.

Lemma evict_absent (ws : conn) (r : room) :
  room_ok r -> ~ In ws (clients r) -> evict ws r = r.
Proof.
  intros H Hin.
  destruct H as [a s|a b s t Hab Hst]; unfold evict; simpl in *;
    case_conn; tauto.
Qed.

Lemma evict_members (ws c : conn) (r : room) :
  In c (clients (evict ws r)) <-> c <> ws /\ In c (clients r).
Proof. apply Set_delete_In. Qed.

Lemma evict_absent0 (ws : conn) (r : room) :
  room_ok0 r -> ~ In ws (clients r) -> evict ws r = r.
Proof.
  intros [H| ->] Hin; [apply evict_absent; assumption | reflexivity].
Qed.

Lemma evict_ok0 (ws : conn) (r : room) : room_ok0 r -> room_ok0 (evict ws r).
Proof.
  intros [H| ->]; [|right; reflexivity].
  destruct (in_dec Nat.eq_dec ws (clients r)) as [Hin|Hin].
  - destruct (evict_ok ws r H Hin) as [[_ E]|[_ E]]; [right | left]; exact E.
  - rewrite evict_absent by assumption. left. exact H.
Qed.

Lemma deref_delete_if_empty (a : ref) (code : jsstring) (r : room)
    (st : store) :
  deref a (delete_if_empty code r st) = deref a st.
Proof.
  unfold delete_if_empty. destruct (length (clients r) =? 0); reflexivity.
Qed.

Lemma heap_delete_if_empty (code : jsstring) (r : room) (st : store) :
  heap (delete_if_empty code r st) = heap st.
Proof.
  unfold delete_if_empty. destruct (length (clients r) =? 0); reflexivity.
Qed.

Lemma rooms_delete_if_empty (code : jsstring) (r : room) (st : store)
    (e : jsstring * ref) :
  In e (rooms (delete_if_empty code r st)) <->
  In e (rooms st) /\ (clients r = [] -> fst e <> code).
Proof.
  unfold delete_if_empty.
  destruct (clients r) as [|c cs] eqn:E; simpl.
  - rewrite Map_delete_In. tauto.
  - split; [intros H; split; [exact H | discriminate] | tauto].
Qed.

(** ** [part_000]: leaving *)

(** The loop of [leaveEverywhere] ends without a change when no remaining
    room has the connection, and otherwise cleans up the first room that
    has it. *)
Lemma leave_loop_cases (ready : readiness) (ws : conn)
    (entries : list (jsstring * ref)) (st : store) :
  ((forall code a, In (code, a) entries -> ~ In ws (clients (deref a st))) /\
   Part000.leave_loop ready ws entries st = (st, []))
  \/
  (exists before code a after,
     entries = before ++ (code, a) :: after /\
     (forall c b, In (c, b) before -> ~ In ws (clients (deref b st))) /\
     In ws (clients (deref a st)) /\
     Part000.leave_loop ready ws entries st =
     (delete_if_empty code (evict ws (deref a st))
        (write a (evict ws (deref a st)) st),
      Part000.broadcast ready (evict ws (deref a st))
        (PeerLeft (Some code)) None)).
Proof.
  induction entries as [|[code a] rest IH]; simpl.
  - left. split; [tauto | reflexivity].
  - destruct (Set_has Nat.eq_dec ws (clients (deref a st))) eqn:E.
    + right. exists [], code, a, rest. apply Set_has_In in E.
      repeat split; simpl; tauto.
    + apply Set_has_not_In in E.
      destruct IH as [[Hnone Heq]|(before & c & b & after & -> & Hb & Hin & Heq)].
      * left. split; [|exact Heq].
        intros c b [Hcb|Hcb]; [inversion Hcb; subst; exact E | eauto].
      * right. exists ((code, a) :: before), c, b, after.
        repeat split; auto.
        intros c' b' [Hcb|Hcb]; [inversion Hcb; subst; exact E | eauto].
Qed.

(** Under the invariants, [leaveEverywhere] on a member's room. *)
Lemma leaveEverywhere_member (ready : readiness) (ws : conn)
    (code : jsstring) (a : ref) (st : store) :
  store_wf st -> one_room_each st ->
  In (code, a) (rooms st) -> In ws (clients (deref a st)) ->
  Part000.leaveEverywhere ready ws st =
  (delete_if_empty code (evict ws (deref a st))
     (write a (evict ws (deref a st)) st),
   Part000.broadcast ready (evict ws (deref a st)) (PeerLeft (Some code)) None).
Proof.
  intros Hwf Hone Hin Hmem. unfold Part000.leaveEverywhere.
  destruct (leave_loop_cases ready ws (rooms st) st)
    as [[Hnone _]|(before & c & b & after & E & Hb & Hin' & Heq)].
  - exfalso. eapply Hnone; eauto.
  - assert (Hcb : In (c, b) (rooms st)).
    { rewrite E. apply in_or_app. right. left. reflexivity. }
    assert (c = code) by (eapply Hone; eauto). subst c.
    assert (b = a).
    { apply In_rooms_get in Hin; [|exact Hwf].
      apply In_rooms_get in Hcb; [|exact Hwf]. congruence. }
    subst b. exact Heq.
Qed.

Lemma leaveEverywhere_absent (ready : readiness) (ws : conn) (st : store) :
  (forall code a, In (code, a) (rooms st) -> ~ In ws (clients (deref a st))) ->
  Part000.leaveEverywhere ready ws st = (st, []).
Proof.
  intros Hnone. unfold Part000.leaveEverywhere.
  destruct (leave_loop_cases ready ws (rooms st) st)
    as [[_ Heq]|(before & c & b & after & E & Hb & Hin' & Heq)];
    [exact Heq|].
  exfalso. eapply Hnone; [|exact Hin'].
  rewrite E. apply in_or_app. right. left. reflexivity.
Qed.

(** What [leaveEverywhere] leaves behind: every registered room without
    the connection, and the room it emptied gone from the registry. *)
Lemma leaveEverywhere_spec (ready : readiness) (ws : conn) (st : store) :
  store_wf st -> one_room_each st -> rooms_ok0 st ->
  let st' := fst (Part000.leaveEverywhere ready ws st) in
  store_wf st' /\
  length (heap st') = length (heap st) /\
  (forall code a, In (code, a) (rooms st) ->
     deref a st' = evict ws (deref a st)) /\
  (forall code a, In (code, a) (rooms st') <->
     In (code, a) (rooms st) /\
     (In ws (clients (deref a st)) -> clients (evict ws (deref a st)) <> [])).
Proof.
  intros Hwf Hone Hok.
  destruct (leave_loop_cases ready ws (rooms st) st)
    as [[Hnone Heq]|(before & c & b & after & E & Hb & Hin & Heq)];
    unfold Part000.leaveEverywhere; rewrite Heq; simpl.
  - split; [exact Hwf | split; [reflexivity | split]].
    + intros code a H. symmetry. apply evict_absent0; eauto.
    + intros code a. split; [|tauto].
      intros H. split; [exact H|]. intros H'. exfalso. eapply Hnone; eauto.
  - assert (Hcb : In (c, b) (rooms st)).
    { rewrite E. apply in_or_app. right. left. reflexivity. }
    assert (Hlt : b < length (heap st)) by (destruct Hwf as (_ & _ & H); eauto).
    assert (Hother : forall code a, In (code, a) (rooms st) ->
              a <> b -> ~ In ws (clients (deref a st))).
    { intros code a H Hne Hmem. apply Hne.
      assert (code = c) by (eapply Hone; eauto). subst code.
      apply In_rooms_get in H; [|exact Hwf].
      apply In_rooms_get in Hcb; [|exact Hwf]. congruence. }
    split; [|split; [|split]].
    + apply store_wf_delete_if_empty, store_wf_write, Hwf.
    + rewrite heap_delete_if_empty. simpl. apply length_update_nth.
    + intros code a H. rewrite deref_delete_if_empty.
      destruct (Nat.eq_dec a b) as [->|Hne].
      * apply deref_write_same. exact Hlt.
      * rewrite deref_write_other by congruence.
        symmetry. apply evict_absent0; eauto.
    + intros code a. rewrite rooms_delete_if_empty. simpl.
      split; intros [H1 H2]; (split; [exact H1|]).
      * intros Hmem Hempty.
        destruct (Nat.eq_dec a b) as [->|Hne]; [|eapply Hother; eauto].
        apply H2; [exact Hempty|].
        eapply same_ref_same_code; eauto.
      * intros Hempty Hc. subst code.
        assert (a = b).
        { apply In_rooms_get in H1; [|exact Hwf].
          apply In_rooms_get in Hcb; [|exact Hwf]. congruence. }
        subst a. apply H2; assumption.
Qed.

(** The rooms [leaveEverywhere] keeps: none has the connection, one in a
    good shape stays so, and membership only shrinks. *)
Lemma leaveEverywhere_rooms (ready : readiness) (ws : conn) (st : store) :
  store_wf st -> one_room_each st -> rooms_ok0 st ->
  let st' := fst (Part000.leaveEverywhere ready ws st) in
  forall code a, In (code, a) (rooms st') ->
    In (code, a) (rooms st) /\
    deref a st' = evict ws (deref a st) /\
    ~ In ws (clients (deref a st')) /\
    (room_ok (deref a st) -> room_ok (deref a st')) /\
    (deref a st = new_room -> deref a st' = new_room).
Proof.
  intros Hwf Hone Hok st' code a Hin.
  destruct (leaveEverywhere_spec ready ws st Hwf Hone Hok)
    as (_ & _ & Hderef & Hrooms).
  fold st' in Hderef, Hrooms.
  apply Hrooms in Hin as [Hin Hkeep].
  rewrite (Hderef _ _ Hin).
  split; [exact Hin | split; [reflexivity | split; [|split]]].
  - rewrite evict_members. tauto.
  - intros Hr. destruct (in_dec Nat.eq_dec ws (clients (deref a st))) as [Hm|Hm].
    + destruct (evict_ok ws _ Hr Hm) as [[_ E]|[_ E]]; [|exact E].
      exfalso. apply (Hkeep Hm). rewrite E. reflexivity.
    + rewrite evict_absent by assumption. exact Hr.
  - intros ->. reflexivity.
Qed.

Lemma leaveEverywhere_one_room_each (ready : readiness) (ws : conn)
    (st : store) :
  store_wf st -> one_room_each st -> rooms_ok0 st ->
  one_room_each (fst (Part000.leaveEverywhere ready ws st)).
Proof.
  intros Hwf Hone Hok c1 a1 c2 a2 w H1 H2 M1 M2.
  destruct (leaveEverywhere_rooms ready ws st Hwf Hone Hok _ _ H1)
    as (I1 & E1 & _).
  destruct (leaveEverywhere_rooms ready ws st Hwf Hone Hok _ _ H2)
    as (I2 & E2 & _).
  rewrite E1 in M1. rewrite E2 in M2.
  apply evict_members in M1 as [_ M1]. apply evict_members in M2 as [_ M2].
  eapply Hone; eauto.
Qed.

(** ** [getRoom] and the invariants *)

Lemma getRoom_spec (code : jsstring) (st : store) :
  store_wf st -> rooms_ok st ->
  let r := fst (getRoom code st) in
  let st1 := snd (getRoom code st) in
  store_wf st1 /\ In (code, r) (rooms st1) /\
  ((rooms_get code st = Some r /\ st1 = st /\ room_ok (deref r st)) \/
   (rooms_get code st = None /\ deref r st1 = new_room /\
    r = length (heap st))) /\
  (forall c a, In (c, a) (rooms st1) -> a <> r ->
     In (c, a) (rooms st) /\ deref a st1 = deref a st /\
     room_ok (deref a st1)).
Proof.
  intros Hwf Hok r st1.
  split; [apply store_wf_getRoom; exact Hwf|].
  split; [apply getRoom_registered|].
  subst r st1. unfold getRoom.
  destruct (rooms_get code st) as [a|] eqn:E; simpl.
  - split.
    + left. repeat split; auto. apply Hok with code.
      apply rooms_get_In. exact E.
    + intros c b Hin _. repeat split; eauto.
  - split.
    + right. repeat split; auto.
      unfold deref. simpl. apply nth_middle.
    + intros c b Hin Hne.
      apply in_app_or in Hin as [Hin|[Hin|[]]]; [|inversion Hin; congruence].
      assert (D : deref b {| heap := heap st ++ [new_room];
                             rooms := rooms st ++ [(code, length (heap st))] |}
                  = deref b st).
      { destruct st as [h rs]. apply deref_grow. }
      rewrite D. repeat split; eauto.
Qed.

Lemma getRoom_one_room_each (code : jsstring) (st : store) :
  store_wf st -> rooms_ok st -> one_room_each st ->
  one_room_each (snd (getRoom code st)).
Proof.
  intros Hwf Hok Hone.
  destruct (getRoom_spec code st Hwf Hok) as (_ & _ & Hr & Hothers).
  intros c1 a1 c2 a2 ws H1 H2 M1 M2.
  destruct Hr as [(_ & E & _)|(_ & Enew & _)].
  - rewrite E in *. eapply Hone; eauto.
  - destruct (Nat.eq_dec a1 (fst (getRoom code st))) as [E1|N1].
    { subst a1. rewrite Enew in M1. destruct M1. }
    destruct (Nat.eq_dec a2 (fst (getRoom code st))) as [E2|N2].
    { subst a2. rewrite Enew in M2. destruct M2. }
    destruct (Hothers _ _ H1 N1) as (I1 & D1 & _).
    destruct (Hothers _ _ H2 N2) as (I2 & D2 & _).
    rewrite D1 in M1. rewrite D2 in M2. eapply Hone; eauto.
Qed.

Lemma getRoom_rooms_ok0 (code : jsstring) (st : store) :
  store_wf st -> rooms_ok st -> rooms_ok0 (snd (getRoom code st)).
Proof.
  intros Hwf Hok c a Hin.
  destruct (getRoom_spec code st Hwf Hok) as (_ & _ & Hr & Hothers).
  destruct (Nat.eq_dec a (fst (getRoom code st))) as [->|Hne].
  - destruct Hr as [(_ & E & Hr)|(_ & Enew & _)].
    + left. rewrite E. exact Hr.
    + right. exact Enew.
  - left. apply (Hothers _ _ Hin Hne).
Qed.

(** ** [part_000]: the invariant along every run *)

Lemma leaveEverywhere_inv (ready : readiness) (ws : conn) (st : store) :
  inv_part000 st -> inv_part000 (fst (Part000.leaveEverywhere ready ws st)).
Proof.
  intros (Hwf & Hok & Hone).
  assert (K : rooms_ok0 st) by (intros c a H; left; eauto).
  split; [apply (leaveEverywhere_spec ready ws st Hwf Hone K)|].
  split; [|apply leaveEverywhere_one_room_each; assumption].
  intros c a Hin.
  destruct (leaveEverywhere_rooms ready ws st Hwf Hone K _ _ Hin)
    as (I & _ & _ & Hk & _).
  apply Hk. eauto.
Qed.

Lemma join_inv_part000 (ready : readiness) (ws : conn) (code : jsstring)
    (st : store) :
  inv_part000 st -> inv_part000 (fst (Part000.join ready ws code st)).
Proof.
  intros (Hwf & Hok & Hone). unfold Part000.join.
  pose proof (getRoom_spec code st Hwf Hok) as (W1 & R1 & Hr & Hothers).
  pose proof (getRoom_one_room_each code st Hwf Hok Hone) as O1.
  pose proof (getRoom_rooms_ok0 code st Hwf Hok) as K1.
  destruct (getRoom code st) as [r st1]. simpl in *.
  pose proof (leaveEverywhere_spec ready ws st1 W1 O1 K1) as (W2 & L2 & D2 & R2).
  pose proof (leaveEverywhere_rooms ready ws st1 W1 O1 K1) as Hrooms2.
  pose proof (leaveEverywhere_one_room_each ready ws st1 W1 O1 K1) as O2.
  destruct (Part000.leaveEverywhere ready ws st1) as [st2 left]. simpl in *.
  assert (S2 : forall c a, In (c, a) (rooms st2) -> a <> r ->
                 room_ok (deref a st2)).
  { intros c a Hin Hne. destruct (Hrooms2 _ _ Hin) as (I1 & _ & _ & Hk & _).
    apply Hk. apply (Hothers _ _ I1 Hne). }
  assert (Hr2 : deref r st2 = evict ws (deref r st1)) by (eapply D2; eauto).
  assert (K2 : room_ok0 (deref r st2)).
  { rewrite Hr2. apply evict_ok0. eapply K1; eauto. }
  assert (Hlt : r < length (heap st2)).
  { rewrite L2. destruct W1 as (_ & _ & H). eauto. }
  unfold Part000.chooseSide.
  destruct (free_side (deref r st2)) as [sd|] eqn:Hside; simpl.
  - split; [apply store_wf_write; exact W2|]. split.
    + intros c a Hin. simpl in Hin. destruct (Nat.eq_dec a r) as [->|Hne].
      * rewrite deref_write_same by exact Hlt.
        apply enter_room_ok; assumption.
      * rewrite deref_write_other by congruence. eauto.
    + intros c1 a1 c2 a2 w H1 H2 M1 M2. simpl in H1, H2.
      destruct (Nat.eq_dec a1 r) as [->|N1];
        destruct (Nat.eq_dec a2 r) as [->|N2].
      * eapply same_ref_same_code; eauto.
      * rewrite deref_write_same in M1 by exact Hlt.
        rewrite deref_write_other in M2 by congruence.
        apply enter_room_members in M1 as [->|M1].
        -- exfalso. eapply (Hrooms2 _ _ H2); eauto.
        -- eapply O2; eauto.
      * rewrite deref_write_same in M2 by exact Hlt.
        rewrite deref_write_other in M1 by congruence.
        apply enter_room_members in M2 as [->|M2].
        -- exfalso. eapply (Hrooms2 _ _ H1); eauto.
        -- eapply O2; eauto.
      * rewrite deref_write_other in M1 by congruence.
        rewrite deref_write_other in M2 by congruence.
        eapply O2; eauto.
  - split; [exact W2|]. split; [|exact O2].
    intros c a Hin. destruct (Nat.eq_dec a r) as [->|Hne]; [|eauto].
    destruct K2 as [K2|K2]; [exact K2|].
    rewrite K2 in Hside. discriminate.
Qed.

Lemma on_message_inv_part000 (ready : readiness) (ws : conn) (buf : frame)
    (st st' : store) (out : list send) :
  inv_part000 st ->
  Part000.on_message ready ws buf st = Some (st', out) ->
  inv_part000 st'.
Proof.
  intros Hinv. unfold Part000.on_message.
  destruct buf as [|m]; [intros H; inversion H; subst; exact Hinv|].
  destruct (negb (truthy (prop "t" m)));
    [intros H; inversion H; subst; exact Hinv|].
  destruct (is_string "join" (prop "t" m)).
  - destruct (Part000.room_code m) as [[|c code]|]; try discriminate.
    + intros H; inversion H; subst; exact Hinv.
    + intros H. inversion H as [E].
      pose proof (join_inv_part000 ready ws (c :: code) st Hinv) as J.
      rewrite E in J. exact J.
  - destruct (is_string "move" (prop "t" m)).
    + destruct (Part000.room_code m); [|discriminate].
      intros H; inversion H; subst; exact Hinv.
    + destruct (is_string "reset" (prop "t" m)).
      * destruct (Part000.room_code m); [|discriminate].
        intros H; inversion H; subst; exact Hinv.
      * intros H; inversion H; subst; exact Hinv.
Qed.

Lemma reachable_inv_part000 (st : store) :
  Part000.reachable st -> inv_part000 st.
Proof.
  induction 1 as [|st ready ws buf st' out _ IH Hm|st ready ws st' out _ IH Hc].
  - split; [apply store_wf_empty|]. split.
    + intros c a [].
    + intros c1 a1 c2 a2 w [].
  - eapply on_message_inv_part000; eauto.
  - unfold Part000.on_close in Hc.
    pose proof (leaveEverywhere_inv ready ws st IH) as L.
    rewrite Hc in L. exact L.
Qed.

(** The invariant the proofs carry gives the one the data model states. *)
Lemma rooms_ok_registry_inv (st : store) : rooms_ok st -> registry_inv st.
Proof.
  intros Hok code r Hin. apply in_registry in Hin as (a & Hin & ->).
  apply room_ok_inv. eauto.
Qed.

(** ** [server.js]: the invariant along every run *)

Lemma state_eta (s : ServerJs.state) :
  {| ServerJs.objects := ServerJs.objects s;
     ServerJs.currentRoom := ServerJs.currentRoom s |} = s.
Proof. destruct s. reflexivity. Qed.

Lemma rooms_get_getRoom (code c : jsstring) (a : ref) (st : store) :
  rooms_get c st = Some a -> rooms_get c (snd (getRoom code st)) = Some a.
Proof.
  intros H. unfold getRoom. destruct (rooms_get code st); simpl; [exact H|].
  unfold rooms_get in *. simpl. rewrite Map_get_app, H. reflexivity.
Qed.

Lemma deref_getRoom (code : jsstring) (a : ref) (st : store) :
  a < length (heap st) -> deref a (snd (getRoom code st)) = deref a st.
Proof.
  intros H. unfold getRoom. destruct (rooms_get code st); simpl; [reflexivity|].
  unfold deref. simpl. apply app_nth1. exact H.
Qed.

(** A full room turns the joiner away and nothing changes. *)
Lemma join_full_server (ready : readiness) (ws : conn) (code : jsstring)
    (s : ServerJs.state) (a : ref) :
  rooms_get code (ServerJs.objects s) = Some a ->
  2 <= length (clients (deref a (ServerJs.objects s))) ->
  ServerJs.join ready ws code s = (s, [(ws, Error room_full)]).
Proof.
  intros Hget Hfull. unfold ServerJs.join.
  rewrite (getRoom_present _ _ _ Hget).
  apply Nat.leb_le in Hfull. rewrite Hfull, state_eta. reflexivity.
Qed.

Lemma join_inv_server (ready : readiness) (ws : conn) (code : jsstring)
    (s : ServerJs.state) (closed : list conn) :
  code <> [] ->
  inv_server s closed ->
  inv_server (fst (ServerJs.join ready ws code s)) closed.
Proof.
  intros Hcode (Hwf & Hok & Hcur). unfold ServerJs.join.
  pose proof (getRoom_spec code _ Hwf Hok) as (W1 & R1 & Hr & Hothers).
  pose proof (getRoom_rooms_ok0 code _ Hwf Hok) as K1.
  pose proof (fun c a => rooms_get_getRoom code c a (ServerJs.objects s)) as G1.
  pose proof (fun a => deref_getRoom code a (ServerJs.objects s)) as D1.
  destruct (getRoom code (ServerJs.objects s)) as [a st1]. cbn [fst snd] in *.
  destruct (2 <=? length (clients (deref a st1))) eqn:Hfull; cbn [fst snd].
  - destruct Hr as [(_ & -> & _)|(_ & Enew & _)].
    + rewrite state_eta. exact (conj Hwf (conj Hok Hcur)).
    + rewrite Enew in Hfull. discriminate.
  - apply Nat.leb_gt in Hfull.
    assert (Hlt : a < length (heap st1)) by (destruct W1 as (_ & _ & H); eauto).
    assert (Hside : exists sd, free_side (deref a st1) = Some sd).
    { destruct (K1 _ _ R1) as [K|K].
      - apply free_side_one; assumption.
      - rewrite K. exists X. reflexivity. }
    destruct Hside as [sd Hside].
    unfold ServerJs.assignSide. rewrite free_side_add_client, Hside.
    unfold inv_server, current_ok.
    cbn [ServerJs.objects ServerJs.currentRoom].
    split; [apply store_wf_write; exact W1|]. split.
    + intros c b Hin. simpl in Hin. destruct (Nat.eq_dec b a) as [->|Hne].
      * rewrite deref_write_same by exact Hlt.
        apply enter_room_ok; [eapply K1; eauto | exact Hside].
      * rewrite deref_write_other by congruence. apply (Hothers _ _ Hin Hne).
    + intros w c Hopen.
      destruct (Nat.eq_dec ws w) as [->|Hne].
      * rewrite Map_get_set_same. intros E. inversion E; subst c.
        split; [exact Hcode|]. exists a. split.
        -- apply In_rooms_get; [apply store_wf_write; exact W1 | exact R1].
        -- rewrite deref_write_same by exact Hlt. apply enter_room_member.
      * rewrite Map_get_set_other by exact Hne. intros E.
        destruct (Hcur _ _ Hopen E) as (Hc & a0 & Hget & Hmem).
        split; [exact Hc|]. exists a0. split; [apply G1; exact Hget|].
        assert (H0 : a0 < length (heap (ServerJs.objects s))).
        { destruct Hwf as (_ & _ & H). apply rooms_get_In in Hget. eauto. }
        destruct (Nat.eq_dec a0 a) as [->|Hne0].
        -- rewrite deref_write_same by exact Hlt.
           apply enter_room_keeps. rewrite D1 by exact H0. exact Hmem.
        -- rewrite deref_write_other by congruence.
           rewrite D1 by exact H0. exact Hmem.
Qed.

Lemma in_current_room_spec (ws : conn) (code : jsval) (s : ServerJs.state)
    (c : jsstring) :
  ServerJs.in_current_room ws code s = Some c <->
  code = Some (JStr c) /\ c <> [] /\
  Map_get Nat.eq_dec ws (ServerJs.currentRoom s) = Some c.
Proof.
  unfold ServerJs.in_current_room.
  destruct code as [[| | |c0| |]|]; try (split; [discriminate | intros [H _]; discriminate]).
  destruct (Map_get Nat.eq_dec ws (ServerJs.currentRoom s)) as [cur|];
    [|split; [discriminate | intros (_ & _ & H); discriminate]].
  destruct c0 as [|x c0]; simpl.
  - split; [discriminate | intros (H & H' & _); inversion H; subst; tauto].
  - destruct (jsstring_eq_dec cur (x :: c0)) as [->|Hne].
    + split; [intros H; inversion H; subst; repeat split; discriminate|].
      intros (H & _ & _). inversion H; subst. reflexivity.
    + split; [discriminate|]. intros (H & _ & H'). inversion H; subst.
      congruence.
Qed.

(** In a reachable state the relay branch of [server.js] finds the room of
    an open connection already registered: [getRoom] creates nothing. *)
Lemma relay_state_server (ready : readiness) (ws : conn) (msg : json)
    (s : ServerJs.state) (closed : list conn) :
  inv_server s closed -> ~ In ws closed ->
  fst (ServerJs.relay ready ws msg s) = s.
Proof.
  intros (Hwf & Hok & Hcur) Hopen. unfold ServerJs.relay.
  destruct (ServerJs.in_current_room ws (prop "room" msg) s) as [c|] eqn:E;
    [|reflexivity].
  apply in_current_room_spec in E as (_ & _ & E).
  destruct (Hcur _ _ Hopen E) as (_ & a & Hget & _).
  rewrite (getRoom_present _ _ _ Hget), state_eta.
  destruct (is_string "move" (prop "t" msg)); [reflexivity|].
  destruct (is_string "reset" (prop "t" msg)); reflexivity.
Qed.

Lemma on_close_inv_server (ready : readiness) (ws : conn)
    (s : ServerJs.state) (closed : list conn) :
  inv_server s closed -> ~ In ws closed ->
  inv_server (fst (ServerJs.on_close ready ws s)) (ws :: closed).
Proof.
  intros (Hwf & Hok & Hcur) Hopen.
  assert (Hweak : current_ok s (ws :: closed)).
  { intros w c Hw. apply Hcur. simpl in Hw. tauto. }
  unfold ServerJs.on_close.
  destruct (Map_get Nat.eq_dec ws (ServerJs.currentRoom s)) as [code|] eqn:E;
    [|exact (conj Hwf (conj Hok Hweak))].
  destruct (Hcur _ _ Hopen E) as (Hcode & a & Hget & Hmem).
  destruct code as [|x code]; [tauto|].
  rewrite (getRoom_present _ _ _ Hget).
  set (c := x :: code) in *. set (st := ServerJs.objects s) in *.
  pose proof (rooms_get_In _ _ _ Hget) as Hin.
  assert (Hlt : a < length (heap st)) by (destruct Hwf as (_ & _ & H); eauto).
  assert (Hr : room_ok (deref a st)) by eauto.
  unfold inv_server, current_ok.
  cbn [fst ServerJs.objects ServerJs.currentRoom].
  split; [apply store_wf_delete_if_empty, store_wf_write, Hwf|]. split.
  - intros c' b Hb. rewrite deref_delete_if_empty.
    apply rooms_delete_if_empty in Hb as [Hb Hkeep].
    cbn [fst rooms write] in Hb, Hkeep.
    destruct (Nat.eq_dec b a) as [->|Hne].
    + rewrite deref_write_same by exact Hlt.
      destruct (evict_ok ws _ Hr Hmem) as [[_ Ev]|[_ Ev]]; [|exact Ev].
      exfalso. apply Hkeep; [rewrite Ev; reflexivity|].
      eapply same_ref_same_code; eauto.
    + rewrite deref_write_other by congruence. eauto.
  - intros w c' Hw Ew. simpl in Hw.
    assert (Hne : w <> ws) by (intros ->; tauto).
    destruct (Hcur w c') as (Hc' & a0 & Hget0 & Hmem0); [tauto | exact Ew|].
    split; [exact Hc'|]. exists a0.
    rewrite deref_delete_if_empty.
    destruct (Nat.eq_dec a0 a) as [->|Hne0].
    + assert (c' = c).
      { eapply same_ref_same_code; eauto. apply rooms_get_In. exact Hget0. }
      subst c'. rewrite deref_write_same by exact Hlt.
      assert (Hw' : In w (clients (evict ws (deref a st)))).
      { apply evict_members. auto. }
      split; [|exact Hw'].
      apply In_rooms_get.
      { apply store_wf_delete_if_empty, store_wf_write, Hwf. }
      apply rooms_delete_if_empty. split; [exact Hin|].
      intros Hempty. rewrite Hempty in Hw'. destruct Hw'.
    + rewrite deref_write_other by congruence. split; [|exact Hmem0].
      apply In_rooms_get.
      { apply store_wf_delete_if_empty, store_wf_write, Hwf. }
      apply rooms_delete_if_empty. split; [apply rooms_get_In; exact Hget0|].
      intros _ Hc. simpl in Hc. subst c'.
      apply Hne0. unfold st in *. congruence.
Qed.

Lemma on_message_inv_server (ready : readiness) (ws : conn) (raw : frame)
    (s s' : ServerJs.state) (out : list send) (closed : list conn) :
  inv_server s closed -> ~ In ws closed ->
  ServerJs.on_message ready ws raw s = Some (s', out) ->
  inv_server s' closed.
Proof.
  intros Hinv Hopen. unfold ServerJs.on_message.
  destruct raw as [|msg]; [intros H; inversion H; subst; exact Hinv|].
  assert (Hrest :
    (if is_string "join" (prop "t" msg)
     then match prop "room" msg with
          | Some (JStr (c :: cs)) => Some (ServerJs.join ready ws (c :: cs) s)
          | _ => Some (s, [(ws, Error missing_room)])
          end
     else Some (ServerJs.relay ready ws msg s)) = Some (s', out) ->
    inv_server s' closed).
  { destruct (is_string "join" (prop "t" msg)).
    - destruct (prop "room" msg) as [[| | |[|c cs]| |]|];
        try (intros H; inversion H; subst; exact Hinv).
      intros H. inversion H as [E].
      pose proof (join_inv_server ready ws (c :: cs) s closed) as J.
      rewrite E in J. apply J; [discriminate | exact Hinv].
    - intros H. inversion H as [E].
      pose proof (relay_state_server ready ws msg s closed Hinv Hopen) as R.
      rewrite E in R. simpl in R. subst s'. exact Hinv. }
  destruct msg; try exact Hrest. discriminate.
Qed.

Lemma reachable_inv_server (s : ServerJs.state) (closed : list conn) :
  ServerJs.reachable s closed -> inv_server s closed.
Proof.
  induction 1 as [|s closed ready ws raw s' out _ IH Hopen Hm
                  |s closed ready ws s' out _ IH Hopen Hc].
  - split; [apply store_wf_empty|]. split.
    + intros c a [].
    + intros w c _ H. discriminate.
  - eapply on_message_inv_server; eauto.
  - pose proof (on_close_inv_server ready ws s closed IH Hopen) as L.
    rewrite Hc in L. exact L.
Qed.

(** ** How the handlers dispatch on [t] *)

Lemma is_string_eq (k : string) (v : jsval) :
  is_string k v = true <-> v = Some (JStr (lit k)).
Proof.
  unfold is_string. destruct v as [[| | |s| |]|];
    try (split; discriminate).
  destruct (jsstring_eq_dec s (lit k)) as [->|Hne].
  - split; reflexivity.
  - split; [discriminate | intros H; inversion H; tauto].
Qed.

Lemma on_message_join_part000 (ready : readiness) (ws : conn) (m : json)
    (st : store) :
  is_string "join" (prop "t" m) = true ->
  Part000.on_message ready ws (Parsed m) st =
  match Part000.room_code m with
  | None => None
  | Some [] => Some (st, [(ws, Error missing_room)])
  | Some code => Some (Part000.join ready ws code st)
  end.
Proof.
  intros H. apply is_string_eq in H. unfold Part000.on_message.
  rewrite H. reflexivity.
Qed.

Lemma on_message_move_part000 (ready : readiness) (ws : conn) (m : json)
    (st : store) :
  is_string "move" (prop "t" m) = true ->
  Part000.on_message ready ws (Parsed m) st =
  match Part000.room_code m with
  | None => None
  | Some code =>
      Some (st, Part000.relay ready ws code
                  (fun from => Move from (stringified_field (prop "data" m)))
                  st)
  end.
Proof.
  intros H. apply is_string_eq in H. unfold Part000.on_message.
  rewrite H. reflexivity.
Qed.

Lemma on_message_reset_part000 (ready : readiness) (ws : conn) (m : json)
    (st : store) :
  is_string "reset" (prop "t" m) = true ->
  Part000.on_message ready ws (Parsed m) st =
  match Part000.room_code m with
  | None => None
  | Some code => Some (st, Part000.relay ready ws code (fun _ => Reset) st)
  end.
Proof.
  intros H. apply is_string_eq in H. unfold Part000.on_message.
  rewrite H. reflexivity.
Qed.

Lemma prop_not_null (k : string) (m : json) (v : json) :
  prop k m = Some v -> exists fields, m = JObj fields.
Proof. destruct m; try discriminate. eauto. Qed.

Lemma on_message_join_server (ready : readiness) (ws : conn) (m : json)
    (s : ServerJs.state) :
  is_string "join" (prop "t" m) = true ->
  ServerJs.on_message ready ws (Parsed m) s =
  match prop "room" m with
  | Some (JStr (c :: cs)) => Some (ServerJs.join ready ws (c :: cs) s)
  | _ => Some (s, [(ws, Error missing_room)])
  end.
Proof.
  intros H. pose proof H as Ht. apply is_string_eq in H.
  destruct (prop_not_null _ _ _ H) as [fields ->].
  unfold ServerJs.on_message. rewrite Ht. reflexivity.
Qed.

Lemma on_message_relay_server (ready : readiness) (ws : conn) (m : json)
    (s : ServerJs.state) :
  relayed m ->
  ServerJs.on_message ready ws (Parsed m) s =
  Some (ServerJs.relay ready ws m s).
Proof.
  intros [H|H]; apply is_string_eq in H;
    destruct (prop_not_null _ _ _ H) as [fields ->];
    unfold ServerJs.on_message; rewrite H; reflexivity.
Qed.

(** ** Membership *)

Lemma member_iff (ws : conn) (code : jsstring) (st : store) :
  member ws code st <->
  exists a, rooms_get code st = Some a /\ In ws (clients (deref a st)).
Proof.
  unfold member. rewrite room_of_rooms_get.
  destruct (rooms_get code st) as [a|]; split.
  - intros (r & E & H). inversion E; subst. eauto.
  - intros (a0 & E & H). inversion E; subst. eauto.
  - intros (r & E & _). discriminate.
  - intros (a0 & E & _). discriminate.
Qed.

Lemma relay_stale_part000 (ready : readiness) (ws : conn) (code : jsstring)
    (msg : option slot -> outmsg) (st : store) :
  ~ member ws code st -> Part000.relay ready ws code msg st = [].
Proof.
  intros H. unfold Part000.relay.
  destruct (rooms_get code st) as [a|] eqn:E; [|reflexivity].
  destruct (Set_has Nat.eq_dec ws (clients (deref a st))) eqn:Hhas;
    [|reflexivity].
  exfalso. apply H. apply member_iff. exists a. split; [exact E|].
  apply Set_has_In in Hhas. exact Hhas.
Qed.

(** ** The heartbeat of [server.js] *)

(** The sweep of [server.js] terminates every tracked connection whose
    flag is false, and clears the flag of every other and pings it. *)
Lemma sweep_server_visits_all (t : tracked) (ws : conn) (alive : bool) :
  In (ws, alive) t ->
  if alive
  then In (Ping ws) (snd (ServerJs.sweep t)) /\
       In (ws, false) (fst (ServerJs.sweep t))
  else In (Terminate ws) (snd (ServerJs.sweep t)).
Proof.
  induction t as [|[w a] t IH]; simpl; [tauto|].
  intros [E|Hin].
  - inversion E; subst. destruct (ServerJs.sweep t) as [t' probes].
    destruct alive; simpl; auto.
  - specialize (IH Hin). destruct (ServerJs.sweep t) as [t' probes].
    destruct alive, a; simpl in *; tauto.
Qed.

Lemma sweep_server_keys (t : tracked) :
  map fst (fst (ServerJs.sweep t)) = map fst t.
Proof.
  induction t as [|[w a] t IH]; simpl; [reflexivity|].
  destruct (ServerJs.sweep t) as [t' probes]. simpl in IH.
  destruct a; simpl; rewrite IH; reflexivity.
Qed.

Lemma sweep_server_flags (t : tracked) (ws : conn) (alive : bool) :
  In (ws, alive) (fst (ServerJs.sweep t)) -> alive = false.
Proof.
  induction t as [|[w a] t IH]; simpl; [tauto|].
  destruct (ServerJs.sweep t) as [t' probes]. simpl in IH.
  destruct a; simpl; intros [E|H]; try (inversion E; reflexivity); auto.
Qed.

Lemma on_pong_other (ws w : conn) (alive : bool) (t : tracked) :
  w <> ws -> In (w, alive) (on_pong ws t) <-> In (w, alive) t.
Proof.
  intros Hne. unfold on_pong. rewrite in_map_iff. split.
  - intros ([w' a'] & E & Hin). simpl in E.
    destruct (Nat.eq_dec w' ws); inversion E; subst; [tauto | exact Hin].
  - intros Hin. exists (w, alive). simpl.
    destruct (Nat.eq_dec w ws); [tauto | auto].
Qed.

(** ** A join to a full room *)

Lemma room_of_deref (code : jsstring) (r : room) (st : store) :
  room_of code st = Some r ->
  exists a, rooms_get code st = Some a /\ deref a st = r.
Proof.
  rewrite room_of_rooms_get.
  destruct (rooms_get code st) as [a|]; [|discriminate].
  intros E. inversion E. eauto.
Qed.

(** [part_000]: a join to a room both of whose sides are taken by others
    is the close of the sender followed by [error(room_full)]. *)
Lemma join_full_part000 (ready : readiness) (ws : conn) (code : jsstring)
    (r : room) (st : store) :
  inv_part000 st -> room_of code st = Some r -> free_side r = None ->
  ~ In ws (clients r) ->
  Part000.join ready ws code st =
  (fst (Part000.on_close ready ws st),
   snd (Part000.on_close ready ws st) ++ [(ws, Error room_full)]) /\
  room_of code (fst (Part000.on_close ready ws st)) = Some r.
Proof.
  intros (Hwf & Hok & Hone) Hroom Hfree Hout.
  destruct (room_of_deref _ _ _ Hroom) as (a & Hget & Hr).
  assert (K : rooms_ok0 st) by (intros c b H; left; eauto).
  pose proof (rooms_get_In _ _ _ Hget) as Hin.
  destruct (leaveEverywhere_spec ready ws st Hwf Hone K)
    as (W2 & _ & D2 & R2).
  assert (Hr2 : deref a (fst (Part000.leaveEverywhere ready ws st)) = r).
  { rewrite (D2 _ _ Hin), Hr. apply evict_absent; [|exact Hout].
    rewrite <- Hr. eauto. }
  assert (Hin2 : In (code, a) (rooms (fst (Part000.leaveEverywhere ready ws st)))).
  { apply R2. split; [exact Hin|]. rewrite Hr. tauto. }
  unfold Part000.join, Part000.on_close.
  rewrite (getRoom_present _ _ _ Hget).
  destruct (Part000.leaveEverywhere ready ws st) as [st2 left].
  cbn [fst snd] in *. unfold Part000.chooseSide. rewrite Hr2, Hfree.
  split; [reflexivity|].
  rewrite room_of_rooms_get, (In_rooms_get _ _ _ W2 Hin2), Hr2. reflexivity.
Qed.

(** ** Rooms with two members *)

Lemma broadcast_two (ready : readiness) (ws peer : conn) (r : room)
    (msg : outmsg) :
  clients r = [ws; peer] \/ clients r = [peer; ws] -> ws <> peer ->
  Part000.broadcast ready r msg (Some ws) =
  if ready peer then [(peer, msg)] else [].
Proof.
  intros [E|E] Hne; unfold Part000.broadcast, Part000.is_not; rewrite E; simpl;
    destruct (Nat.eq_dec ws ws); try tauto;
    destruct (Nat.eq_dec peer ws); try congruence;
    rewrite ?andb_false_r, ?andb_true_r; destruct (ready peer); reflexivity.
Qed.

Lemma otherClient_two (ws peer : conn) (r : room) :
  clients r = [ws; peer] \/ clients r = [peer; ws] -> ws <> peer ->
  ServerJs.otherClient r ws = Some peer.
Proof.
  intros [E|E] Hne; unfold ServerJs.otherClient; rewrite E; simpl;
    destruct (Nat.eq_dec ws ws); try tauto;
    destruct (Nat.eq_dec peer ws); congruence.
Qed.

(** ** What the handlers send *)

Lemma broadcast_sends (ready : readiness) (r : room) (msg : outmsg)
    (except : option conn) (p : conn) (x : outmsg) :
  In (p, x) (Part000.broadcast ready r msg except) ->
  x = msg /\ In p (clients r) /\ ready p = true /\ except <> Some p.
Proof.
  unfold Part000.broadcast. intros H.
  apply in_map_iff in H as (c & E & Hin). inversion E; subst.
  apply filter_In in Hin as (Hin & Hf).
  apply andb_true_iff in Hf as (Hready & Hex).
  repeat split; auto.
  intros ->. unfold Part000.is_not in Hex.
  destruct (Nat.eq_dec p p); [discriminate | tauto].
Qed.

(** What [leaveEverywhere] sends is [peer_left], to open connections other
    than the one that leaves. *)
Lemma leaveEverywhere_sends (ready : readiness) (ws : conn) (st : store)
    (p : conn) (x : outmsg) :
  In (p, x) (snd (Part000.leaveEverywhere ready ws st)) ->
  (exists code, x = PeerLeft (Some code)) /\ p <> ws /\ ready p = true.
Proof.
  unfold Part000.leaveEverywhere.
  destruct (leave_loop_cases ready ws (rooms st) st)
    as [[_ Heq]|(before & c & b & after & _ & _ & _ & Heq)];
    rewrite Heq; simpl; [tauto|].
  intros H. apply broadcast_sends in H as (-> & Hin & Hready & _).
  split; [eauto|]. split; [|exact Hready].
  apply evict_members in Hin. tauto.
Qed.

Lemma join_replies_part000 (ready : readiness) (ws : conn) (code : jsstring)
    (st : store) (p : conn) :
  ~ In (p, Error missing_room) (snd (Part000.join ready ws code st)).
Proof.
  unfold Part000.join. destruct (getRoom code st) as [r st1].
  pose proof (leaveEverywhere_sends ready ws st1 p (Error missing_room)) as L.
  destruct (Part000.leaveEverywhere ready ws st1) as [st2 left].
  simpl in L.
  destruct (Part000.chooseSide (deref r st2)); simpl; intros H;
    apply in_app_or in H as [H|H].
  - destruct (L H) as [[c E] _]. discriminate.
  - destruct H as [H|H]; [discriminate|].
    apply broadcast_sends in H as (E & _). discriminate.
  - destruct (L H) as [[c E] _]. discriminate.
  - destruct H as [H|[]]. discriminate.
Qed.

Lemma join_replies_server (ready : readiness) (ws : conn) (code : jsstring)
    (s : ServerJs.state) (p : conn) :
  ~ In (p, Error missing_room) (snd (ServerJs.join ready ws code s)).
Proof.
  unfold ServerJs.join. destruct (getRoom code (ServerJs.objects s)) as [a st1].
  destruct (2 <=? length (clients (deref a st1))); simpl.
  - intros [H|[]]. discriminate.
  - intros [H|H]; [discriminate|].
    unfold ServerJs.send_if_open in H.
    destruct (ServerJs.otherClient _ ws) as [q|]; [|destruct H].
    destruct (ready q); [|destruct H].
    destruct H as [H|[]]. discriminate.
Qed.

(** ** Closing *)

Lemma on_close_server_none (ready : readiness) (ws : conn)
    (s : ServerJs.state) :
  Map_get Nat.eq_dec ws (ServerJs.currentRoom s) = None ->
  ServerJs.on_close ready ws s = (s, []).
Proof. intros E. unfold ServerJs.on_close. rewrite E. reflexivity. Qed.

Lemma on_close_server_room (ready : readiness) (ws : conn)
    (s : ServerJs.state) (code : jsstring) :
  Map_get Nat.eq_dec ws (ServerJs.currentRoom s) = Some code -> code <> [] ->
  ServerJs.on_close ready ws s =
  (let a := fst (getRoom code (ServerJs.objects s)) in
   let st1 := snd (getRoom code (ServerJs.objects s)) in
   ({| ServerJs.objects :=
         delete_if_empty code (evict ws (deref a st1))
           (write a (evict ws (deref a st1)) st1);
       ServerJs.currentRoom := ServerJs.currentRoom s |},
    ServerJs.send_if_open ready (ServerJs.otherClient (deref a st1) ws)
      (PeerLeft None))).
Proof.
  intros E Hcode. unfold ServerJs.on_close. rewrite E.
  destruct code as [|x code]; [tauto|].
  destruct (getRoom (x :: code) (ServerJs.objects s)). reflexivity.
Qed.



(** ** Joining another room *)

Lemma room_of_after_leave (old : jsstring) (a : ref) (e : room) (st : store) :
  rooms_get old st = Some a -> a < length (heap st) ->
  room_of old (delete_if_empty old e (write a e st)) =
  match clients e with [] => None | _ => Some e end.
Proof.
  intros Hget Hlt. rewrite room_of_rooms_get. unfold delete_if_empty.
  destruct (clients e) as [|c cs]; simpl (length _ =? 0); cbv iota.
  - unfold rooms_get. simpl. rewrite Map_get_delete.
    destruct (jsstring_eq_dec old old); [reflexivity | tauto].
  - change (rooms_get old (write a e st)) with (rooms_get old st).
    rewrite Hget, deref_write_same by exact Hlt. reflexivity.
Qed.

Lemma room_of_write (code c : jsstring) (a : ref) (r : room) (st : store) :
  store_wf st -> In (code, a) (rooms st) ->
  room_of c (write a r st) =
  if jsstring_eq_dec c code then Some r else room_of c st.
Proof.
  intros Hwf Hin. rewrite !room_of_rooms_get.
  change (rooms_get c (write a r st)) with (rooms_get c st).
  assert (Hlt : a < length (heap st)) by (destruct Hwf as (_ & _ & H); eauto).
  destruct (jsstring_eq_dec c code) as [->|Hne].
  - rewrite (In_rooms_get _ _ _ Hwf Hin), deref_write_same by exact Hlt.
    reflexivity.
  - destruct (rooms_get c st) as [b|] eqn:E; [|reflexivity].
    rewrite deref_write_other; [reflexivity|].
    intros ->. apply Hne. eapply same_ref_same_code; eauto.
    apply rooms_get_In. exact E.
Qed.

Lemma room_of_getRoom (code c : jsstring) (st : store) :
  store_wf st -> c <> code ->
  room_of c (snd (getRoom code st)) = room_of c st.
Proof.
  intros Hwf Hne. rewrite !room_of_rooms_get. unfold getRoom.
  destruct (rooms_get code st) eqn:E; simpl; [reflexivity|].
  unfold rooms_get at 1. simpl. rewrite Map_get_app.
  fold (rooms_get c st).
  destruct (rooms_get c st) as [b|] eqn:Eb.
  - f_equal. destruct st as [h rs]. apply deref_grow.
  - simpl. destruct (jsstring_eq_dec c code); [tauto | reflexivity].
Qed.

Lemma room_of_getRoom_target (code : jsstring) (st : store) :
  deref (fst (getRoom code st)) (snd (getRoom code st)) =
  match room_of code st with Some r => r | None => new_room end.
Proof.
  rewrite room_of_rooms_get. unfold getRoom.
  destruct (rooms_get code st) eqn:E; simpl; [reflexivity|].
  apply nth_middle.
Qed.

(** [part_000]: a member of [old] that joins another room [code]. *)
Lemma rejoin_part000 (ready : readiness) (ws : conn) (old code : jsstring)
    (r0 : room) (st : store) :
  inv_part000 st -> old <> code ->
  room_of old st = Some r0 -> In ws (clients r0) ->
  let target := match room_of code st with Some r => r | None => new_room end in
  let left := Part000.broadcast ready (evict ws r0) (PeerLeft (Some old)) None in
  let gone := match clients (evict ws r0) with
              | [] => None
              | _ => Some (evict ws r0)
              end in
  let entered sd := set_side ws (Some sd) (add_client ws target) in
  snd (Part000.on_close ready ws st) = left /\
  room_of old (fst (Part000.on_close ready ws st)) = gone /\
  room_of old (fst (Part000.join ready ws code st)) = gone /\
  match free_side target with
  | Some sd =>
      snd (Part000.join ready ws code st) =
        left ++ (ws, Joined code (Some sd))
             :: Part000.broadcast ready (entered sd) (PeerJoined (Some sd))
                  (Some ws) /\
      room_of code (fst (Part000.join ready ws code st)) = Some (entered sd)
  | None =>
      snd (Part000.join ready ws code st) = left ++ [(ws, Error room_full)] /\
      room_of code (fst (Part000.join ready ws code st)) = Some target /\
      forall c, ~ member ws c (fst (Part000.join ready ws code st))
  end.
Proof.
  intros (Hwf & Hok & Hone) Hne Hroom0 Hmem target left gone entered.
  destruct (room_of_deref _ _ _ Hroom0) as (a0 & Hget0 & Ha0).
  pose proof (rooms_get_In _ _ _ Hget0) as Hin0.
  assert (Hlt0 : a0 < length (heap st)) by (destruct Hwf as (_ & _ & H); eauto).
  assert (Hclose : Part000.on_close ready ws st =
            (delete_if_empty old (evict ws r0) (write a0 (evict ws r0) st),
             left)).
  { unfold Part000.on_close.
    rewrite (leaveEverywhere_member ready ws old a0 st Hwf Hone Hin0)
      by (rewrite Ha0; exact Hmem).
    rewrite Ha0. reflexivity. }
  rewrite Hclose. cbn [fst snd].
  split; [reflexivity|].
  split; [apply room_of_after_leave; assumption|].
  (* the join: [getRoom], then the same leave *)
  pose proof (getRoom_spec code st Hwf Hok) as (W1 & R1 & _ & _).
  pose proof (getRoom_one_room_each code st Hwf Hok Hone) as O1.
  pose proof (rooms_get_getRoom code old a0 st Hget0) as Hget1.
  pose proof (deref_getRoom code a0 st Hlt0) as Hd1.
  pose proof (room_of_getRoom_target code st) as Htarget.
  fold target in Htarget.
  unfold Part000.join.
  destruct (getRoom code st) as [r st1]. cbn [fst snd] in *.
  pose proof (rooms_get_In _ _ _ Hget1) as Hin1.
  assert (Hlt1 : a0 < length (heap st1)) by (destruct W1 as (_ & _ & H); eauto).
  rewrite (leaveEverywhere_member ready ws old a0 st1 W1 O1 Hin1)
    by (rewrite Hd1, Ha0; exact Hmem).
  rewrite Hd1, Ha0. fold left.
  set (e := evict ws r0) in *.
  set (st2 := delete_if_empty old e (write a0 e st1)).
  assert (Hr_ne : r <> a0).
  { intros ->. apply Hne. eapply same_ref_same_code; eauto. }
  assert (Hdr : deref r st2 = target).
  { unfold st2. rewrite deref_delete_if_empty, deref_write_other by congruence.
    exact Htarget. }
  assert (W2 : store_wf st2).
  { apply store_wf_delete_if_empty, store_wf_write, W1. }
  assert (R2 : In (code, r) (rooms st2)).
  { apply rooms_delete_if_empty. split; [exact R1|].
    intros _ H. apply Hne. symmetry. exact H. }
  assert (Hgone : room_of old st2 = gone).
  { apply room_of_after_leave; assumption. }
  unfold Part000.chooseSide. rewrite Hdr.
  destruct (free_side target) as [sd|] eqn:Hside; cbn [fst snd].
  - split; [|split; [reflexivity|]].
    + rewrite (room_of_write code old r _ st2 W2 R2).
      destruct (jsstring_eq_dec old code); [tauto | exact Hgone].
    + rewrite (room_of_write code code r _ st2 W2 R2).
      destruct (jsstring_eq_dec code code); [reflexivity | tauto].
  - split; [exact Hgone|]. split; [reflexivity|]. split.
    + rewrite room_of_rooms_get, (In_rooms_get _ _ _ W2 R2), Hdr. reflexivity.
    + intros c Hc. apply member_iff in Hc as (b & Hgetb & Hb).
      pose proof (rooms_get_In _ _ _ Hgetb) as Hinb.
      unfold st2 in Hinb, Hb.
      apply rooms_delete_if_empty in Hinb as [Hinb Hkeep].
      rewrite deref_delete_if_empty in Hb.
      destruct (Nat.eq_dec b a0) as [->|Hnb].
      * rewrite deref_write_same in Hb by exact Hlt1.
        apply evict_members in Hb. tauto.
      * rewrite deref_write_other in Hb by congruence.
        apply Hnb. cbn [rooms write] in Hinb.
        assert (c = old) by (eapply O1; eauto; rewrite Hd1, Ha0; exact Hmem).
        subst c. apply In_rooms_get in Hinb; [|exact W1]. congruence.
Qed.

(** [server.js]: a join never touches another room and never sends
    [peer_left]. *)
Lemma rejoin_server (ready : readiness) (ws : conn) (old code : jsstring)
    (s : ServerJs.state) :
  store_wf (ServerJs.objects s) -> old <> code ->
  room_of old (ServerJs.objects (fst (ServerJs.join ready ws code s))) =
    room_of old (ServerJs.objects s) /\
  forall p c, ~ In (p, PeerLeft c) (snd (ServerJs.join ready ws code s)).
Proof.
  intros Hwf Hne. unfold ServerJs.join.
  pose proof (room_of_getRoom code old (ServerJs.objects s) Hwf Hne) as Hold.
  pose proof (store_wf_getRoom code (ServerJs.objects s) Hwf) as W1.
  pose proof (getRoom_registered code (ServerJs.objects s)) as R1.
  destruct (getRoom code (ServerJs.objects s)) as [a st1]. cbn [fst snd] in *.
  destruct (2 <=? length (clients (deref a st1)));
    cbn [fst snd ServerJs.objects].
  - split; [exact Hold|]. intros p c [H|[]]. discriminate.
  - split.
    + rewrite (room_of_write code old a _ st1 W1 R1).
      destruct (jsstring_eq_dec old code); [tauto | exact Hold].
    + intros p c [H|H]; [discriminate|].
      unfold ServerJs.send_if_open in H.
      destruct (ServerJs.otherClient _ ws) as [q|]; [|destruct H].
      destruct (ready q); [|destruct H].
      destruct H as [H|[]]. discriminate.
Qed.

(** ** A successful join *)

Lemma room_ok_two_members (ws p : conn) (r : room) :
  room_ok r -> In ws (clients r) -> In p (clients r) -> p <> ws ->
  clients r = [ws; p] \/ clients r = [p; ws].
Proof.
  intros H Hws Hp Hne.
  destruct H as [a s|a b s t Hab Hst]; simpl in *.
  - destruct Hws as [->|[]]. destruct Hp as [->|[]]. tauto.
  - destruct Hws as [->|[->|[]]]; destruct Hp as [->|[->|[]]]; tauto.
Qed.

Lemma relay_server_sends (ready : readiness) (ws : conn) (m : json)
    (s : ServerJs.state) (p : conn) (code : jsstring) (sd : slot) :
  ~ In (p, Joined code sd) (snd (ServerJs.relay ready ws m s)).
Proof.
  unfold ServerJs.relay.
  destruct (ServerJs.in_current_room ws (prop "room" m) s) as [c|];
    [|intros [H|[]]; discriminate].
  destruct (getRoom c (ServerJs.objects s)) as [a st1].
  assert (Hsend : forall peer x, x <> Joined code sd ->
            ~ In (p, Joined code sd) (ServerJs.send_if_open ready peer x)).
  { intros peer x Hx H. unfold ServerJs.send_if_open in H.
    destruct peer as [q|]; [|destruct H].
    destruct (ready q); [|destruct H].
    destruct H as [H|[]]. inversion H. congruence. }
  destruct (is_string "move" (prop "t" m)); [apply Hsend; discriminate|].
  destruct (is_string "reset" (prop "t" m)); [apply Hsend; discriminate|].
  intros [].
Qed.

Lemma relay_part000_sends (ready : readiness) (ws : conn) (c : jsstring)
    (msg : option slot -> outmsg) (st : store) (p : conn) (x : outmsg) :
  In (p, x) (Part000.relay ready ws c msg st) -> exists from, x = msg from.
Proof.
  unfold Part000.relay. destruct (rooms_get c st) as [a|]; [|intros []].
  destruct (negb (Set_has Nat.eq_dec ws (clients (deref a st)))); [intros []|].
  intros H. apply broadcast_sends in H as (-> & _). eauto.
Qed.

Lemma on_message_other_part000 (ready : readiness) (ws : conn) (m : json)
    (st st' : store) (out : list send) (p : conn) (code : jsstring)
    (sd : slot) :
  is_string "join" (prop "t" m) = false ->
  Part000.on_message ready ws (Parsed m) st = Some (st', out) ->
  ~ In (p, Joined code sd) out.
Proof.
  intros Ht. unfold Part000.on_message. rewrite Ht.
  destruct (negb (truthy (prop "t" m)));
    [intros H; inversion H; subst; intros []|].
  destruct (is_string "move" (prop "t" m)).
  - destruct (Part000.room_code m) as [c|]; [|discriminate].
    intros H Hin. inversion H; subst.
    apply relay_part000_sends in Hin as [from E]. discriminate.
  - destruct (is_string "reset" (prop "t" m)).
    + destruct (Part000.room_code m) as [c|]; [|discriminate].
      intros H Hin. inversion H; subst.
      apply relay_part000_sends in Hin as [from E]. discriminate.
    + intros H; inversion H; subst; intros [].
Qed.

(** ** Where [part_000] goes wrong *)

(** The sweep of [part_000] stops at the first connection whose flag is
    false: the connections before it are pinged, it is terminated, and the
    connections after it are left as they were. *)
Lemma sweep_part000_stops (before after : tracked) (ws : conn) :
  Forall (fun e => snd e = true) before ->
  Part000.sweep (before ++ (ws, false) :: after) =
  (map (fun e => (fst e, false)) before ++ (ws, false) :: after,
   map (fun e => Ping (fst e)) before ++ [Terminate ws]).
Proof.
  induction 1 as [|[w a] before Ha _ IH]; simpl; [reflexivity|].
  simpl in Ha. subst a. simpl. rewrite IH. reflexivity.
Qed.

(** In [part_000], the one member of a room that sends [join] for that
    room is told [joined] with side X, and the room is gone from the
    registry: the connection is a member of no registered room. *)
Lemma rejoin_alone_part000 (ready : readiness) (ws : conn) (code : jsstring)
    (r : room) (st : store) :
  inv_part000 st -> room_of code st = Some r -> clients r = [ws] ->
  snd (Part000.join ready ws code st) = [(ws, Joined code (Some X))] /\
  room_of code (fst (Part000.join ready ws code st)) = None /\
  forall c, ~ member ws c (fst (Part000.join ready ws code st)).
Proof.
  intros (Hwf & Hok & Hone) Hroom Halone.
  destruct (room_of_deref _ _ _ Hroom) as (a & Hget & Ha).
  pose proof (rooms_get_In _ _ _ Hget) as Hin.
  assert (Hlt : a < length (heap st)) by (destruct Hwf as (_ & _ & H); eauto).
  assert (Hr : room_ok r) by (rewrite <- Ha; eauto).
  assert (Hmem : In ws (clients r)) by (rewrite Halone; left; reflexivity).
  assert (Ev : evict ws r = new_room).
  { destruct (evict_ok ws r Hr Hmem) as [[_ E]|[E _]]; [exact E|].
    rewrite Halone in E. discriminate. }
  assert (K : rooms_ok0 st) by (intros c b H; left; eauto).
  pose proof (leaveEverywhere_rooms ready ws st Hwf Hone K) as Hrooms.
  pose proof (leaveEverywhere_spec ready ws st Hwf Hone K) as (W2 & _ & _ & _).
  revert Hrooms W2.
  unfold Part000.join. rewrite (getRoom_present _ _ _ Hget).
  rewrite (leaveEverywhere_member ready ws code a st Hwf Hone Hin)
    by (rewrite Ha; exact Hmem).
  rewrite Ha, Ev. cbn [fst snd].
  change (delete_if_empty code new_room (write a new_room st))
    with (rooms_delete code (write a new_room st)).
  set (st2 := rooms_delete code (write a new_room st)).
  intros Hrooms W2.
  assert (Hd : deref a st2 = new_room) by (apply deref_write_same; exact Hlt).
  unfold Part000.chooseSide. rewrite Hd. cbn [free_side fst snd].
  change (free_side new_room) with (Some X). cbv iota. cbn [fst snd].
  assert (Hgone : forall b, ~ In (code, b) (rooms st2)).
  { intros b H. apply Map_delete_In in H as [H _]. apply H. reflexivity. }
  split; [|split].
  - unfold Part000.broadcast, set_side, add_client, Part000.is_not. simpl.
    destruct (Nat.eq_dec ws ws); [|tauto].
    rewrite andb_false_r. reflexivity.
  - rewrite room_of_rooms_get.
    change (rooms_get code (write a _ st2)) with (rooms_get code st2).
    destruct (rooms_get code st2) as [b|] eqn:E; [|reflexivity].
    exfalso. apply (Hgone b). apply rooms_get_In. exact E.
  - intros c Hc. apply member_iff in Hc as (b & Hb & Hmb).
    change (rooms_get c (write a _ st2)) with (rooms_get c st2) in Hb.
    pose proof (rooms_get_In _ _ _ Hb) as Hinb.
    assert (Hne : b <> a).
    { intros ->. apply (Hgone a).
      assert (c = code); [|subst c; exact Hinb].
      apply Map_delete_In in Hinb as [_ Hinb].
      apply (same_ref_same_code st c code a Hwf); [exact Hinb | exact Hin]. }
    rewrite deref_write_other in Hmb by congruence.
    destruct (Hrooms c b Hinb) as (_ & _ & Hno & _). apply Hno. exact Hmb.
Qed.

(** ** The example runs are runs of the servers *)

Lemma solo_abc_reachable : Part000.reachable solo_abc.
Proof.
  apply (Part000.reach_message empty_store all_open 1 (msg_join (JStr abc))
           solo_abc [(1, Joined abc (Some X))]);
    [apply Part000.reach_init | reflexivity].
Qed.

Lemma pair_abc_reachable : Part000.reachable pair_abc.
Proof.
  apply (Part000.reach_message solo_abc all_open 2 (msg_join (JStr abc))
           pair_abc [(2, Joined abc (Some O)); (1, PeerJoined (Some O))]);
    [apply solo_abc_reachable | reflexivity].
Qed.

Lemma pair_abc_solo_xyz_reachable : Part000.reachable pair_abc_solo_xyz.
Proof.
  apply (Part000.reach_message pair_abc all_open 3 (msg_join (JStr xyz))
           pair_abc_solo_xyz [(3, Joined xyz (Some X))]);
    [apply pair_abc_reachable | reflexivity].
Qed.

Lemma server_pair_abc_reachable : ServerJs.reachable server_pair_abc [].
Proof.
  apply (ServerJs.reach_message
           {| ServerJs.objects := solo_abc;
              ServerJs.currentRoom := [(1, abc)] |}
           [] all_open 2 (msg_join (JStr abc)) server_pair_abc
           [(2, Joined abc (Some O)); (1, PeerJoined (Some O))]);
    [|simpl; tauto | reflexivity].
  apply (ServerJs.reach_message ServerJs.init [] all_open 1
           (msg_join (JStr abc)) _ [(1, Joined abc (Some X))]);
    [apply ServerJs.reach_init | simpl; tauto | reflexivity].
Qed.

Lemma server_pair_abc_then_xyz_reachable :
  ServerJs.reachable server_pair_abc_then_xyz [].
Proof.
  apply (ServerJs.reach_message server_pair_abc [] all_open 1
           (msg_join (JStr xyz)) _ [(1, Joined xyz (Some X))]);
    [apply server_pair_abc_reachable | simpl; tauto | reflexivity].
Qed.

(** ** The payload as [JSON.stringify] writes it *)

Lemma stringified_all_finite :
  forall v, all_finite v = true -> stringified v = v.
Proof.
  fix IH 1. intros [|b|n|str|items|fields]; simpl; intros H;
    try reflexivity.
  - rewrite H. reflexivity.
  - f_equal. induction items as [|x xs IHxs]; simpl in *; [reflexivity|].
    apply andb_true_iff in H as [Hx Hxs].
    rewrite (IH x Hx), (IHxs Hxs). reflexivity.
  - f_equal. induction fields as [|[k x] xs IHxs]; simpl in *;
      [reflexivity|].
    apply andb_true_iff in H as [Hx Hxs].
    rewrite (IH x Hx), (IHxs Hxs). reflexivity.
Qed.

(** ** The one run of the close handler *)




(** ** The outcome of a join in [server.js] *)

Lemma join_outcome_server (ready : readiness) (ws : conn) (code : jsstring)
    (s : ServerJs.state) :
  store_wf (ServerJs.objects s) ->
  let target := match room_of code (ServerJs.objects s) with
                | Some r => r
                | None => new_room
                end in
  if 2 <=? length (clients target)
  then ServerJs.join ready ws code s = (s, [(ws, Error room_full)])
  else room_of code (ServerJs.objects (fst (ServerJs.join ready ws code s))) =
         Some (set_side ws (free_side target) (add_client ws target)) /\
       ServerJs.currentRoom (fst (ServerJs.join ready ws code s)) =
         Map_set Nat.eq_dec ws code (ServerJs.currentRoom s) /\
       In (ws, Joined code (free_side target))
          (snd (ServerJs.join ready ws code s)).
Proof.
  intros Hwf. rewrite room_of_rooms_get.
  destruct (rooms_get code (ServerJs.objects s)) as [a|] eqn:Ea; cbv zeta.
  - destruct (2 <=? length (clients (deref a (ServerJs.objects s))))
      eqn:Efull.
    + apply Nat.leb_le in Efull. apply (join_full_server _ _ _ _ a Ea Efull).
    + unfold ServerJs.join. rewrite (getRoom_present _ _ _ Ea), Efull.
      cbn [fst snd ServerJs.objects ServerJs.currentRoom].
      rewrite (room_of_write code code a _ _ Hwf (rooms_get_In _ _ _ Ea)).
      destruct (jsstring_eq_dec code code); [|tauto].
      unfold ServerJs.assignSide. rewrite free_side_add_client.
      repeat split. left. reflexivity.
  - simpl (2 <=? _). cbv iota.
    unfold ServerJs.join. rewrite (getRoom_absent _ _ Ea).
    assert (Hd : forall rs,
              deref (length (heap (ServerJs.objects s)))
                {| heap := heap (ServerJs.objects s) ++ [new_room];
                   rooms := rs |} = new_room)
      by (intros rs; apply nth_middle).
    rewrite Hd. simpl (2 <=? _). cbv iota.
    cbn [fst snd ServerJs.objects ServerJs.currentRoom].
    rewrite (room_of_write code code _ _ _ (store_wf_grow code _ Hwf Ea));
      [|apply in_or_app; right; left; reflexivity].
    destruct (jsstring_eq_dec code code); [|tauto].
    repeat split. left. reflexivity.
Qed.

(** * The claims *)

(** ** C1: the room invariant *)

(** C1. In every state either server reaches, whatever the operations that
    led to it ([join], [move], [reset], close, error), every registered room
    has at most two members, a role assignment with exactly one side per
    member and none for anyone else, no side shared by two members, and at
    least one member. *)
Theorem registry_invariant (s : ServerJs.state) (closed : list conn)
    (st : store) :
  (ServerJs.reachable s closed -> registry_inv (ServerJs.objects s)) /\
  (Part000.reachable st -> registry_inv st).
Proof.
  split; intros H.
  - apply rooms_ok_registry_inv. apply (reachable_inv_server s closed H).
  - apply rooms_ok_registry_inv. apply (reachable_inv_part000 st H).
Qed.

Lemma registry_invariant_witness :
  registry_inv (ServerJs.objects server_pair_abc_then_xyz) /\
  registry_inv pair_abc_solo_xyz.
Proof.
  split.
  - apply (proj1 (registry_invariant server_pair_abc_then_xyz []
                    empty_store)).
    apply server_pair_abc_then_xyz_reachable.
  - apply (proj2 (registry_invariant ServerJs.init [] pair_abc_solo_xyz)).
    apply pair_abc_solo_xyz_reachable.
Defined.

(** ** C2: a join to a full room *)

(** C2, as the code has it. A [join] for a room whose two sides are taken
    is answered with [error(room_full)] and leaves the target room as it
    was. In [server.js] nothing else changes either. In [part_000] the
    sender has left its former room before the check, exactly as on close
    (so the registry is unchanged when it was in no room); the case of a
    sender that is itself one of the two members is left out. *)
Theorem join_full_room (ready : readiness) (ws : conn) (code : jsstring)
    (r : room) (m : json) (s : ServerJs.state) (closed : list conn)
    (st : store) :
  is_string "join" (prop "t" m) = true -> code <> [] ->
  free_side r = None ->
  (ServerJs.reachable s closed -> prop "room" m = Some (JStr code) ->
   room_of code (ServerJs.objects s) = Some r ->
   ServerJs.on_message ready ws (Parsed m) s =
   Some (s, [(ws, Error room_full)])) /\
  (Part000.reachable st -> Part000.room_code m = Some code ->
   room_of code st = Some r -> ~ In ws (clients r) ->
   Part000.on_message ready ws (Parsed m) st =
   Some (fst (Part000.on_close ready ws st),
         snd (Part000.on_close ready ws st) ++ [(ws, Error room_full)]) /\
   room_of code (fst (Part000.on_close ready ws st)) = Some r /\
   ((forall c, ~ member ws c st) -> Part000.on_close ready ws st = (st, []))).
Proof.
  intros Hjoin Hcode Hfree. split.
  - intros Hreach Hroom Hr.
    rewrite on_message_join_server by exact Hjoin. rewrite Hroom.
    destruct code as [|c cs]; [tauto|].
    destruct (room_of_deref _ _ _ Hr) as (a & Hget & Ha).
    destruct (reachable_inv_server s closed Hreach) as (_ & Hok & _).
    rewrite (join_full_server ready ws (c :: cs) s a Hget); [reflexivity|].
    rewrite Ha.
    assert (Hlen : length (clients r) = 2).
    { apply free_side_None; [|exact Hfree].
      rewrite <- Ha. apply Hok with (c :: cs). apply rooms_get_In. exact Hget. }
    lia.
  - intros Hreach Hroom Hr Hout.
    pose proof (reachable_inv_part000 st Hreach) as Hinv.
    rewrite on_message_join_part000 by exact Hjoin. rewrite Hroom.
    destruct code as [|c cs]; [tauto|].
    destruct (join_full_part000 ready ws (c :: cs) r st Hinv Hr Hfree Hout)
      as (E1 & E2).
    rewrite E1. split; [reflexivity|]. split; [exact E2|].
    intros Hnone. apply leaveEverywhere_absent.
    intros c' a Hin Hmem. apply (Hnone c'). apply member_iff.
    exists a. split; [|exact Hmem].
    apply In_rooms_get; [apply Hinv | exact Hin].
Qed.

Lemma join_full_room_witness :
  ServerJs.on_message all_open 3 (msg_join (JStr abc)) server_pair_abc
  = Some (server_pair_abc, [(3, Error room_full)]) /\
  Part000.on_message all_open 3 (msg_join (JStr abc)) pair_abc
  = Some (fst (Part000.on_close all_open 3 pair_abc),
          snd (Part000.on_close all_open 3 pair_abc)
            ++ [(3, Error room_full)]).
Proof.
  assert (Hcode : abc <> []) by discriminate.
  pose proof (join_full_room all_open 3 abc room_1_2
                (msg_join_body (JStr abc)) server_pair_abc [] pair_abc
                eq_refl Hcode eq_refl) as [Hs Hp].
  split.
  - apply Hs; [apply server_pair_abc_reachable | reflexivity | reflexivity].
  - apply Hp; [apply pair_abc_reachable | reflexivity | reflexivity|].
    simpl. lia.
Defined.

(** C2 as the specification states it fails on [part_000]: connection 3,
    alone in "xyz", sends [join] for "abc", where both sides are taken. It
    is answered with [error(room_full)], and room "xyz" is gone from the
    registry. *)
Lemma full_join_leaves_former_room :
  Part000.reachable pair_abc_solo_xyz /\
  room_of abc pair_abc_solo_xyz = Some room_1_2 /\
  free_side room_1_2 = None /\
  room_of xyz pair_abc_solo_xyz = Some (room_solo 3) /\
  Part000.on_message all_open 3 (msg_join (JStr abc)) pair_abc_solo_xyz
  = Some ({| heap := [room_1_2; new_room]; rooms := [(abc, 0)] |},
          [(3, Error room_full)]) /\
  room_of xyz {| heap := [room_1_2; new_room]; rooms := [(abc, 0)] |} = None.
Proof.
  split; [apply pair_abc_solo_xyz_reachable|].
  repeat split; reflexivity.
Qed.

(** ** C3: a successful join *)

(** C3 on [part_000], at the failing input: connection 1, alone in "abc",
    sends [join] for "abc" again. [getRoom] returns its room, then
    [leaveEverywhere] empties that room and deletes it from [rooms], and
    the connection is added to the object no longer registered: it is
    told [joined] with side X while the registry has no room "abc". In
    [server.js] the same request leaves it registered, with side O. *)
Lemma rejoin_own_room_detaches :
  Part000.on_message all_open 1 (msg_join (JStr abc)) solo_abc
  = Some ({| heap := [room_solo 1]; rooms := [] |},
          [(1, Joined abc (Some X))]) /\
  room_of abc {| heap := [room_solo 1]; rooms := [] |} = None /\
  ServerJs.on_message all_open 1 (msg_join (JStr abc))
    {| ServerJs.objects := solo_abc; ServerJs.currentRoom := [(1, abc)] |}
  = Some ({| ServerJs.objects :=
               {| heap := [{| clients := [1]; sides := [(1, Some O)] |}];
                  rooms := [(abc, 0)] |};
             ServerJs.currentRoom := [(1, abc)] |},
          [(1, Joined abc (Some O))]).
Proof. repeat split; reflexivity. Qed.

(** ** C4: joining another room *)

(** C4, as the code has it. A member of room [old] sends [join] for
    another room [code]. In [part_000] it first leaves [old] as on close:
    the open members that remain are sent [peer_left], the connection is
    out of the member set and of the role assignment, and [old] is deleted
    when that empties it; then, if [code] has a free side, the connection
    is registered in [code] with that side and told [joined], and if both
    sides are taken it is told [room_full] and is a member of no room. In
    [server.js] there is no leave: the room [old] stays as it was, the
    connection still a member, and no [peer_left] is sent; if [code] has
    fewer than two members, the connection is registered in [code] as well,
    with the side [assignSide] finds free, its [currentRoom] becomes
    [code], and it is told [joined]; if [code] has two members it is told
    [room_full] and nothing changes. *)
Theorem rejoin_other_room (ready : readiness) (ws : conn)
    (old code : jsstring) (r0 : room) (m : json) (s : ServerJs.state)
    (closed : list conn) (st : store) :
  is_string "join" (prop "t" m) = true -> code <> [] -> old <> code ->
  In ws (clients r0) ->
  (Part000.reachable st -> room_of old st = Some r0 ->
   Part000.room_code m = Some code ->
   let target :=
     match room_of code st with Some r => r | None => new_room end in
   let left :=
     Part000.broadcast ready (evict ws r0) (PeerLeft (Some old)) None in
   let gone :=
     match clients (evict ws r0) with
     | [] => None
     | _ => Some (evict ws r0)
     end in
   let entered sd := set_side ws (Some sd) (add_client ws target) in
   snd (Part000.on_close ready ws st) = left /\
   room_of old (fst (Part000.on_close ready ws st)) = gone /\
   exists st' out,
     Part000.on_message ready ws (Parsed m) st = Some (st', left ++ out) /\
     room_of old st' = gone /\
     match free_side target with
     | Some sd =>
         out = (ws, Joined code (Some sd))
               :: Part000.broadcast ready (entered sd) (PeerJoined (Some sd))
                    (Some ws) /\
         room_of code st' = Some (entered sd)
     | None =>
         out = [(ws, Error room_full)] /\
         room_of code st' = Some target /\
         forall c, ~ member ws c st'
     end) /\
  (ServerJs.reachable s closed -> room_of old (ServerJs.objects s) = Some r0 ->
   prop "room" m = Some (JStr code) ->
   let target :=
     match room_of code (ServerJs.objects s) with
     | Some r => r
     | None => new_room
     end in
   exists s' out,
     ServerJs.on_message ready ws (Parsed m) s = Some (s', out) /\
     room_of old (ServerJs.objects s') = Some r0 /\
     (forall p c, ~ In (p, PeerLeft c) out) /\
     if 2 <=? length (clients target)
     then s' = s /\ out = [(ws, Error room_full)]
     else exists sd,
         free_side target = Some sd /\
         room_of code (ServerJs.objects s') =
           Some (set_side ws (Some sd) (add_client ws target)) /\
         ServerJs.currentRoom s' =
           Map_set Nat.eq_dec ws code (ServerJs.currentRoom s) /\
         In (ws, Joined code (Some sd)) out).
Proof.
  intros Hjoin Hcode Hne Hmem. split.
  - intros Hreach Hroom Hfield target left gone entered.
    pose proof (reachable_inv_part000 st Hreach) as Hinv.
    destruct (rejoin_part000 ready ws old code r0 st Hinv Hne Hroom Hmem)
      as (H1 & H2 & H3 & H4).
    fold target left gone entered in H1, H2, H3, H4.
    split; [exact H1|]. split; [exact H2|].
    rewrite on_message_join_part000 by exact Hjoin. rewrite Hfield.
    destruct code as [|c cs]; [tauto|].
    destruct (Part000.join ready ws (c :: cs) st) as [st' out'].
    cbn [fst snd] in *.
    destruct (free_side target) as [sd|].
    + destruct H4 as (H4 & H5). rewrite H4.
      eexists _, _. split; [reflexivity|]. auto.
    + destruct H4 as (H4 & H5 & H6). rewrite H4.
      eexists _, _. split; [reflexivity|]. auto.
  - intros Hreach Hroom Hfield target.
    destruct (reachable_inv_server s closed Hreach) as (Hwf & Hok & _).
    rewrite on_message_join_server by exact Hjoin. rewrite Hfield.
    destruct code as [|c cs]; [tauto|].
    destruct (rejoin_server ready ws old (c :: cs) s Hwf Hne) as (H1 & H2).
    pose proof (join_outcome_server ready ws (c :: cs) s Hwf) as H3.
    cbv zeta in H3. fold target in H3.
    assert (Hfree : length (clients target) < 2 ->
                    exists sd, free_side target = Some sd).
    { unfold target. destruct (room_of (c :: cs) (ServerJs.objects s))
        as [r|] eqn:Er.
      - apply free_side_one. apply room_of_deref in Er as (a & Ha & <-).
        apply (Hok (c :: cs) a). apply rooms_get_In. exact Ha.
      - intros _. exists X. reflexivity. }
    destruct (ServerJs.join ready ws (c :: cs) s) as [s' out].
    cbn [fst snd] in *.
    exists s', out. split; [reflexivity|].
    split; [rewrite H1; exact Hroom|]. split; [exact H2|].
    destruct (2 <=? length (clients target)) eqn:Efull.
    + inversion H3. auto.
    + apply Nat.leb_gt in Efull. destruct (Hfree Efull) as [sd Hsd].
      rewrite Hsd in H3. exists sd. tauto.
Qed.

Lemma rejoin_other_room_witness :
  (exists st' out,
     Part000.on_message all_open 1 (msg_join (JStr xyz)) pair_abc
     = Some (st', [(2, PeerLeft (Some abc))] ++ out) /\
     room_of abc st' = Some {| clients := [2]; sides := [(2, Some O)] |}) /\
  (exists s' out,
     ServerJs.on_message all_open 1 (msg_join (JStr xyz)) server_pair_abc
     = Some (s', out) /\
     room_of abc (ServerJs.objects s') = Some room_1_2).
Proof.
  assert (Hcode : xyz <> []) by discriminate.
  assert (Hne : abc <> xyz) by discriminate.
  assert (Hmem : In 1 (clients room_1_2)) by (left; reflexivity).
  pose proof (rejoin_other_room all_open 1 abc xyz room_1_2
                (msg_join_body (JStr xyz)) server_pair_abc [] pair_abc
                eq_refl Hcode Hne Hmem) as [Hp Hs].
  split.
  - destruct (Hp pair_abc_reachable eq_refl eq_refl)
      as (_ & _ & st' & out & E & Hgone & _).
    exists st', out. split; [exact E | exact Hgone].
  - destruct (Hs server_pair_abc_reachable eq_refl eq_refl)
      as (s' & out & E & Hold & _).
    exists s', out. split; [exact E | exact Hold].
Defined.

(** C4 as the specification states it fails on [server.js]: connection 1,
    a member of "abc" with connection 2, sends [join] for "xyz". It is
    told [joined]; connection 2 receives nothing, and room "abc" still has
    connection 1 as a member. *)
Lemma rejoin_keeps_former_room :
  ServerJs.reachable server_pair_abc [] /\
  room_of abc (ServerJs.objects server_pair_abc) = Some room_1_2 /\
  ServerJs.on_message all_open 1 (msg_join (JStr xyz)) server_pair_abc
  = Some (server_pair_abc_then_xyz, [(1, Joined xyz (Some X))]) /\
  room_of abc (ServerJs.objects server_pair_abc_then_xyz) = Some room_1_2.
Proof.
  split; [apply server_pair_abc_reachable|]. repeat split; reflexivity.
Qed.

(** ** C5: closing twice *)




(** ** C6: a move goes to the other member *)

(** C6, as the code has it. In a room with two members, a [move] of the
    member whose side is X reaches the other member, and nobody else, as
    [{t:'move', from:'X', data}], provided the other member's connection is
    open; otherwise it is dropped. The data is that of the request as
    [JSON.stringify] writes it: the data itself when every number in it is
    finite, and with [null] for a number that is not. [part_000] takes the
    room from the trimmed [room] field. [server.js] requires the [room]
    field to be the code itself and the sender's [currentRoom]: when the
    field is the code and [currentRoom] is not, the sender is answered
    [not_joined] and the other member receives nothing. *)
Theorem move_round_trip (ready : readiness) (ws peer : conn)
    (code : jsstring) (r : room) (m : json) (s : ServerJs.state)
    (st : store) :
  is_string "move" (prop "t" m) = true ->
  clients r = [ws; peer] \/ clients r = [peer; ws] -> ws <> peer ->
  role_of r ws = Some (Some X) ->
  (room_of code st = Some r -> Part000.room_code m = Some code ->
   Part000.on_message ready ws (Parsed m) st =
   Some (st, if ready peer
             then [(peer, Move (Some (Some X))
                            (stringified_field (prop "data" m)))]
             else [])) /\
  (room_of code (ServerJs.objects s) = Some r ->
   prop "room" m = Some (JStr code) -> code <> [] ->
   (Map_get Nat.eq_dec ws (ServerJs.currentRoom s) = Some code ->
    ServerJs.on_message ready ws (Parsed m) s =
    Some (s, if ready peer
             then [(peer, Move (Some (Some X))
                            (stringified_field (prop "data" m)))]
             else [])) /\
   (Map_get Nat.eq_dec ws (ServerJs.currentRoom s) <> Some code ->
    ServerJs.on_message ready ws (Parsed m) s =
    Some (s, [(ws, Error not_joined)]))) /\
  (forall P, prop "data" m = Some P -> all_finite P = true ->
     stringified_field (prop "data" m) = Some P).
Proof.
  intros Hmove Hr Hne Hrole. split; [|split].
  - intros Hroom Hcode.
    rewrite on_message_move_part000 by exact Hmove. rewrite Hcode.
    destruct (room_of_deref _ _ _ Hroom) as (a & Hget & Ha).
    unfold Part000.relay. rewrite Hget, Ha.
    assert (Hin : Set_has Nat.eq_dec ws (clients r) = true).
    { apply Set_has_In. destruct Hr as [E|E]; rewrite E; simpl; auto. }
    rewrite Hin. simpl. unfold role_of in Hrole. rewrite Hrole.
    rewrite (broadcast_two ready ws peer r _ Hr Hne). reflexivity.
  - intros Hroom Hfield Hcode.
    rewrite on_message_relay_server by (left; exact Hmove).
    unfold ServerJs.relay. split; intros Hcur.
    + assert (E : ServerJs.in_current_room ws (prop "room" m) s = Some code).
      { apply in_current_room_spec. auto. }
      rewrite E.
      destruct (room_of_deref _ _ _ Hroom) as (a & Hget & Ha).
      rewrite (getRoom_present _ _ _ Hget), state_eta, Hmove, Ha.
      rewrite (otherClient_two ws peer r Hr Hne).
      unfold ServerJs.sideFor. unfold role_of in Hrole. rewrite Hrole.
      reflexivity.
    + destruct (ServerJs.in_current_room ws (prop "room" m) s) as [c|] eqn:E;
        [|reflexivity].
      apply in_current_room_spec in E as (E1 & _ & E2).
      exfalso. apply Hcur. congruence.
  - intros P HP Hfin. rewrite HP. simpl.
    rewrite (stringified_all_finite P Hfin). reflexivity.
Qed.

Lemma move_round_trip_witness :
  Part000.on_message all_open 1 (msg_move (JStr abc) payload_x1) pair_abc
  = Some (pair_abc, [(2, Move (Some (Some X)) (Some payload_x1))]) /\
  ServerJs.on_message all_open 1 (msg_move (JStr abc) payload_x1)
    server_pair_abc
  = Some (server_pair_abc, [(2, Move (Some (Some X)) (Some payload_x1))]).
Proof.
  assert (Hne : 1 <> 2) by lia.
  assert (Hcode : abc <> []) by discriminate.
  pose proof (move_round_trip all_open 1 2 abc room_1_2
                (msg_move_body (JStr abc) payload_x1) server_pair_abc
                pair_abc eq_refl (or_introl eq_refl) Hne eq_refl)
    as (Hp & Hs & _).
  split.
  - apply Hp; reflexivity.
  - apply (proj1 (Hs eq_refl eq_refl Hcode)). reflexivity.
Defined.

(** C6 as the specification states it fails, in three ways. On
    [server.js]: room "abc" has the two members 1 (side X) and 2 (side O),
    and connection 1 has since joined "xyz", so its [currentRoom] is "xyz";
    its [move] for "abc" is answered with [error(not_joined)] and
    connection 2 receives nothing. On both files: the payload [1e999],
    parsed to [Infinity], reaches connection 2 as [null]; and a payload
    sent while the connection of 2 is not open reaches nobody. *)
Lemma move_not_delivered_as_sent :
  (ServerJs.reachable server_pair_abc_then_xyz [] /\
   room_of abc (ServerJs.objects server_pair_abc_then_xyz) = Some room_1_2 /\
   role_of room_1_2 1 = Some (Some X) /\
   role_of room_1_2 2 = Some (Some O) /\
   ServerJs.on_message all_open 1 (msg_move (JStr abc) payload_x1)
     server_pair_abc_then_xyz
   = Some (server_pair_abc_then_xyz, [(1, Error not_joined)])) /\
  (Part000.reachable pair_abc /\
   ServerJs.reachable server_pair_abc [] /\
   Part000.on_message all_open 1 (msg_move (JStr abc) infinity) pair_abc
   = Some (pair_abc, [(2, Move (Some (Some X)) (Some JNull))]) /\
   ServerJs.on_message all_open 1 (msg_move (JStr abc) infinity)
     server_pair_abc
   = Some (server_pair_abc, [(2, Move (Some (Some X)) (Some JNull))])) /\
  (Part000.on_message (all_open_but 2) 1 (msg_move (JStr abc) payload_x1)
     pair_abc
   = Some (pair_abc, []) /\
   ServerJs.on_message (all_open_but 2) 1 (msg_move (JStr abc) payload_x1)
     server_pair_abc
   = Some (server_pair_abc, [])).
Proof.
  split; [|split].
  - split; [apply server_pair_abc_then_xyz_reachable|].
    repeat split; reflexivity.
  - split; [apply pair_abc_reachable|].
    split; [apply server_pair_abc_reachable|]. split; reflexivity.
  - split; reflexivity.
Qed.

(** ** C7: a sender that is not a member *)

(** C7, as the code has it. A [move] or [reset] whose sender is not a
    member of the room it names, by the registry: [part_000] sends nothing
    to anyone and changes nothing; [server.js], which compares the room
    with the connection's [currentRoom], answers the sender with
    [error(not_joined)], relays nothing and changes nothing. *)
Theorem stale_sender (ready : readiness) (ws : conn) (m : json)
    (s : ServerJs.state) (closed : list conn) (st : store) :
  relayed m ->
  (forall code,
     Part000.room_code m = Some code -> ~ member ws code st ->
     Part000.on_message ready ws (Parsed m) st = Some (st, [])) /\
  (ServerJs.reachable s closed -> ~ In ws closed ->
   (forall code,
      prop "room" m = Some (JStr code) ->
      ~ member ws code (ServerJs.objects s)) ->
   ServerJs.on_message ready ws (Parsed m) s =
   Some (s, [(ws, Error not_joined)])).
Proof.
  intros Hm. split.
  - intros code Hcode Hstale.
    destruct Hm as [H|H];
      [rewrite on_message_move_part000 by exact H
      |rewrite on_message_reset_part000 by exact H];
      rewrite Hcode, relay_stale_part000 by exact Hstale; reflexivity.
  - intros Hreach Hopen Hstale.
    rewrite on_message_relay_server by exact Hm.
    unfold ServerJs.relay.
    destruct (ServerJs.in_current_room ws (prop "room" m) s) as [c|] eqn:E;
      [|reflexivity].
    exfalso. apply in_current_room_spec in E as (Hroom & _ & Hcur).
    apply (Hstale c Hroom). apply member_iff.
    destruct (reachable_inv_server s closed Hreach) as (_ & _ & Hok).
    destruct (Hok _ _ Hopen Hcur) as (_ & a & Hget & Hin). eauto.
Qed.

Lemma stale_sender_witness :
  Part000.on_message all_open 3 (msg_move (JStr abc) payload_x1) pair_abc
  = Some (pair_abc, []) /\
  ServerJs.on_message all_open 3 (msg_move (JStr abc) payload_x1)
    server_pair_abc
  = Some (server_pair_abc, [(3, Error not_joined)]).
Proof.
  assert (Hm : relayed (msg_move_body (JStr abc) payload_x1))
    by (left; reflexivity).
  split.
  - apply (proj1 (stale_sender all_open 3 _ ServerJs.init [] pair_abc Hm)
             abc); [reflexivity|].
    intros (r & E & Hin). inversion E; subst. simpl in Hin. lia.
  - apply (proj2 (stale_sender all_open 3 _ server_pair_abc [] empty_store
                    Hm)).
    + apply server_pair_abc_reachable.
    + simpl. tauto.
    + intros code E (r & Er & Hin). inversion E; subst code.
      inversion Er; subst. simpl in Hin. lia.
Defined.

(** C7 as the specification states it fails on [server.js]: a connection
    that never joined sends [move] for "abc" and is answered with
    [error(not_joined)]. *)
Lemma stale_sender_gets_reply :
  ServerJs.reachable ServerJs.init [] /\
  ~ member 1 abc (ServerJs.objects ServerJs.init) /\
  ServerJs.on_message all_open 1 (msg_move (JStr abc) payload_x1) ServerJs.init
  = Some (ServerJs.init, [(1, Error not_joined)]).
Proof.
  split; [apply ServerJs.reach_init|]. split; [|reflexivity].
  intros (r & E & _). discriminate.
Qed.

(** ** C8: the check of the room code *)

(** C8, as the code has it. [server.js] answers a [join] with
    [error(missing_room)] exactly when the [room] field is not a non-empty
    string, without trimming it, and otherwise joins the room named by the
    field as it is. [part_000] converts the field with [String(room || '')]
    and trims the result: it answers [error(missing_room)] exactly when
    that text is empty, and otherwise joins the room named by the trimmed
    text; for a field that is a string the text is the field itself; when
    the conversion throws, the handler is left without an answer. The
    answer [error(missing_room)] comes with an unchanged state, and a join
    that proceeds never sends it. *)
Theorem join_room_check (ready : readiness) (ws : conn) (m : json)
    (s : ServerJs.state) (st : store) :
  is_string "join" (prop "t" m) = true ->
  ((exists c cs,
      prop "room" m = Some (JStr (c :: cs)) /\
      ServerJs.on_message ready ws (Parsed m) s =
      Some (ServerJs.join ready ws (c :: cs) s) /\
      forall p, ~ In (p, Error missing_room)
                     (snd (ServerJs.join ready ws (c :: cs) s)))
   \/
   ((forall c cs, prop "room" m <> Some (JStr (c :: cs))) /\
    ServerJs.on_message ready ws (Parsed m) s =
    Some (s, [(ws, Error missing_room)])))
  /\
  match js_String (or_empty (prop "room" m)) with
  | None => Part000.on_message ready ws (Parsed m) st = None
  | Some text =>
      (trim text = [] /\
       Part000.on_message ready ws (Parsed m) st =
       Some (st, [(ws, Error missing_room)]))
      \/
      (trim text <> [] /\
       Part000.on_message ready ws (Parsed m) st =
       Some (Part000.join ready ws (trim text) st) /\
       forall p, ~ In (p, Error missing_room)
                      (snd (Part000.join ready ws (trim text) st)))
  end
  /\
  (forall text, prop "room" m = Some (JStr text) ->
     js_String (or_empty (prop "room" m)) = Some text).
Proof.
  intros Hjoin. split; [|split].
  - rewrite on_message_join_server by exact Hjoin.
    destruct (prop "room" m) as [[| | |[|c cs]| |]|];
      try (right; split; [intros c cs; discriminate | reflexivity]).
    left. exists c, cs. split; [reflexivity|]. split; [reflexivity|].
    intros p. apply join_replies_server.
  - rewrite on_message_join_part000 by exact Hjoin.
    unfold Part000.room_code.
    destruct (js_String (or_empty (prop "room" m))) as [text|]; [|reflexivity].
    destruct (trim text) as [|c cs] eqn:E.
    + left. split; reflexivity.
    + right. split; [discriminate|]. split; [reflexivity|].
      intros p. apply join_replies_part000.
  - intros text E. rewrite E. unfold or_empty. simpl.
    destruct text; reflexivity.
Qed.

Lemma join_room_check_witness :
  ServerJs.on_message all_open 1 (msg_join JNull) ServerJs.init
  = Some (ServerJs.init, [(1, Error missing_room)]) /\
  Part000.on_message all_open 1 (msg_join (JStr (lit "  "))) empty_store
  = Some (empty_store, [(1, Error missing_room)]).
Proof.
  pose proof (join_room_check all_open 1 (msg_join_body JNull)
                ServerJs.init empty_store eq_refl) as [Hs _].
  pose proof (join_room_check all_open 1 (msg_join_body (JStr (lit "  ")))
                ServerJs.init empty_store eq_refl) as [_ [Hp _]].
  split.
  - destruct Hs as [(c & cs & E & _)|[_ E]]; [discriminate E | exact E].
  - destruct Hp as [[_ E]|[E _]]; [exact E | exfalso; apply E; reflexivity].
Defined.

(** C8 as the specification states it fails on both files. [server.js]
    joins the room named by a string of one space, which is empty after
    trimming. [part_000] joins the room "true" when the [room] field is
    the boolean [true], which is not a string. *)
Lemma blank_and_boolean_rooms_join :
  trim (lit " ") = [] /\
  ServerJs.on_message all_open 1 (msg_join (JStr (lit " "))) ServerJs.init
  = Some ({| ServerJs.objects :=
               {| heap := [room_solo 1]; rooms := [(lit " ", 0)] |};
             ServerJs.currentRoom := [(1, lit " ")] |},
          [(1, Joined (lit " ") (Some X))]) /\
  Part000.on_message all_open 1 (msg_join (JBool true)) empty_store
  = Some ({| heap := [room_solo 1]; rooms := [(lit "true", 0)] |},
          [(1, Joined (lit "true") (Some X))]).
Proof. repeat split; reflexivity. Qed.

(** ** C9: the heartbeat *)

(** C9 on [part_000], at the failing inputs. Connections 1 and 2 are
    tracked and alive, and neither ever answers a ping: the first sweep
    clears both flags and pings both, and the second sweep terminates
    connection 1 and returns, so connection 2, silent across two
    consecutive sweeps, is not terminated. Likewise, with 1 and 2 flagged
    dead and 3 alive, one sweep terminates 1 only: 2 is not terminated and
    3 is neither flagged nor pinged. The sweep of [server.js] visits every
    connection in both cases. *)
Lemma silent_connection_survives_two_sweeps :
  Part000.sweep [(1, true); (2, true)]
  = ([(1, false); (2, false)], [Ping 1; Ping 2]) /\
  Part000.sweep (fst (Part000.sweep [(1, true); (2, true)]))
  = ([(1, false); (2, false)], [Terminate 1]) /\
  ServerJs.sweep (fst (ServerJs.sweep [(1, true); (2, true)]))
  = ([(1, false); (2, false)], [Terminate 1; Terminate 2]) /\
  Part000.sweep [(1, false); (2, false); (3, true)]
  = ([(1, false); (2, false); (3, true)], [Terminate 1]) /\
  ServerJs.sweep [(1, false); (2, false); (3, true)]
  = ([(1, false); (2, false); (3, false)],
     [Terminate 1; Terminate 2; Ping 3]).
Proof. repeat split; reflexivity. Qed.

(** ** C10: relaying changes nothing in the registry *)

(** C10 on [part_000]: a [move] or a [reset] whose [room] is the object
    [{"toString": null}] does not leave the registry as it was. The
    conversion [String(m.room || '')] calls the object's own [toString],
    which is no function, and throws; nothing catches the exception, so the
    handler is left, in every state and for every sender, and the process
    ends with the registry. [server.js], which converts nothing, answers
    the same frame with [not_joined] and keeps its state. *)
Theorem object_room_ends_relay (ready : readiness) (ws : conn)
    (data : json) (st : store) :
  Part000.room_code (msg_move_body no_toString data) = None /\
  Part000.room_code (msg_reset_body no_toString) = None /\
  Part000.on_message ready ws (msg_move no_toString data) st = None /\
  Part000.on_message ready ws (msg_reset no_toString) st = None /\
  Part000.reachable pair_abc /\
  ServerJs.reachable server_pair_abc [] /\
  ServerJs.on_message all_open 1 (msg_move no_toString payload_x1)
    server_pair_abc
  = Some (server_pair_abc, [(1, Error not_joined)]).
Proof.
  split; [reflexivity|]. split; [reflexivity|]. split; [reflexivity|].
  split; [reflexivity|]. split; [apply pair_abc_reachable|].
  split; [apply server_pair_abc_reachable | reflexivity].
Qed.

(** * Further properties *)

(** ** X1: the heartbeat of [server.js] *)

(** X1. The heartbeat of [server.js]. At a sweep, a tracked connection whose
    flag is false is terminated, and one whose flag is true has its flag
    cleared and is pinged; a pong sets the flag of its connection; and a
    tracked connection that sends no pong between two consecutive sweeps,
    whatever pongs the others send, is terminated at the second. *)
Theorem heartbeat_server (t : tracked) (ws : conn) (alive : bool)
    (pongs : list conn) :
  (In (ws, alive) t ->
   if alive
   then In (Ping ws) (snd (ServerJs.sweep t)) /\
        In (ws, false) (fst (ServerJs.sweep t))
   else In (Terminate ws) (snd (ServerJs.sweep t))) /\
  (In ws (map fst t) ->
   forall a, In (ws, a) (on_pong ws t) -> a = true) /\
  (In ws (map fst t) -> ~ In ws pongs ->
   In (Terminate ws)
      (snd (ServerJs.sweep
              (fold_right on_pong (fst (ServerJs.sweep t)) pongs)))).
Proof.
  split; [apply sweep_server_visits_all|]. split.
  - intros _ a H. unfold on_pong in H.
    apply in_map_iff in H as ([w a'] & E & _). simpl in E.
    destruct (Nat.eq_dec w ws); inversion E; subst; [reflexivity | congruence].
  - intros Hin Hsilent.
    assert (H : In (ws, false)
                  (fold_right on_pong (fst (ServerJs.sweep t)) pongs)).
    { induction pongs as [|p pongs IH]; simpl.
      - rewrite <- sweep_server_keys in Hin.
        apply in_map_iff in Hin as ([w a] & E & Hin). simpl in E. subst w.
        rewrite (sweep_server_flags t ws a Hin) in Hin. exact Hin.
      - simpl in Hsilent.
        apply on_pong_other; [intros E; apply Hsilent; left; congruence|].
        apply IH. tauto. }
    apply (sweep_server_visits_all _ _ false H).
Qed.

Lemma heartbeat_server_witness :
  In (Terminate 2)
     (snd (ServerJs.sweep
             (fold_right on_pong
                (fst (ServerJs.sweep [(1, true); (2, true)])) [1]))).
Proof.
  apply (proj2 (proj2 (heartbeat_server [(1, true); (2, true)] 2 true [1]))).
  - simpl. tauto.
  - simpl. lia.
Defined.

(** ** X2: a successful join in [server.js] *)

(** X2. A successful join in [server.js]: once the sender is told
    [joined(code, side)], it is a member of the registered room [code] with
    that side recorded; every other member of that room whose connection
    is open is sent [peer_joined] with that side; and the side is X in a
    room that was not registered, O in a room whose one member holds
    X. *)
Theorem join_success_server (ready : readiness) (ws : conn)
    (code : jsstring) (sd : slot) (m : json) (s s' : ServerJs.state)
    (closed : list conn) (out : list send) :
  ServerJs.reachable s closed -> ~ In ws closed ->
  ServerJs.on_message ready ws (Parsed m) s = Some (s', out) ->
  In (ws, Joined code sd) out ->
  (exists r, room_of code (ServerJs.objects s') = Some r /\
             In ws (clients r) /\ role_of r ws = Some sd) /\
  (forall p, p <> ws -> member p code (ServerJs.objects s') ->
             ready p = true -> In (p, PeerJoined sd) out) /\
  (room_of code (ServerJs.objects s) = None -> sd = Some X) /\
  (forall p, room_of code (ServerJs.objects s) = Some (room_solo p) ->
             sd = Some O).
Proof.
  intros Hreach Hopen Hmsg Hjoined.
  pose proof (reachable_inv_server s closed Hreach) as Hinv.
  pose proof (on_message_inv_server ready ws (Parsed m) s s' out closed
                Hinv Hopen Hmsg) as (W' & Hok' & _).
  destruct Hinv as (Hwf & Hok & Hcur).
  assert (Hj : exists c cs, code = c :: cs /\
                 ServerJs.join ready ws code s = (s', out)).
  { destruct (is_string "join" (prop "t" m)) eqn:Ht.
    - rewrite on_message_join_server in Hmsg by exact Ht.
      destruct (prop "room" m) as [[| | |[|c cs]| |]|];
        try (inversion Hmsg; subst; destruct Hjoined as [H|[]]; discriminate).
      assert (E : ServerJs.join ready ws (c :: cs) s = (s', out))
        by congruence.
      exists c, cs.
      assert (code = c :: cs).
      { unfold ServerJs.join in E.
        destruct (getRoom (c :: cs) (ServerJs.objects s)) as [a st1].
        destruct (2 <=? length (clients (deref a st1)));
          inversion E; subst; destruct Hjoined as [H|H];
          try discriminate; try (inversion H; reflexivity);
          try destruct H.
        unfold ServerJs.send_if_open in H.
        destruct (ServerJs.otherClient _ ws) as [q|]; [|destruct H].
        destruct (ready q); [|destruct H].
        destruct H as [H|[]]. discriminate. }
      subst code. split; [reflexivity | exact E].
    - exfalso.
      assert (E : Some (ServerJs.relay ready ws m s) = Some (s', out)).
      { rewrite <- Hmsg. unfold ServerJs.on_message.
        destruct m; try discriminate; rewrite Ht; reflexivity. }
      inversion E as [E'].
      pose proof (relay_server_sends ready ws m s ws code sd) as R.
      rewrite E' in R. tauto. }
  destruct Hj as (c & cs & Hcode & Hj). clear Hmsg.
  pose proof (room_of_getRoom_target code (ServerJs.objects s)) as Htarget.
  pose proof (store_wf_getRoom code (ServerJs.objects s) Hwf) as W1.
  pose proof (getRoom_registered code (ServerJs.objects s)) as R1.
  unfold ServerJs.join in Hj.
  destruct (getRoom code (ServerJs.objects s)) as [a st1]. cbn [fst snd] in *.
  destruct (2 <=? length (clients (deref a st1))).
  { inversion Hj; subst. destruct Hjoined as [H|[]]. discriminate. }
  injection Hj as Es Eo. subst s' out.
  unfold ServerJs.assignSide in *. rewrite free_side_add_client in *.
  cbn [ServerJs.objects] in *.
  set (side := free_side (deref a st1)) in *.
  set (r2 := set_side ws side (add_client ws (deref a st1))) in *.
  assert (Hsd : sd = side).
  { destruct Hjoined as [H|H].
    - inversion H. reflexivity.
    - unfold ServerJs.send_if_open in H.
      destruct (ServerJs.otherClient r2 ws) as [q|]; [|destruct H].
      destruct (ready q); [|destruct H].
      destruct H as [H|[]]. discriminate. }
  subst sd.
  assert (Hroom : room_of code (write a r2 st1) = Some r2).
  { rewrite (room_of_write code code a r2 st1 W1 R1).
    destruct (jsstring_eq_dec code code); [reflexivity | tauto]. }
  split; [|split; [|split]].
  - exists r2. split; [exact Hroom|]. split; [apply enter_room_member|].
    unfold role_of, r2, set_side. simpl. apply Map_get_set_same.
  - intros p Hne (r & Hr & Hp) Hready. rewrite Hroom in Hr.
    inversion Hr; subst r.
    assert (Hr2 : room_ok r2).
    { destruct (room_of_deref _ _ _ Hroom) as (b & Hb & <-).
      apply Hok' with code. apply rooms_get_In. exact Hb. }
    pose proof (room_ok_two_members ws p r2 Hr2 (enter_room_member _ _ _)
                  Hp Hne) as Hshape.
    right. rewrite (otherClient_two ws p r2 Hshape) by congruence.
    unfold ServerJs.send_if_open. rewrite Hready. left. reflexivity.
  - intros Hnone. unfold side. rewrite Htarget, Hnone. reflexivity.
  - intros p Hsolo. unfold side. rewrite Htarget, Hsolo. reflexivity.
Qed.

Lemma join_success_server_witness :
  (exists r, room_of abc (ServerJs.objects server_pair_abc) = Some r /\
             In 2 (clients r) /\ role_of r 2 = Some (Some O)) /\
  (forall p, p <> 2 -> member p abc (ServerJs.objects server_pair_abc) ->
             all_open p = true ->
             In (p, PeerJoined (Some O))
                [(2, Joined abc (Some O)); (1, PeerJoined (Some O))]).
Proof.
  assert (Hopen : ~ In 2 []) by (simpl; tauto).
  pose proof (join_success_server all_open 2 abc (Some O)
                (msg_join_body (JStr abc))
                {| ServerJs.objects := solo_abc;
                   ServerJs.currentRoom := [(1, abc)] |}
                server_pair_abc []
                [(2, Joined abc (Some O)); (1, PeerJoined (Some O))]) as H.
  destruct H as (H1 & H2 & _).
  - apply (ServerJs.reach_message ServerJs.init [] all_open 1
             (msg_join (JStr abc)) _ [(1, Joined abc (Some X))]);
      [apply ServerJs.reach_init | simpl; tauto | reflexivity].
  - exact Hopen.
  - reflexivity.
  - left. reflexivity.
  - split; assumption.
Defined.

(** ** X3: a successful join in [part_000] *)

(** X3. A successful join in [part_000], for a sender that is not the one
    member of the room it asks for: once it is told [joined(code, side)],
    it is a member of the registered room [code] with that side recorded;
    every other member of that room whose connection is open is sent
    [peer_joined] with that side; and the side is X in a room that was not
    registered, O in a room whose one member holds X. *)
Theorem join_success_part000 (ready : readiness) (ws : conn)
    (code : jsstring) (sd : slot) (m : json) (st st' : store)
    (out : list send) :
  Part000.reachable st ->
  Part000.on_message ready ws (Parsed m) st = Some (st', out) ->
  In (ws, Joined code sd) out ->
  (forall r, room_of code st = Some r -> clients r <> [ws]) ->
  (exists r, room_of code st' = Some r /\
             In ws (clients r) /\ role_of r ws = Some sd) /\
  (forall p, p <> ws -> member p code st' -> ready p = true ->
             In (p, PeerJoined sd) out) /\
  (room_of code st = None -> sd = Some X) /\
  (forall p, p <> ws -> room_of code st = Some (room_solo p) -> sd = Some O).
Proof.
  intros Hreach Hmsg Hjoined Hnot_alone.
  destruct (reachable_inv_part000 st Hreach) as (Hwf & Hok & Hone).
  assert (Hj : Part000.join ready ws code st = (st', out)).
  { destruct (is_string "join" (prop "t" m)) eqn:Ht.
    - rewrite on_message_join_part000 in Hmsg by exact Ht.
      destruct (Part000.room_code m) as [[|c cs]|]; try discriminate.
      { inversion Hmsg; subst. destruct Hjoined as [H|[]]. discriminate. }
      assert (E : Part000.join ready ws (c :: cs) st = (st', out))
        by congruence.
      assert (code = c :: cs); [|subst code; exact E].
      unfold Part000.join in E.
      destruct (getRoom (c :: cs) st) as [r st1].
      pose proof (leaveEverywhere_sends ready ws st1 ws (Joined code sd)) as L.
      destruct (Part000.leaveEverywhere ready ws st1) as [st2 left].
      cbn [snd] in L.
      destruct (Part000.chooseSide (deref r st2)); inversion E; subst;
        apply in_app_or in Hjoined as [H|H];
        try (destruct (L H) as [[c0 E0] _]; discriminate).
      + destruct H as [H|H]; [inversion H; reflexivity|].
        apply broadcast_sends in H as (E0 & _). discriminate.
      + destruct H as [H|[]]. discriminate.
    - exfalso.
      apply (on_message_other_part000 ready ws m st st' out ws code sd Ht
               Hmsg Hjoined). }
  clear Hmsg.
  pose proof (getRoom_spec code st Hwf Hok) as (W1 & R1 & _ & _).
  pose proof (getRoom_one_room_each code st Hwf Hok Hone) as O1.
  pose proof (getRoom_rooms_ok0 code st Hwf Hok) as K1.
  pose proof (room_of_getRoom_target code st) as Htarget.
  unfold Part000.join in Hj.
  destruct (getRoom code st) as [r st1]. cbn [fst snd] in *.
  pose proof (leaveEverywhere_spec ready ws st1 W1 O1 K1)
    as (W2 & _ & D2 & R2).
  pose proof (leaveEverywhere_sends ready ws st1 ws (Joined code sd)) as L.
  destruct (Part000.leaveEverywhere ready ws st1) as [st2 left].
  cbn [fst snd] in *.
  assert (Hr2 : deref r st2 = evict ws (deref r st1)) by (eapply D2; eauto).
  assert (Hreg : In (code, r) (rooms st2)).
  { apply R2. split; [exact R1|]. intros Hmem Hempty.
    assert (Hr : room_ok (deref r st1)).
    { destruct (K1 _ _ R1) as [H|H]; [exact H|].
      rewrite H in Hmem. destruct Hmem. }
    destruct (evict_ok ws _ Hr Hmem) as [[Halone _]|[_ Ev]].
    - rewrite Htarget in Halone.
      destruct (room_of code st) as [r0|] eqn:E0; [|discriminate].
      apply (Hnot_alone r0); [reflexivity | exact Halone].
    - destruct (evict ws (deref r st1)) as [cl sds].
      simpl in Hempty. subst cl. inversion Ev. }
  unfold Part000.chooseSide in Hj.
  destruct (free_side (deref r st2)) as [side|] eqn:Hside.
  2:{ inversion Hj; subst. apply in_app_or in Hjoined as [H|[H|[]]].
      - destruct (L H) as [[c0 E0] _]. discriminate.
      - discriminate. }
  injection Hj as Es Eo. subst st' out.
  set (r' := set_side ws (Some side) (add_client ws (deref r st2))) in *.
  assert (Hsd : sd = Some side).
  { apply in_app_or in Hjoined as [H|[H|H]].
    - destruct (L H) as [[c0 E0] _]. discriminate.
    - inversion H. reflexivity.
    - apply broadcast_sends in H as (E0 & _). discriminate. }
  subst sd.
  assert (Hroom : room_of code (write r r' st2) = Some r').
  { rewrite (room_of_write code code r r' st2 W2 Hreg).
    destruct (jsstring_eq_dec code code); [reflexivity | tauto]. }
  split; [|split; [|split]].
  - exists r'. split; [exact Hroom|]. split; [apply enter_room_member|].
    unfold role_of, r', set_side. simpl. apply Map_get_set_same.
  - intros p Hne (r0 & Hr0 & Hp) Hready. rewrite Hroom in Hr0.
    inversion Hr0; subst r0.
    apply in_or_app. right. right.
    unfold Part000.broadcast. apply in_map_iff. exists p.
    split; [reflexivity|]. apply filter_In. split; [exact Hp|].
    rewrite Hready. unfold Part000.is_not.
    destruct (Nat.eq_dec p ws); [tauto | reflexivity].
  - intros Hnone. rewrite Hr2, Htarget, Hnone in Hside.
    inversion Hside. reflexivity.
  - intros p Hne Hsolo. rewrite Hr2, Htarget, Hsolo in Hside.
    unfold evict, room_solo in Hside. simpl in Hside.
    destruct (Nat.eq_dec ws p); [congruence|].
    inversion Hside. reflexivity.
Qed.

Lemma join_success_part000_witness :
  exists r, room_of abc pair_abc = Some r /\
            In 2 (clients r) /\ role_of r 2 = Some (Some O).
Proof.
  apply (join_success_part000 all_open 2 abc (Some O)
           (msg_join_body (JStr abc)) solo_abc pair_abc
           [(2, Joined abc (Some O)); (1, PeerJoined (Some O))]).
  - apply solo_abc_reachable.
  - reflexivity.
  - left. reflexivity.
  - intros r E. inversion E. discriminate.
Defined.

(** ** X4: one room per connection in [part_000] *)

(** X4. In every state [part_000] reaches, a connection that is a member
    of a registered room is a member of no other. *)
Theorem one_room_per_connection (st : store) (ws : conn) (c1 c2 : jsstring) :
  Part000.reachable st -> member ws c1 st -> c1 <> c2 -> ~ member ws c2 st.
Proof.
  intros Hreach H1 Hne H2. apply Hne.
  destruct (reachable_inv_part000 st Hreach) as (_ & _ & Hone).
  apply member_iff in H1 as (a1 & G1 & M1).
  apply member_iff in H2 as (a2 & G2 & M2).
  apply (Hone c1 a1 c2 a2 ws); auto using rooms_get_In.
Qed.

Lemma one_room_per_connection_witness : ~ member 1 xyz pair_abc_solo_xyz.
Proof.
  apply (one_room_per_connection pair_abc_solo_xyz 1 abc xyz).
  - apply pair_abc_solo_xyz_reachable.
  - exists room_1_2. split; [reflexivity | left; reflexivity].
  - discriminate.
Defined.

(** ** X5: the cached room code in [server.js] *)

(** X5. In every state [server.js] reaches, the [currentRoom] of a
    connection that is not closed is the code of a registered room that
    has the connection as a member. *)
Theorem current_room_is_registered (s : ServerJs.state) (closed : list conn)
    (ws : conn) (code : jsstring) :
  ServerJs.reachable s closed -> ~ In ws closed ->
  Map_get Nat.eq_dec ws (ServerJs.currentRoom s) = Some code ->
  member ws code (ServerJs.objects s).
Proof.
  intros Hreach Hopen Hcur.
  destruct (reachable_inv_server s closed Hreach) as (_ & _ & Hok).
  destruct (Hok ws code Hopen Hcur) as (_ & a & Hget & Hin).
  apply member_iff. eauto.
Qed.

Lemma current_room_is_registered_witness :
  member 1 xyz (ServerJs.objects server_pair_abc_then_xyz).
Proof.
  apply (current_room_is_registered server_pair_abc_then_xyz [] 1 xyz).
  - apply server_pair_abc_then_xyz_reachable.
  - simpl. tauto.
  - reflexivity.
Defined.

(** ** Leaving a room, seen from the registry *)

Lemma broadcast_iff (ready : readiness) (r : room) (msg : outmsg)
    (except : option conn) (p : conn) (x : outmsg) :
  In (p, x) (Part000.broadcast ready r msg except) <->
  x = msg /\ In p (clients r) /\ ready p = true /\ except <> Some p.
Proof.
  split; [apply broadcast_sends|].
  intros (-> & Hin & Hready & Hex). unfold Part000.broadcast.
  apply in_map_iff. exists p. split; [reflexivity|].
  apply filter_In. split; [exact Hin|].
  rewrite Hready. simpl. unfold Part000.is_not.
  destruct except as [e|]; [|reflexivity].
  destruct (Nat.eq_dec p e); [subst; tauto | reflexivity].
Qed.

Lemma room_of_leaveEverywhere (ready : readiness) (ws : conn) (st : store)
    (c : jsstring) :
  store_wf st -> one_room_each st -> rooms_ok0 st ->
  room_of c (fst (Part000.leaveEverywhere ready ws st)) =
  leave_room ws (room_of c st).
Proof.
  intros Hwf Hone Hok.
  destruct (leaveEverywhere_spec ready ws st Hwf Hone Hok)
    as (Hwf' & _ & Hd & Hr).
  set (st' := fst (Part000.leaveEverywhere ready ws st)) in *.
  rewrite !room_of_rooms_get.
  destruct (rooms_get c st) as [a|] eqn:E.
  - pose proof (rooms_get_In _ _ _ E) as Hin. unfold leave_room.
    destruct (Set_has Nat.eq_dec ws (clients (deref a st))) eqn:Hs.
    + apply Set_has_In in Hs.
      destruct (clients (evict ws (deref a st))) as [|q qs] eqn:Ec.
      * destruct (rooms_get c st') as [b|] eqn:E'; [|reflexivity].
        apply rooms_get_In, Hr in E'. destruct E' as [Hin' Hne].
        apply (In_rooms_get _ _ _ Hwf) in Hin'.
        assert (b = a) by congruence. subst b.
        exfalso. apply (Hne Hs). exact Ec.
      * rewrite (In_rooms_get c a st' Hwf').
        -- rewrite (Hd c a Hin). reflexivity.
        -- apply Hr. split; [exact Hin|]. intros _. rewrite Ec. discriminate.
    + apply Set_has_not_In in Hs.
      rewrite (In_rooms_get c a st' Hwf').
      * rewrite (Hd c a Hin), evict_absent0; eauto.
      * apply Hr. split; [exact Hin | tauto].
  - destruct (rooms_get c st') as [b|] eqn:E'; [|reflexivity].
    apply rooms_get_In, Hr in E'. destruct E' as [Hin _].
    apply (In_rooms_get _ _ _ Hwf) in Hin. congruence.
Qed.

Lemma leaveEverywhere_notifies (ready : readiness) (ws : conn) (st : store)
    (p : conn) (x : outmsg) :
  store_wf st -> one_room_each st ->
  In (p, x) (snd (Part000.leaveEverywhere ready ws st)) <->
  exists code r,
    room_of code st = Some r /\ In ws (clients r) /\ In p (clients r) /\
    p <> ws /\ ready p = true /\ x = PeerLeft (Some code).
Proof.
  intros Hwf Hone. unfold Part000.leaveEverywhere.
  destruct (leave_loop_cases ready ws (rooms st) st)
    as [[Hno Heq]|(before & c & b & after & Hrooms & _ & Hws & Heq)];
    rewrite Heq; simpl.
  - split; [tauto|]. intros (code & r & Hr & Hin & _).
    apply room_of_deref in Hr as (a & Ha & <-).
    apply rooms_get_In in Ha. exact (Hno _ _ Ha Hin).
  - assert (Hb : In (c, b) (rooms st))
      by (rewrite Hrooms; apply in_or_app; right; left; reflexivity).
    rewrite broadcast_iff, evict_members. split.
    + intros (-> & (Hne & Hin) & Hready & _).
      exists c, (deref b st). rewrite room_of_rooms_get.
      rewrite (In_rooms_get _ _ _ Hwf Hb). auto 10.
    + intros (code & r & Hr & Hin & Hp & Hne & Hready & ->).
      apply room_of_deref in Hr as (a & Ha & <-).
      pose proof (rooms_get_In _ _ _ Ha) as Hina.
      assert (code = c) by (eapply Hone; eauto). subst code.
      apply (In_rooms_get _ _ _ Hwf) in Hb.
      assert (a = b) by congruence. subst a.
      repeat split; auto. discriminate.
Qed.

(** ** X6: a close in [part_000] *)

(** X6. A close (or an error) of a connection in [part_000], in any state
    the server reaches: the room the connection is a member of loses it, and
    is removed from the registry when it was its last member; every other
    room stays as it is; and [peer_left], with the code of that room, is
    sent to the open connections that shared the room with it, and to no
    one else. *)
Theorem close_effect_part000 (ready : readiness) (ws : conn)
    (st st' : store) (out : list send) :
  Part000.reachable st ->
  Part000.on_close ready ws st = (st', out) ->
  (forall c, room_of c st' = leave_room ws (room_of c st)) /\
  (forall p x,
     In (p, x) out <->
     exists code r,
       room_of code st = Some r /\ In ws (clients r) /\ In p (clients r) /\
       p <> ws /\ ready p = true /\ x = PeerLeft (Some code)).
Proof.
  intros Hreach Hclose.
  destruct (reachable_inv_part000 st Hreach) as (Hwf & Hok & Hone).
  assert (Hok0 : rooms_ok0 st) by (intros c a H; left; eauto).
  unfold Part000.on_close in Hclose. split.
  - intros c.
    replace st' with (fst (Part000.leaveEverywhere ready ws st))
      by (rewrite Hclose; reflexivity).
    apply room_of_leaveEverywhere; assumption.
  - intros p x.
    replace out with (snd (Part000.leaveEverywhere ready ws st))
      by (rewrite Hclose; reflexivity).
    apply leaveEverywhere_notifies; assumption.
Qed.

Lemma close_effect_part000_witness :
  (forall c, room_of c (fst (Part000.on_close all_open 2 pair_abc_solo_xyz)) =
             leave_room 2 (room_of c pair_abc_solo_xyz)) /\
  In (1, PeerLeft (Some abc))
     (snd (Part000.on_close all_open 2 pair_abc_solo_xyz)).
Proof.
  destruct (close_effect_part000 all_open 2 pair_abc_solo_xyz
              (fst (Part000.on_close all_open 2 pair_abc_solo_xyz))
              (snd (Part000.on_close all_open 2 pair_abc_solo_xyz))
              pair_abc_solo_xyz_reachable eq_refl) as [Hrooms _].
  split; [exact Hrooms | vm_compute; auto].
Defined.

(** ** X7: a close in [server.js] *)

Lemma room_of_after_leave_other (old c : jsstring) (a : ref) (e : room)
    (st : store) :
  store_wf st -> In (old, a) (rooms st) -> c <> old ->
  room_of c (delete_if_empty old e (write a e st)) = room_of c st.
Proof.
  intros Hwf Hin Hne.
  transitivity (room_of c (write a e st)).
  - rewrite !room_of_rooms_get. unfold delete_if_empty.
    destruct (length (clients e) =? 0); [|reflexivity].
    unfold rooms_get, rooms_delete. simpl. rewrite Map_get_delete.
    destruct (jsstring_eq_dec old c); [congruence | reflexivity].
  - rewrite (room_of_write old c a e st Hwf Hin).
    destruct (jsstring_eq_dec c old); [tauto | reflexivity].
Qed.

Lemma first_other_Some (ws p : conn) (cs : list conn) :
  ServerJs.first_other ws cs = Some p -> In p cs /\ p <> ws.
Proof.
  induction cs as [|c cs IH]; simpl; [discriminate|].
  destruct (Nat.eq_dec c ws) as [->|Hne].
  - intros H. apply IH in H. tauto.
  - intros H. inversion H; subst. auto.
Qed.

Lemma first_other_None (ws : conn) (cs : list conn) :
  ServerJs.first_other ws cs = None <-> forall c, In c cs -> c = ws.
Proof.
  induction cs as [|c cs IH]; simpl; [tauto|].
  destruct (Nat.eq_dec c ws) as [->|Hne].
  - rewrite IH. split; [intros H c [<-|Hc]; auto | auto].
  - split; [discriminate|]. intros H. exfalso. apply Hne. auto.
Qed.

Lemma send_other_iff (ready : readiness) (ws : conn) (r : room)
    (msg : outmsg) (p : conn) (x : outmsg) :
  room_ok r -> In ws (clients r) ->
  In (p, x) (ServerJs.send_if_open ready (ServerJs.otherClient r ws) msg) <->
  x = msg /\ In p (clients r) /\ p <> ws /\ ready p = true.
Proof.
  intros Hok Hin. unfold ServerJs.send_if_open. split.
  - destruct (ServerJs.otherClient r ws) as [q|] eqn:Eq; [|intros []].
    destruct (ready q) eqn:Rq; [|intros []].
    intros [H|[]]. inversion H; subst q x.
    apply first_other_Some in Eq as [Hp Hne]. auto.
  - intros (-> & Hp & Hne & Hready).
    rewrite (otherClient_two ws p r
               (room_ok_two_members ws p r Hok Hin Hp Hne)); [|congruence].
    rewrite Hready. left. reflexivity.
Qed.

Lemma on_close_rooms_server (ready : readiness) (ws : conn)
    (s : ServerJs.state) (closed : list conn) (c : jsstring) :
  inv_server s closed -> ~ In ws closed ->
  ServerJs.currentRoom (fst (ServerJs.on_close ready ws s)) =
    ServerJs.currentRoom s /\
  room_of c (ServerJs.objects (fst (ServerJs.on_close ready ws s))) =
    match Map_get Nat.eq_dec ws (ServerJs.currentRoom s) with
    | Some cur =>
        if jsstring_eq_dec c cur
        then leave_room ws (room_of c (ServerJs.objects s))
        else room_of c (ServerJs.objects s)
    | None => room_of c (ServerJs.objects s)
    end.
Proof.
  intros (Hwf & Hok & Hcur) Hopen.
  destruct (Map_get Nat.eq_dec ws (ServerJs.currentRoom s)) as [code|] eqn:Ecur.
  - destruct (Hcur ws code Hopen Ecur) as (Hne & a & Ha & Hin).
    pose proof (rooms_get_In _ _ _ Ha) as Hina.
    rewrite (on_close_server_room ready ws s code Ecur Hne).
    rewrite (getRoom_present _ _ _ Ha). cbn [fst snd]. cbv zeta.
    cbn [fst ServerJs.objects ServerJs.currentRoom].
    split; [reflexivity|].
    destruct (jsstring_eq_dec c code) as [->|Hc].
    + rewrite room_of_after_leave;
        [|exact Ha | destruct Hwf as (_ & _ & H); eauto].
      rewrite (room_of_rooms_get code (ServerJs.objects s)), Ha.
      unfold leave_room.
      rewrite (proj2 (Set_has_In Nat.eq_dec ws _) Hin). reflexivity.
    + apply room_of_after_leave_other; assumption.
  - rewrite (on_close_server_none ready ws s Ecur). auto.
Qed.

(** X7. A close of an open connection in [server.js], in any state the
    server reaches: the room named by the connection's [currentRoom] loses
    it, and is removed from the registry when it was its last member; every
    other room stays as it is, also one the connection is still listed in;
    [currentRoom] is not reset; and [peer_left], without a room code, is
    sent to the open connection that shares the current room with it, and
    to no one else. *)
Theorem close_effect_server (ready : readiness) (ws : conn)
    (s s' : ServerJs.state) (closed : list conn) (out : list send) :
  ServerJs.reachable s closed -> ~ In ws closed ->
  ServerJs.on_close ready ws s = (s', out) ->
  ServerJs.currentRoom s' = ServerJs.currentRoom s /\
  (forall c,
     room_of c (ServerJs.objects s') =
     match Map_get Nat.eq_dec ws (ServerJs.currentRoom s) with
     | Some cur =>
         if jsstring_eq_dec c cur
         then leave_room ws (room_of c (ServerJs.objects s))
         else room_of c (ServerJs.objects s)
     | None => room_of c (ServerJs.objects s)
     end) /\
  (forall p x,
     In (p, x) out <->
     exists code r,
       Map_get Nat.eq_dec ws (ServerJs.currentRoom s) = Some code /\
       room_of code (ServerJs.objects s) = Some r /\ In p (clients r) /\
       p <> ws /\ ready p = true /\ x = PeerLeft None).
Proof.
  intros Hreach Hopen Hclose.
  pose proof (reachable_inv_server _ _ Hreach) as Hinv.
  assert (Es : s' = fst (ServerJs.on_close ready ws s))
    by (rewrite Hclose; reflexivity).
  split; [|split].
  - rewrite Es. apply (on_close_rooms_server ready ws s closed []); assumption.
  - intros c. rewrite Es.
    apply (on_close_rooms_server ready ws s closed c); assumption.
  - destruct Hinv as (Hwf & Hok & Hcur). intros p x.
    destruct (Map_get Nat.eq_dec ws (ServerJs.currentRoom s)) as [code|]
      eqn:Ecur.
    + destruct (Hcur ws code Hopen Ecur) as (Hne & a & Ha & Hin).
      rewrite (on_close_server_room ready ws s code Ecur Hne) in Hclose.
      rewrite (getRoom_present _ _ _ Ha) in Hclose. cbn [fst snd] in Hclose.
      cbv zeta in Hclose. injection Hclose as _ <-.
      rewrite (send_other_iff ready ws _ _ p x
                 (Hok code a (rooms_get_In _ _ _ Ha)) Hin).
      split.
      * intros (-> & Hp & Hpne & Hready).
        exists code, (deref a (ServerJs.objects s)).
        rewrite room_of_rooms_get, Ha. auto 10.
      * intros (code' & r & E & Hr' & Hp & Hpne & Hready & ->).
        assert (code' = code) by congruence. subst code'.
        rewrite room_of_rooms_get, Ha in Hr'. inversion Hr'; subst r. auto.
    + rewrite (on_close_server_none ready ws s Ecur) in Hclose.
      injection Hclose as _ <-. split; [intros []|].
      intros (code & r & E & _). discriminate.
Qed.

Lemma close_effect_server_witness :
  room_of abc
    (ServerJs.objects (fst (ServerJs.on_close all_open 1
                              server_pair_abc_then_xyz))) =
  room_of abc (ServerJs.objects server_pair_abc_then_xyz) /\
  room_of xyz
    (ServerJs.objects (fst (ServerJs.on_close all_open 1
                              server_pair_abc_then_xyz))) = None.
Proof.
  assert (H1 : ~ In 1 (@nil conn)) by (simpl; tauto).
  destruct (close_effect_server all_open 1 server_pair_abc_then_xyz
              (fst (ServerJs.on_close all_open 1 server_pair_abc_then_xyz))
              []
              (snd (ServerJs.on_close all_open 1 server_pair_abc_then_xyz))
              server_pair_abc_then_xyz_reachable H1 eq_refl)
    as (_ & Hrooms & _).
  split; rewrite Hrooms; vm_compute; reflexivity.
Defined.

(** ** X8: what a join in [part_000] touches *)

Lemma room_of_getRoom_any (code c : jsstring) (st : store) :
  store_wf st ->
  room_of c (snd (getRoom code st)) =
  match room_of c st with
  | Some r => Some r
  | None => if jsstring_eq_dec c code then Some new_room else None
  end.
Proof.
  intros Hwf. destruct (jsstring_eq_dec c code) as [->|Hne].
  - rewrite (room_of_rooms_get code (snd (getRoom code st))).
    rewrite (In_rooms_get _ _ _ (store_wf_getRoom code st Hwf)
               (getRoom_registered code st)).
    rewrite room_of_getRoom_target. destruct (room_of code st); reflexivity.
  - rewrite room_of_getRoom by assumption.
    destruct (room_of c st); reflexivity.
Qed.

Lemma member_getRoom (q : conn) (c code : jsstring) (st : store) :
  store_wf st -> member q c (snd (getRoom code st)) <-> member q c st.
Proof.
  intros Hwf. unfold member. rewrite room_of_getRoom_any by assumption.
  destruct (room_of c st) as [r|]; [tauto|]. split.
  - intros (r & E & Hin).
    destruct (jsstring_eq_dec c code); [|discriminate].
    inversion E; subst. destruct Hin.
  - intros (r & E & _). discriminate.
Qed.

Lemma join_frame_part000 (ready : readiness) (ws : conn) (code : jsstring)
    (st : store) :
  inv_part000 st ->
  (forall c, c <> code ->
     room_of c (fst (Part000.join ready ws code st)) =
     leave_room ws (room_of c st)) /\
  (forall p x, In (p, x) (snd (Part000.join ready ws code st)) ->
     (p = ws /\ ((exists sd, x = Joined code sd) \/ x = Error room_full)) \/
     (p <> ws /\ ready p = true /\
      ((exists c, x = PeerLeft (Some c) /\ member ws c st /\ member p c st) \/
       (exists sd, x = PeerJoined sd /\ member p code st)))).
Proof.
  intros (Hwf & Hok & Hone).
  pose proof (store_wf_getRoom code st Hwf) as Hwf1.
  pose proof (getRoom_one_room_each code st Hwf Hok Hone) as Hone1.
  pose proof (getRoom_rooms_ok0 code st Hwf Hok) as Hok1.
  pose proof (getRoom_registered code st) as Hreg.
  pose proof (fun c Hc => room_of_getRoom code c st Hwf Hc) as Hst1.
  pose proof (fun q c => member_getRoom q c code st Hwf) as Hmem.
  unfold Part000.join.
  destruct (getRoom code st) as [r st1]. cbn [fst snd] in *.
  destruct (leaveEverywhere_spec ready ws st1 Hwf1 Hone1 Hok1)
    as (Hwf2 & _ & Hd & Hr).
  pose proof (fun c => room_of_leaveEverywhere ready ws st1 c Hwf1 Hone1 Hok1)
    as Hleave.
  pose proof (fun p x => leaveEverywhere_notifies ready ws st1 p x Hwf1 Hone1)
    as Hnote.
  destruct (Part000.leaveEverywhere ready ws st1) as [st2 left].
  cbn [fst snd] in *.
  assert (Hleft : forall p x, In (p, x) left ->
            p <> ws /\ ready p = true /\
            exists c, x = PeerLeft (Some c) /\ member ws c st /\ member p c st).
  { intros p x H. apply Hnote in H as (c & r0 & E & Hin & Hp & Hne & Hready & ->).
    split; [auto|]. split; [auto|]. exists c. split; [reflexivity|].
    split; apply Hmem; exists r0; auto. }
  assert (Hframe2 : forall c, c <> code ->
            room_of c st2 = leave_room ws (room_of c st)).
  { intros c Hc. rewrite <- (Hst1 c Hc). apply Hleave. }
  unfold Part000.chooseSide.
  destruct (free_side (deref r st2)) as [sd|] eqn:Es; cbn [fst snd].
  - split.
    + intros c Hc. rewrite <- (Hframe2 c Hc). rewrite !room_of_rooms_get.
      change (rooms_get c (write r (set_side ws (Some sd)
                                      (add_client ws (deref r st2))) st2))
        with (rooms_get c st2).
      destruct (rooms_get c st2) as [b|] eqn:Eb; [|reflexivity].
      rewrite deref_write_other; [reflexivity|].
      intros <-. apply Hc. apply rooms_get_In, Hr in Eb.
      destruct Eb as [Hb _].
      exact (same_ref_same_code st1 c code r Hwf1 Hb Hreg).
    + intros p x H. apply in_app_or in H as [H|[H|H]].
      * right. destruct (Hleft p x H) as (? & ? & ?). auto.
      * inversion H; subst. left. split; [reflexivity|]. left. eauto.
      * apply broadcast_sends in H as (-> & Hin & Hready & Hex).
        assert (p <> ws) by congruence.
        right. split; [assumption|]. split; [assumption|]. right.
        exists (Some sd). split; [reflexivity|].
        apply enter_room_members in Hin as [->|Hin]; [tauto|].
        rewrite (Hd code r Hreg) in Hin.
        apply evict_members in Hin as [_ Hin].
        apply Hmem. apply member_iff. exists r.
        split; [apply In_rooms_get; assumption | exact Hin].
  - split; [exact Hframe2|].
    intros p x H. apply in_app_or in H as [H|[H|[]]].
    + right. destruct (Hleft p x H) as (? & ? & ?). auto.
    + inversion H; subst. left. auto.
Qed.

Lemma join_target_part000 (ready : readiness) (ws : conn) (code : jsstring)
    (st : store) :
  inv_part000 st ->
  room_of code (fst (Part000.join ready ws code st)) =
  match room_of code st with
  | None => Some (set_side ws (Some X) (add_client ws new_room))
  | Some r =>
      match leave_room ws (Some r) with
      | None => None
      | Some e =>
          match free_side e with
          | Some sd => Some (set_side ws (Some sd) (add_client ws e))
          | None => Some e
          end
      end
  end.
Proof.
  intros (Hwf & Hok & Hone).
  pose proof (store_wf_getRoom code st Hwf) as Hwf1.
  pose proof (getRoom_one_room_each code st Hwf Hok Hone) as Hone1.
  pose proof (getRoom_rooms_ok0 code st Hwf Hok) as Hok1.
  pose proof (getRoom_registered code st) as Hreg.
  pose proof (room_of_getRoom_target code st) as Htarget.
  unfold Part000.join.
  destruct (getRoom code st) as [r st1]. cbn [fst snd] in *.
  destruct (leaveEverywhere_spec ready ws st1 Hwf1 Hone1 Hok1)
    as (Hwf2 & _ & Hd & Hr).
  destruct (Part000.leaveEverywhere ready ws st1) as [st2 left].
  cbn [fst snd] in *. unfold Part000.chooseSide.
  pose proof (Hd code r Hreg) as He. rewrite Htarget in He.
  match goal with
  | |- room_of code ?s = _ =>
      assert (Hin2 : In (code, r) (rooms st2) ->
                room_of code s =
                match free_side (deref r st2) with
                | Some sd =>
                    Some (set_side ws (Some sd) (add_client ws (deref r st2)))
                | None => Some (deref r st2)
                end)
  end.
  { intros Hin. destruct (free_side (deref r st2)) as [sd|] eqn:Es; cbn [fst].
    - rewrite (room_of_write code code r _ st2 Hwf2 Hin).
      destruct (jsstring_eq_dec code code); [reflexivity | tauto].
    - rewrite room_of_rooms_get, (In_rooms_get _ _ _ Hwf2 Hin). reflexivity. }
  destruct (room_of code st) as [r0|] eqn:E0.
  - apply room_of_deref in E0 as (a & Ha & Hr0).
    assert (Hroom : room_ok r0)
      by (rewrite <- Hr0; apply (Hok code a); apply rooms_get_In; exact Ha).
    unfold leave_room.
    destruct (Set_has Nat.eq_dec ws (clients r0)) eqn:Hs.
    + apply Set_has_In in Hs.
      destruct (clients (evict ws r0)) as [|q qs] eqn:Ec.
      * assert (Hout : rooms_get code st2 = None).
        { destruct (rooms_get code st2) as [b|] eqn:Eb; [|reflexivity].
          apply rooms_get_In, Hr in Eb. destruct Eb as [Hb Hne].
          assert (b = r).
          { apply (In_rooms_get _ _ _ Hwf1) in Hb, Hreg. congruence. }
          subst b. exfalso. rewrite Htarget in Hne.
          apply (Hne Hs). exact Ec. }
        rewrite room_of_rooms_get.
        destruct (free_side (deref r st2)) as [sd|]; cbn [fst];
          [unfold rooms_get in *; cbn [rooms write]|];
          rewrite Hout; reflexivity.
      * rewrite Hin2, He; [reflexivity|].
        apply Hr. split; [exact Hreg|]. rewrite Htarget, Ec. discriminate.
    + apply Set_has_not_In in Hs.
      rewrite Hin2, He, (evict_absent ws r0 Hroom Hs); [reflexivity|].
      apply Hr. split; [exact Hreg|]. rewrite Htarget. tauto.
  - rewrite Hin2, He; [reflexivity|].
    apply Hr. split; [exact Hreg|]. rewrite Htarget. simpl. tauto.
Qed.

(** X8. A [join] with a non-empty room code in [part_000], in any state the
    server reaches. Every room other than the one asked for is as a close
    of the sender would leave it: the sender's former room loses it, or is
    removed with its last member, and the rest is untouched. The room asked
    for, when it was not registered, now holds the sender alone; when the
    sender was its one member, it is no longer registered; and otherwise it
    is that room without the sender, with the sender added last and given
    the free side when there is one. What is sent goes to the sender (the
    reply), to open connections of a room the sender was in ([peer_left]
    with that room's code), and to open connections of the room asked for
    ([peer_joined]); no other connection receives anything. *)
Theorem join_effect_part000 (ready : readiness) (ws : conn) (m : json)
    (code : jsstring) (st st' : store) (out : list send) :
  Part000.reachable st ->
  is_string "join" (prop "t" m) = true ->
  Part000.room_code m = Some code -> code <> [] ->
  Part000.on_message ready ws (Parsed m) st = Some (st', out) ->
  (forall c, c <> code -> room_of c st' = leave_room ws (room_of c st)) /\
  room_of code st' =
    match room_of code st with
    | None => Some (set_side ws (Some X) (add_client ws new_room))
    | Some r =>
        match leave_room ws (Some r) with
        | None => None
        | Some e =>
            match free_side e with
            | Some sd => Some (set_side ws (Some sd) (add_client ws e))
            | None => Some e
            end
        end
    end /\
  (forall p x, In (p, x) out ->
     (p = ws /\ ((exists sd, x = Joined code sd) \/ x = Error room_full)) \/
     (p <> ws /\ ready p = true /\
      ((exists c, x = PeerLeft (Some c) /\ member ws c st /\ member p c st) \/
       (exists sd, x = PeerJoined sd /\ member p code st)))).
Proof.
  intros Hreach Ht Hcode Hne Hmsg.
  pose proof (reachable_inv_part000 st Hreach) as Hinv.
  rewrite (on_message_join_part000 ready ws m st Ht), Hcode in Hmsg.
  destruct code as [|k ks]; [tauto|].
  destruct (join_frame_part000 ready ws (k :: ks) st Hinv) as [Hframe Hsends].
  pose proof (join_target_part000 ready ws (k :: ks) st Hinv) as Htarget.
  destruct (Part000.join ready ws (k :: ks) st) as [st2 out2].
  injection Hmsg as <- <-. auto.
Qed.

Lemma join_effect_part000_witness :
  room_of abc (fst (Part000.join all_open 3 xyz pair_abc_solo_xyz)) =
    leave_room 3 (room_of abc pair_abc_solo_xyz) /\
  room_of xyz (fst (Part000.join all_open 3 xyz pair_abc_solo_xyz)) = None.
Proof.
  assert (Hne : xyz <> []) by discriminate.
  destruct (join_effect_part000 all_open 3 (msg_join_body (JStr xyz)) xyz
              pair_abc_solo_xyz
              (fst (Part000.join all_open 3 xyz pair_abc_solo_xyz))
              (snd (Part000.join all_open 3 xyz pair_abc_solo_xyz))
              pair_abc_solo_xyz_reachable eq_refl eq_refl Hne eq_refl)
    as (Hframe & Htarget & _).
  split; [apply Hframe; discriminate | rewrite Htarget; reflexivity].
Defined.

(** ** X9: what a join in [server.js] touches *)

Lemma join_sends_server (ready : readiness) (ws : conn) (code : jsstring)
    (s : ServerJs.state) (p : conn) (x : outmsg) :
  In (p, x) (snd (ServerJs.join ready ws code s)) ->
  (p = ws /\ ((exists sd, x = Joined code sd) \/ x = Error room_full)) \/
  (p <> ws /\ ready p = true /\
   exists sd, x = PeerJoined sd /\ member p code (ServerJs.objects s)).
Proof.
  unfold ServerJs.join.
  pose proof (room_of_getRoom_target code (ServerJs.objects s)) as Ht.
  destruct (getRoom code (ServerJs.objects s)) as [a st1].
  cbn [fst snd] in Ht.
  destruct (2 <=? length (clients (deref a st1))); cbn [snd].
  - intros [H|[]]. inversion H. left. auto.
  - intros [H|H]; [inversion H; left; eauto|].
    unfold ServerJs.send_if_open in H.
    match type of H with
    | In _ match ?o with _ => _ end => destruct o as [q|] eqn:Eq; [|destruct H]
    end.
    destruct (ready q) eqn:Rq; [|destruct H].
    destruct H as [H|[]]. inversion H; subst q x.
    apply first_other_Some in Eq as [Hin Hne].
    right. split; [exact Hne|]. split; [exact Rq|].
    eexists. split; [reflexivity|].
    apply enter_room_members in Hin as [->|Hin]; [tauto|].
    rewrite Ht in Hin.
    destruct (room_of code (ServerJs.objects s)) as [r|] eqn:E;
      [exists r; auto | destruct Hin].
Qed.

(** X9. A [join] with a non-empty string as room code in [server.js], in
    any state the server reaches. No room other than the one asked for
    changes: the sender stays listed in the room it was in. When the room
    asked for has two members, nothing changes at all and the sender is
    answered [room_full], also when it is one of the two. Otherwise the
    room, created when it was not registered, has the sender added and
    recorded with the side [assignSide] finds free, the sender's
    [currentRoom] becomes the code, and the sender is told [joined]. What
    is sent goes to the sender or, as [peer_joined], to an open connection
    listed in the room asked for. *)
Theorem join_effect_server (ready : readiness) (ws : conn) (m : json)
    (code : jsstring) (s s' : ServerJs.state) (closed : list conn)
    (out : list send) :
  ServerJs.reachable s closed ->
  is_string "join" (prop "t" m) = true ->
  prop "room" m = Some (JStr code) -> code <> [] ->
  ServerJs.on_message ready ws (Parsed m) s = Some (s', out) ->
  (forall c, c <> code ->
     room_of c (ServerJs.objects s') = room_of c (ServerJs.objects s)) /\
  (let target := match room_of code (ServerJs.objects s) with
                 | Some r => r
                 | None => new_room
                 end in
   if 2 <=? length (clients target)
   then s' = s /\ out = [(ws, Error room_full)]
   else room_of code (ServerJs.objects s') =
          Some (set_side ws (free_side target) (add_client ws target)) /\
        ServerJs.currentRoom s' =
          Map_set Nat.eq_dec ws code (ServerJs.currentRoom s) /\
        In (ws, Joined code (free_side target)) out) /\
  (forall p x, In (p, x) out ->
     (p = ws /\ ((exists sd, x = Joined code sd) \/ x = Error room_full)) \/
     (p <> ws /\ ready p = true /\
      exists sd, x = PeerJoined sd /\ member p code (ServerJs.objects s))).
Proof.
  intros Hreach Ht Hroom Hne Hmsg.
  destruct (reachable_inv_server _ _ Hreach) as (Hwf & _ & _).
  rewrite (on_message_join_server ready ws m s Ht), Hroom in Hmsg.
  destruct code as [|k ks]; [tauto|]. injection Hmsg as Hj.
  set (code := k :: ks) in *.
  split; [|split].
  - intros c Hc. replace s' with (fst (ServerJs.join ready ws code s))
      by (rewrite Hj; reflexivity).
    apply rejoin_server; assumption.
  - pose proof (join_outcome_server ready ws code s Hwf) as H.
    cbv zeta in *. rewrite Hj in H.
    destruct (2 <=? length (clients match room_of code (ServerJs.objects s)
                                     with Some r => r | None => new_room end));
      [inversion H; auto | exact H].
  - intros p x H. apply (join_sends_server ready ws code s).
    rewrite Hj. exact H.
Qed.

Lemma join_effect_server_witness :
  room_of abc
    (ServerJs.objects
       (fst (ServerJs.join all_open 1 xyz server_pair_abc))) =
  room_of abc (ServerJs.objects server_pair_abc).
Proof.
  assert (Hne : xyz <> []) by discriminate.
  assert (Hc : abc <> xyz) by discriminate.
  destruct (join_effect_server all_open 1 (msg_join_body (JStr xyz)) xyz
              server_pair_abc
              (fst (ServerJs.join all_open 1 xyz server_pair_abc)) []
              (snd (ServerJs.join all_open 1 xyz server_pair_abc))
              server_pair_abc_reachable eq_refl eq_refl Hne eq_refl)
    as (Hframe & _).
  exact (Hframe abc Hc).
Defined.

(** ** X10 and X11: who receives a relayed message *)

Lemma broadcast_others_le (ready : readiness) (ws : conn) (r : room)
    (msg : outmsg) :
  room_ok r -> In ws (clients r) ->
  length (Part000.broadcast ready r msg (Some ws)) <= 1.
Proof.
  intros Hok Hin. unfold Part000.broadcast, Part000.is_not.
  destruct Hok as [a sd|a b sd sd' Hab Hsd]; simpl in *.
  - destruct Hin as [->|[]].
    destruct (Nat.eq_dec ws ws); [|tauto].
    rewrite andb_false_r. simpl. lia.
  - destruct Hin as [->|[->|[]]].
    + destruct (Nat.eq_dec ws ws); [|tauto]. rewrite andb_false_r.
      destruct (ready b && _); simpl; lia.
    + destruct (Nat.eq_dec ws ws); [|tauto]. rewrite andb_false_r.
      destruct (ready a && _); simpl; lia.
Qed.

(** X10. A [move] or [reset] in [part_000], in any state the server
    reaches: the message is sent to the open connections of the room named
    in it other than the sender, provided the sender is a member of that
    room, and to no one else; that is at most one connection. A [move]
    arrives with the payload as [JSON.stringify] writes it ([null] for a
    number that is not finite, everything else as sent) and with the side
    the room records for the sender as [from]; a [reset] arrives bare. *)
Theorem relay_recipients_part000 (ready : readiness) (ws : conn) (m : json)
    (code : jsstring) (st st' : store) (out : list send) :
  Part000.reachable st -> relayed m ->
  Part000.room_code m = Some code ->
  Part000.on_message ready ws (Parsed m) st = Some (st', out) ->
  (length out <= 1 /\
   forall p x,
     In (p, x) out <->
     exists r,
       room_of code st = Some r /\ In ws (clients r) /\ In p (clients r) /\
       p <> ws /\ ready p = true /\
       x = if is_string "move" (prop "t" m)
           then Move (role_of r ws) (stringified_field (prop "data" m))
           else Reset) /\
  (forall P, prop "data" m = Some P -> all_finite P = true ->
     stringified_field (prop "data" m) = Some P).
Proof.
  intros Hreach Hrel Hcode Hmsg.
  split; [|intros P HP Hfin; rewrite HP; simpl;
           rewrite (stringified_all_finite P Hfin); reflexivity].
  destruct (reachable_inv_part000 st Hreach) as (Hwf & Hok & _).
  assert (Hout : out = Part000.relay ready ws code
            (fun from => if is_string "move" (prop "t" m)
                         then Move from (stringified_field (prop "data" m))
                         else Reset) st).
  { destruct (is_string "move" (prop "t" m)) eqn:Em.
    - rewrite (on_message_move_part000 ready ws m st Em), Hcode in Hmsg.
      congruence.
    - destruct Hrel as [Hmv|Hrs]; [congruence|].
      rewrite (on_message_reset_part000 ready ws m st Hrs), Hcode in Hmsg.
      congruence. }
  rewrite Hout. unfold Part000.relay. rewrite room_of_rooms_get.
  destruct (rooms_get code st) as [a|] eqn:Ea.
  - pose proof (Hok code a (rooms_get_In _ _ _ Ea)) as Hroom.
    destruct (Set_has Nat.eq_dec ws (clients (deref a st))) eqn:Hs;
      cbn [negb].
    + apply Set_has_In in Hs. split.
      * apply broadcast_others_le; assumption.
      * intros p x. rewrite broadcast_iff. split.
        -- intros (-> & Hp & Hready & Hex).
           exists (deref a st). repeat split; auto; congruence.
        -- intros (r & E & _ & Hp & Hne & Hready & ->).
           inversion E; subst r. repeat split; auto; congruence.
    + apply Set_has_not_In in Hs. split; [simpl; lia|].
      intros p x. split; [intros []|].
      intros (r & E & Hin & _). inversion E; subst r. tauto.
  - split; [simpl; lia|]. intros p x. split; [intros []|].
    intros (r & E & _). discriminate.
Qed.

Lemma relay_recipients_part000_witness :
  length (Part000.relay all_open 2 abc (fun _ => Reset) pair_abc) <= 1.
Proof.
  assert (Hrel : relayed (msg_reset_body (JStr abc)))
    by (right; reflexivity).
  exact (proj1 (proj1 (relay_recipients_part000 all_open 2
                  (msg_reset_body (JStr abc)) abc pair_abc pair_abc
                  (Part000.relay all_open 2 abc (fun _ => Reset) pair_abc)
                  pair_abc_reachable Hrel eq_refl eq_refl))).
Defined.

(** X11. A [move] or [reset] in [server.js] whose room code is the sender's
    [currentRoom], in any state the server reaches and for an open
    connection: the message is sent to the open connection listed in that
    room besides the sender, and to no one else. A [move] arrives with the
    payload as [JSON.stringify] writes it ([null] for a number that is not
    finite, everything else as sent) and with the side the room records for
    the sender as [from]; a [reset] arrives bare. *)
Theorem relay_recipients_server (ready : readiness) (ws : conn) (m : json)
    (code : jsstring) (s s' : ServerJs.state) (closed : list conn)
    (out : list send) :
  ServerJs.reachable s closed -> ~ In ws closed -> relayed m ->
  prop "room" m = Some (JStr code) -> code <> [] ->
  Map_get Nat.eq_dec ws (ServerJs.currentRoom s) = Some code ->
  ServerJs.on_message ready ws (Parsed m) s = Some (s', out) ->
  (length out <= 1 /\
   forall p x,
     In (p, x) out <->
     exists r,
       room_of code (ServerJs.objects s) = Some r /\ In p (clients r) /\
       p <> ws /\ ready p = true /\
       x = if is_string "move" (prop "t" m)
           then Move (role_of r ws) (stringified_field (prop "data" m))
           else Reset) /\
  (forall P, prop "data" m = Some P -> all_finite P = true ->
     stringified_field (prop "data" m) = Some P).
Proof.
  intros Hreach Hopen Hrel Hroom Hne Hcur Hmsg.
  split; [|intros P HP Hfin; rewrite HP; simpl;
           rewrite (stringified_all_finite P Hfin); reflexivity].
  destruct (reachable_inv_server _ _ Hreach) as (Hwf & Hok & Hcok).
  destruct (Hcok ws code Hopen Hcur) as (_ & a & Ha & Hin).
  pose proof (Hok code a (rooms_get_In _ _ _ Ha)) as Hr.
  rewrite (on_message_relay_server ready ws m s Hrel) in Hmsg.
  unfold ServerJs.relay in Hmsg.
  rewrite (proj2 (in_current_room_spec ws (prop "room" m) s code)
             (conj Hroom (conj Hne Hcur))) in Hmsg.
  rewrite (getRoom_present _ _ _ Ha) in Hmsg.
  assert (Hout : out = ServerJs.send_if_open ready
            (ServerJs.otherClient (deref a (ServerJs.objects s)) ws)
            (if is_string "move" (prop "t" m)
             then Move (role_of (deref a (ServerJs.objects s)) ws)
                    (stringified_field (prop "data" m))
             else Reset)).
  { destruct (is_string "move" (prop "t" m)) eqn:Em.
    - injection Hmsg as <- <-. reflexivity.
    - destruct Hrel as [Hmv|Hrs]; [congruence|].
      rewrite Hrs in Hmsg. injection Hmsg as <- <-. reflexivity. }
  rewrite Hout. split.
  - unfold ServerJs.send_if_open.
    destruct (ServerJs.otherClient _ ws) as [q|]; [|simpl; lia].
    destruct (ready q); simpl; lia.
  - intros p x. rewrite (send_other_iff ready ws _ _ p x Hr Hin).
    rewrite room_of_rooms_get, Ha. split.
    + intros (-> & Hp & Hpne & Hready). eauto 10.
    + intros (r & E & Hp & Hpne & Hready & ->). inversion E; subst r. auto.
Qed.

Lemma relay_recipients_server_witness :
  length (snd (ServerJs.relay all_open 2 (msg_reset_body (JStr abc))
                 server_pair_abc)) <= 1.
Proof.
  assert (Hrel : relayed (msg_reset_body (JStr abc)))
    by (right; reflexivity).
  assert (Hopen : ~ In 2 (@nil conn)) by (simpl; tauto).
  assert (Hne : abc <> []) by discriminate.
  exact (proj1 (proj1 (relay_recipients_server all_open 2
                  (msg_reset_body (JStr abc)) abc server_pair_abc
                  (fst (ServerJs.relay all_open 2 (msg_reset_body (JStr abc))
                          server_pair_abc)) []
                  (snd (ServerJs.relay all_open 2 (msg_reset_body (JStr abc))
                          server_pair_abc))
                  server_pair_abc_reachable Hopen Hrel eq_refl Hne eq_refl
                  eq_refl))).
Defined.

(** ** X12 and X13: the codes rooms are registered under *)

Lemma trim_start_clean (s : jsstring) : no_space_first (trim_start s).
Proof.
  induction s as [|c s IH]; simpl; [exact I|].
  destruct (is_space c) eqn:E; [exact IH | exact E].
Qed.

Lemma trim_start_fixed (s : jsstring) :
  no_space_first s -> trim_start s = s.
Proof. destruct s as [|c s]; simpl; [reflexivity|]. intros ->. reflexivity. Qed.

Lemma trim_start_split (s : jsstring) : exists pre, s = pre ++ trim_start s.
Proof.
  induction s as [|c s [pre IH]]; simpl; [exists []; reflexivity|].
  destruct (is_space c).
  - exists (c :: pre). simpl. f_equal. exact IH.
  - exists []. reflexivity.
Qed.

Lemma trim_clean_first (s : jsstring) : no_space_first (trim s).
Proof.
  unfold trim. pose proof (trim_start_clean s) as Ht.
  destruct (trim_start_split (rev (trim_start s))) as [pre E].
  apply (f_equal (@rev N)) in E.
  rewrite rev_involutive, rev_app_distr in E.
  destruct (rev (trim_start (rev (trim_start s)))) as [|c w]; [exact I|].
  rewrite E in Ht. exact Ht.
Qed.

Lemma trim_clean_last (s : jsstring) : no_space_first (rev (trim s)).
Proof. unfold trim. rewrite rev_involutive. apply trim_start_clean. Qed.

Lemma trim_fixed (s : jsstring) :
  no_space_first s -> no_space_first (rev s) -> trim s = s.
Proof.
  intros H1 H2. unfold trim.
  rewrite (trim_start_fixed s H1), (trim_start_fixed (rev s) H2).
  apply rev_involutive.
Qed.

Lemma trim_idempotent (s : jsstring) : trim (trim s) = trim s.
Proof. apply trim_fixed; [apply trim_clean_first | apply trim_clean_last]. Qed.

Lemma rooms_getRoom_In (code c : jsstring) (a : ref) (st : store) :
  In (c, a) (rooms (snd (getRoom code st))) ->
  In (c, a) (rooms st) \/ c = code.
Proof.
  unfold getRoom. destruct (rooms_get code st); simpl; [auto|].
  intros H. apply in_app_or in H as [H|[H|[]]]; [auto|].
  inversion H. auto.
Qed.

Lemma rooms_leaveEverywhere_In (ready : readiness) (ws : conn) (st : store)
    (e : jsstring * ref) :
  In e (rooms (fst (Part000.leaveEverywhere ready ws st))) -> In e (rooms st).
Proof.
  unfold Part000.leaveEverywhere.
  destruct (leave_loop_cases ready ws (rooms st) st)
    as [[_ Heq]|(before & c & b & after & _ & _ & _ & Heq)];
    rewrite Heq; simpl; [auto|].
  intros H. apply rooms_delete_if_empty in H. tauto.
Qed.

Lemma rooms_join_part000_In (ready : readiness) (ws : conn)
    (code c : jsstring) (a : ref) (st : store) :
  In (c, a) (rooms (fst (Part000.join ready ws code st))) ->
  In (c, a) (rooms st) \/ c = code.
Proof.
  unfold Part000.join.
  pose proof (rooms_getRoom_In code c a st) as Hg.
  destruct (getRoom code st) as [r st1]. cbn [snd] in Hg.
  pose proof (rooms_leaveEverywhere_In ready ws st1 (c, a)) as Hl.
  destruct (Part000.leaveEverywhere ready ws st1) as [st2 left].
  cbn [fst] in Hl.
  destruct (Part000.chooseSide (deref r st2)); cbn [fst]; auto.
Qed.

Lemma rooms_on_message_part000_In (ready : readiness) (ws : conn)
    (buf : frame) (st st' : store) (out : list send) (c : jsstring)
    (a : ref) :
  Part000.on_message ready ws buf st = Some (st', out) ->
  In (c, a) (rooms st') ->
  In (c, a) (rooms st) \/ (c <> [] /\ trim c = c).
Proof.
  unfold Part000.on_message, Part000.room_code.
  destruct buf as [|m]; [intros H; inversion H; auto|].
  destruct (negb (truthy (prop "t" m))); [intros H; inversion H; auto|].
  destruct (is_string "join" (prop "t" m)).
  - destruct (js_String (or_empty (prop "room" m))) as [s|]; [|discriminate].
    pose proof (trim_idempotent s) as Hid.
    destruct (trim s) as [|k ks] eqn:Et; [intros H; inversion H; auto|].
    intros H Hin. injection H as H.
    replace st' with (fst (Part000.join ready ws (k :: ks) st)) in Hin
      by (rewrite H; reflexivity).
    apply rooms_join_part000_In in Hin as [Hin| ->]; [auto|].
    right. split; [discriminate | exact Hid].
  - destruct (is_string "move" (prop "t" m)).
    + destruct (js_String (or_empty (prop "room" m))); [|discriminate].
      intros H; inversion H; auto.
    + destruct (is_string "reset" (prop "t" m)).
      * destruct (js_String (or_empty (prop "room" m))); [|discriminate].
        intros H; inversion H; auto.
      * intros H; inversion H; auto.
Qed.

(** X12. In every state [part_000] reaches, the code a room is registered
    under is not empty and is a fixed point of [trim]: it neither begins nor
    ends with white space. *)
Theorem registered_codes_part000 (st : store) (c : jsstring) (r : room) :
  Part000.reachable st -> room_of c st = Some r ->
  c <> [] /\ trim c = c /\ no_space_first c /\ no_space_first (rev c).
Proof.
  intros Hreach Hr.
  assert (H : forall a, In (c, a) (rooms st) -> c <> [] /\ trim c = c).
  { clear Hr r. induction Hreach as [|st ready ws buf st' out _ IH Hmsg
                                     |st ready ws st' out _ IH Hclose];
      intros a Hin.
    - destruct Hin.
    - destruct (rooms_on_message_part000_In _ _ _ _ _ _ _ _ Hmsg Hin); eauto.
    - apply (IH a). apply (rooms_leaveEverywhere_In ready ws).
      unfold Part000.on_close in Hclose. rewrite Hclose. exact Hin. }
  apply room_of_deref in Hr as (a & Ha & _).
  destruct (H a (rooms_get_In _ _ _ Ha)) as [Hne Ht].
  split; [exact Hne|]. split; [exact Ht|].
  rewrite <- Ht. split; [apply trim_clean_first | apply trim_clean_last].
Qed.

Lemma registered_codes_part000_witness :
  abc <> [] /\ trim abc = abc /\ no_space_first abc /\
  no_space_first (rev abc).
Proof.
  exact (registered_codes_part000 pair_abc abc room_1_2
           pair_abc_reachable eq_refl).
Defined.

Lemma rooms_join_server_In (ready : readiness) (ws : conn)
    (code c : jsstring) (a : ref) (s : ServerJs.state) :
  In (c, a) (rooms (ServerJs.objects (fst (ServerJs.join ready ws code s)))) ->
  In (c, a) (rooms (ServerJs.objects s)) \/ c = code.
Proof.
  unfold ServerJs.join.
  pose proof (rooms_getRoom_In code c a (ServerJs.objects s)) as Hg.
  destruct (getRoom code (ServerJs.objects s)) as [b st1]. cbn [snd] in Hg.
  destruct (2 <=? length (clients (deref b st1))); exact Hg.
Qed.

Lemma rooms_relay_server_In (ready : readiness) (ws : conn) (m : json)
    (c : jsstring) (a : ref) (s : ServerJs.state) :
  In (c, a) (rooms (ServerJs.objects (fst (ServerJs.relay ready ws m s)))) ->
  In (c, a) (rooms (ServerJs.objects s)) \/ c <> [].
Proof.
  unfold ServerJs.relay.
  destruct (ServerJs.in_current_room ws (prop "room" m) s) as [code|] eqn:E;
    [|auto].
  apply in_current_room_spec in E as (_ & Hne & _).
  pose proof (rooms_getRoom_In code c a (ServerJs.objects s)) as Hg.
  destruct (getRoom code (ServerJs.objects s)) as [b st1]. cbn [snd] in Hg.
  destruct (is_string "move" (prop "t" m));
    [|destruct (is_string "reset" (prop "t" m))];
    cbn [fst ServerJs.objects]; intros H; apply Hg in H as [H| ->]; auto.
Qed.

Lemma rooms_on_close_server_In (ready : readiness) (ws : conn)
    (c : jsstring) (a : ref) (s : ServerJs.state) :
  In (c, a) (rooms (ServerJs.objects (fst (ServerJs.on_close ready ws s)))) ->
  In (c, a) (rooms (ServerJs.objects s)) \/ c <> [].
Proof.
  unfold ServerJs.on_close.
  destruct (Map_get Nat.eq_dec ws (ServerJs.currentRoom s)) as [[|k ks]|];
    [auto| |auto].
  pose proof (rooms_getRoom_In (k :: ks) c a (ServerJs.objects s)) as Hg.
  destruct (getRoom (k :: ks) (ServerJs.objects s)) as [b st1].
  cbn [snd] in Hg. cbn [fst ServerJs.objects]. intros H.
  apply rooms_delete_if_empty in H as [H _].
  apply Hg in H as [H| ->]; [auto|]. right. discriminate.
Qed.

(** X13. In every state [server.js] reaches, the code a room is registered
    under is not empty. *)
Theorem registered_codes_server (s : ServerJs.state) (closed : list conn)
    (c : jsstring) (r : room) :
  ServerJs.reachable s closed -> room_of c (ServerJs.objects s) = Some r ->
  c <> [].
Proof.
  intros Hreach Hr.
  assert (H : forall a, In (c, a) (rooms (ServerJs.objects s)) -> c <> []).
  { clear Hr r.
    induction Hreach as [|s closed ready ws raw s' out _ IH _ Hmsg
                         |s closed ready ws s' out _ IH _ Hclose];
      intros a Hin.
    - destruct Hin.
    - destruct raw as [|m]; [inversion Hmsg; subst; eauto|].
      assert (Hcases :
        s' = s \/
        (exists k ks, s' = fst (ServerJs.join ready ws (k :: ks) s)) \/
        s' = fst (ServerJs.relay ready ws m s)).
      { destruct (is_string "join" (prop "t" m)) eqn:Ht.
        - rewrite (on_message_join_server ready ws m s Ht) in Hmsg.
          destruct (prop "room" m) as [[| | |[|k ks]| |]|];
            inversion Hmsg as [Hj]; subst; auto.
          right. left. exists k, ks. rewrite Hj. reflexivity.
        - unfold ServerJs.on_message in Hmsg. rewrite Ht in Hmsg.
          destruct m; inversion Hmsg as [Hr]; subst; auto;
            right; right; rewrite Hr; reflexivity. }
      destruct Hcases as [->|[(k & ks & ->)| ->]]; [eauto| |].
      + apply rooms_join_server_In in Hin as [Hin| ->];
          [eauto | discriminate].
      + apply rooms_relay_server_In in Hin as [Hin|Hne]; eauto.
    - replace s' with (fst (ServerJs.on_close ready ws s)) in Hin
        by (rewrite Hclose; reflexivity).
      apply rooms_on_close_server_In in Hin as [Hin|Hne]; eauto. }
  apply room_of_deref in Hr as (a & Ha & _).
  exact (H a (rooms_get_In _ _ _ Ha)).
Qed.

Lemma registered_codes_server_witness : xyz <> [].
Proof.
  exact (registered_codes_server server_pair_abc_then_xyz [] xyz
           (room_solo 1) server_pair_abc_then_xyz_reachable eq_refl).
Defined.

(** ** X14 and X15: frames that are ignored, and frames that throw *)

Lemma room_code_throws (m : json) :
  Part000.room_code m = None ->
  (exists items, prop "room" m = Some (JArr items)) \/
  (exists fields, prop "room" m = Some (JObj fields)).
Proof.
  unfold Part000.room_code, or_empty, truthy.
  destruct (prop "room" m) as [[|[|]|n|[|k ks]|items|fields]|];
    try discriminate; eauto.
  destruct (num_truthy n); discriminate.
Qed.

(** X14. The message handler of [part_000] throws only on a [join], [move]
    or [reset] whose [room] is an array or an object, when [String] throws
    on it. A frame that does not parse, and a parsed value whose [t] is
    missing or is none of the three strings, changes nothing and sends
    nothing, whatever else it carries. *)
Theorem handler_throws_part000 (ready : readiness) (ws : conn) (buf : frame)
    (st : store) :
  (Part000.on_message ready ws buf st = None <->
   exists m, buf = Parsed m /\
             (is_string "join" (prop "t" m) = true \/ relayed m) /\
             Part000.room_code m = None) /\
  (forall m, Part000.room_code m = None ->
     (exists items, prop "room" m = Some (JArr items)) \/
     (exists fields, prop "room" m = Some (JObj fields))) /\
  (forall m, buf = Parsed m ->
     is_string "join" (prop "t" m) = false -> ~ relayed m ->
     Part000.on_message ready ws buf st = Some (st, [])) /\
  (buf = Malformed -> Part000.on_message ready ws buf st = Some (st, [])).
Proof.
  split; [|split; [exact room_code_throws|split]].
  - split.
    + destruct buf as [|m]; [discriminate|]. intros H. exists m.
      split; [reflexivity|]. unfold relayed.
      unfold Part000.on_message in H.
      destruct (negb (truthy (prop "t" m))); [discriminate|].
      destruct (is_string "join" (prop "t" m)).
      * destruct (Part000.room_code m) as [[|k ks]|]; try discriminate. auto.
      * destruct (is_string "move" (prop "t" m)).
        -- destruct (Part000.room_code m); try discriminate. auto.
        -- destruct (is_string "reset" (prop "t" m)); [|discriminate].
           destruct (Part000.room_code m); try discriminate. auto.
    + intros (m & -> & [Hj|[Hm|Hr]] & Hcode).
      * rewrite (on_message_join_part000 ready ws m st Hj), Hcode.
        reflexivity.
      * rewrite (on_message_move_part000 ready ws m st Hm), Hcode.
        reflexivity.
      * rewrite (on_message_reset_part000 ready ws m st Hr), Hcode.
        reflexivity.
  - intros m -> Hj Hrel. unfold relayed in Hrel.
    unfold Part000.on_message. rewrite Hj.
    destruct (negb (truthy (prop "t" m))); [reflexivity|].
    destruct (is_string "move" (prop "t" m)); [tauto|].
    destruct (is_string "reset" (prop "t" m)); [tauto|]. reflexivity.
  - intros ->. reflexivity.
Qed.

(** X15. The message handler of [server.js] throws on one frame only, the
    JSON text [null]. A frame that does not parse is answered
    [invalid_json]; a parsed value that is no object (a number, a string, a
    boolean, an array) is answered [not_joined]; neither changes the
    state. *)
Theorem handler_throws_server (ready : readiness) (ws : conn) (raw : frame)
    (s : ServerJs.state) :
  (ServerJs.on_message ready ws raw s = None <-> raw = Parsed JNull) /\
  (raw = Malformed ->
   ServerJs.on_message ready ws raw s = Some (s, [(ws, Error invalid_json)])) /\
  (forall m, raw = Parsed m -> m <> JNull ->
     (forall fields, m <> JObj fields) ->
     ServerJs.on_message ready ws raw s = Some (s, [(ws, Error not_joined)])).
Proof.
  split; [|split].
  - split.
    + destruct raw as [|m]; [discriminate|].
      destruct m; try reflexivity; unfold ServerJs.on_message;
        destruct (is_string "join" (prop "t" _)); try discriminate;
        destruct (prop "room" _) as [[| | |[|k ks]| |]|]; discriminate.
    + intros ->. reflexivity.
  - intros ->. reflexivity.
  - intros m -> Hnull Hobj.
    destruct m as [|b|n|str|items|fields]; try reflexivity; [tauto|].
    exfalso. exact (Hobj fields eq_refl).
Qed.

(** ** X16 to X19: the helpers of the two files *)

(** X16. [getRoom] looks a room up or creates it: afterwards the code is
    registered with the room returned; a second call returns the same room
    and changes nothing; a code that was registered keeps its room, and the
    store is not touched; a code that was not is registered with a room
    without members; and the rooms of all other codes are as before. *)
Theorem getRoom_lookup_or_create (code : jsstring) (st : store) :
  rooms_get code (snd (getRoom code st)) = Some (fst (getRoom code st)) /\
  getRoom code (snd (getRoom code st)) = getRoom code st /\
  (forall r, room_of code st = Some r ->
     snd (getRoom code st) = st /\ deref (fst (getRoom code st)) st = r) /\
  (room_of code st = None ->
     room_of code (snd (getRoom code st)) = Some new_room) /\
  (forall c, c <> code ->
     room_of c (snd (getRoom code st)) = room_of c st).
Proof.
  assert (Hget : rooms_get code (snd (getRoom code st)) =
                 Some (fst (getRoom code st))).
  { unfold getRoom. destruct (rooms_get code st) as [a|] eqn:E; simpl.
    - exact E.
    - unfold rooms_get in *. simpl. rewrite Map_get_app, E. simpl.
      destruct (jsstring_eq_dec code code); [reflexivity | tauto]. }
  split; [exact Hget|]. split; [|split; [|split]].
  - rewrite (getRoom_present _ _ _ Hget). destruct (getRoom code st).
    reflexivity.
  - intros r Hr. apply room_of_deref in Hr as (a & Ha & Hd).
    rewrite (getRoom_present _ _ _ Ha). auto.
  - intros Hnone. rewrite room_of_rooms_get in *. rewrite Hget.
    rewrite room_of_getRoom_target, room_of_rooms_get.
    destruct (rooms_get code st); [discriminate | reflexivity].
  - intros c Hne. rewrite !room_of_rooms_get. unfold getRoom.
    destruct (rooms_get code st) eqn:E; simpl; [reflexivity|].
    unfold rooms_get at 1. simpl. rewrite Map_get_app.
    fold (rooms_get c st).
    destruct (rooms_get c st) as [b|] eqn:Eb.
    + f_equal. destruct st as [h rs]. apply deref_grow.
    + simpl. destruct (jsstring_eq_dec c code); [tauto | reflexivity].
Qed.

(** X17. [assignSide] and [chooseSide] never return a side that the room
    records for a member: they return X when no member holds X, O when X is
    held and O is not, and [null] exactly when both are held. *)
Theorem free_side_is_free (r : room) :
  (forall sd, free_side r = Some sd -> ~ In (Some sd) (Map_values (sides r))) /\
  (free_side r = Some X <-> ~ In (Some X) (Map_values (sides r))) /\
  (free_side r = Some O <->
   In (Some X) (Map_values (sides r)) /\
   ~ In (Some O) (Map_values (sides r))) /\
  (free_side r = None <->
   In (Some X) (Map_values (sides r)) /\ In (Some O) (Map_values (sides r))).
Proof.
  unfold free_side.
  destruct (Set_has slot_eq_dec (Some X) (Map_values (sides r))) eqn:EX;
    destruct (Set_has slot_eq_dec (Some O) (Map_values (sides r))) eqn:EO;
    simpl;
    repeat match goal with
    | H : Set_has _ _ _ = true |- _ => apply Set_has_In in H
    | H : Set_has _ _ _ = false |- _ => apply Set_has_not_In in H
    end;
    (split; [intros sd E; inversion E; subst; tauto|]);
    repeat split; intros; try discriminate; try tauto.
Qed.

(** X18. [otherClient] returns a connection listed in the room and different
    from the one given, the first such in the order of joining; it returns
    [null] exactly when the room lists no other connection; and in a room
    of at most two connections that lists the one given, it returns the
    other one. *)
Theorem otherClient_is_other (r : room) (ws : conn) :
  (forall p, ServerJs.otherClient r ws = Some p ->
     exists before after,
       clients r = before ++ p :: after /\ p <> ws /\
       forall c, In c before -> c = ws) /\
  (ServerJs.otherClient r ws = None <->
   forall c, In c (clients r) -> c = ws) /\
  (forall p, NoDup (clients r) -> length (clients r) <= 2 ->
     In ws (clients r) -> In p (clients r) -> p <> ws ->
     ServerJs.otherClient r ws = Some p).
Proof.
  unfold ServerJs.otherClient. split; [|split].
  - induction (clients r) as [|c cs IH]; simpl; [discriminate|].
    intros p. destruct (Nat.eq_dec c ws) as [->|Hne].
    + intros H. destruct (IH p H) as (before & after & -> & Hp & Hb).
      exists (ws :: before), after. split; [reflexivity|].
      split; [exact Hp|]. intros c [<-|Hc]; auto.
    + intros H. inversion H; subst. exists [], cs.
      split; [reflexivity|]. split; [exact Hne|]. intros c [].
  - apply first_other_None.
  - intros p Hnd Hlen Hws Hp Hne.
    destruct (clients r) as [|a [|b [|c cs]]]; simpl in *; try lia.
    inversion Hnd as [|? ? Hab _]; subst. simpl in Hab.
    destruct (Nat.eq_dec a ws) as [->|Ha].
    + destruct (Nat.eq_dec b ws) as [->|Hb]; [tauto|].
      destruct Hp as [->|[->|[]]]; [tauto | reflexivity].
    + destruct Hws as [->|[->|[]]]; [tauto|].
      destruct Hp as [->|[->|[]]]; [reflexivity | tauto].
Qed.

(** X19. [broadcast] sends the message, unchanged, to the connections of the
    room that are open and are not the excepted one, and to no one else;
    each of them once. *)
Theorem broadcast_recipients (ready : readiness) (r : room) (msg : outmsg)
    (except : option conn) :
  (forall p x,
     In (p, x) (Part000.broadcast ready r msg except) <->
     x = msg /\ In p (clients r) /\ ready p = true /\ except <> Some p) /\
  (NoDup (clients r) -> NoDup (Part000.broadcast ready r msg except)) /\
  length (Part000.broadcast ready r msg except) <= length (clients r).
Proof.
  split; [intros p x; apply broadcast_iff|]. unfold Part000.broadcast. split.
  - intros Hnd.
    apply (NoDup_filter (fun c => ready c && Part000.is_not except c)) in Hnd.
    induction Hnd as [|c cs Hc _ IH]; simpl; constructor; [|exact IH].
    intros Hin. apply in_map_iff in Hin as (c' & E & Hc').
    inversion E; subst. contradiction.
  - rewrite length_map. apply filter_length_le.
Qed.

(** ** X20 to X22: the heartbeat *)

Lemma sweep_server_probes (t : tracked) (ws : conn) :
  (In (Terminate ws) (snd (ServerJs.sweep t)) -> In (ws, false) t) /\
  (In (Ping ws) (snd (ServerJs.sweep t)) -> In (ws, true) t).
Proof.
  induction t as [|[w alive] t [IHt IHp]]; simpl; [tauto|].
  destruct (ServerJs.sweep t) as [rest probes]. simpl in *.
  destruct alive; simpl; split; intros [H|H]; try discriminate;
    try (inversion H; subst); auto.
Qed.

Lemma sweep_part000_probes (t : tracked) (ws : conn) :
  (In (Terminate ws) (snd (Part000.sweep t)) -> In (ws, false) t) /\
  (In (Ping ws) (snd (Part000.sweep t)) -> In (ws, true) t).
Proof.
  induction t as [|[w alive] t [IHt IHp]]; simpl; [tauto|].
  destruct alive; simpl.
  - destruct (Part000.sweep t) as [rest probes]. simpl in *.
    split; intros [H|H]; try discriminate; try (inversion H; subst); auto.
  - split; [intros [H|[]]; inversion H; auto | intros [H|[]]; discriminate].
Qed.

Lemma sweep_part000_keys (t : tracked) :
  map fst (fst (Part000.sweep t)) = map fst t.
Proof.
  induction t as [|[w alive] t IH]; simpl; [reflexivity|].
  destruct alive; simpl; [|reflexivity].
  destruct (Part000.sweep t) as [rest probes]. simpl in *. f_equal. exact IH.
Qed.

(** X20. In both files a sweep terminates only connections whose flag was
    false and pings only connections whose flag was true, and it neither
    adds a connection to the tracked ones nor drops one. *)
Theorem sweep_probes (t : tracked) (ws : conn) :
  ((In (Terminate ws) (snd (ServerJs.sweep t)) -> In (ws, false) t) /\
   (In (Ping ws) (snd (ServerJs.sweep t)) -> In (ws, true) t) /\
   map fst (fst (ServerJs.sweep t)) = map fst t) /\
  ((In (Terminate ws) (snd (Part000.sweep t)) -> In (ws, false) t) /\
   (In (Ping ws) (snd (Part000.sweep t)) -> In (ws, true) t) /\
   map fst (fst (Part000.sweep t)) = map fst t).
Proof.
  destruct (sweep_server_probes t ws) as [H1 H2].
  destruct (sweep_part000_probes t ws) as [H3 H4].
  pose proof (sweep_server_keys t). pose proof (sweep_part000_keys t).
  auto 10.
Qed.

(** X21. A sweep of [part_000] is that of [server.js] as long as no tracked
    connection has a false flag: every connection is pinged and has its
    flag cleared. Otherwise it pings the connections before the first one
    whose flag is false and clears their flags, terminates that one, and
    stops: the connections after it are neither pinged nor terminated, and
    keep their flags. *)
Theorem sweep_part000_shape (t : tracked) :
  (Forall (fun e => snd e = true) t /\
   Part000.sweep t = ServerJs.sweep t /\
   Part000.sweep t =
     (map (fun e => (fst e, false)) t, map (fun e => Ping (fst e)) t)) \/
  (exists before ws after,
     t = before ++ (ws, false) :: after /\
     Forall (fun e => snd e = true) before /\
     Part000.sweep t =
       (map (fun e => (fst e, false)) before ++ (ws, false) :: after,
        map (fun e => Ping (fst e)) before ++ [Terminate ws])).
Proof.
  induction t as [|[w alive] t IH]; [left; simpl; auto|].
  destruct alive.
  - destruct IH as [(Hall & Hsame & Hshape)|(before & ws & after & -> & Hall & _)].
    + left. split; [constructor; auto|]. simpl.
      rewrite <- Hsame, Hshape. auto.
    + right. exists ((w, true) :: before), ws, after.
      split; [reflexivity|]. split; [constructor; auto|].
      apply (sweep_part000_stops ((w, true) :: before)). constructor; auto.
  - right. exists [], w, t. simpl. auto.
Qed.

Lemma pongs_set_flag (t : tracked) (pongs : list conn) (ws : conn)
    (alive : bool) :
  In ws pongs -> In (ws, alive) (fold_right on_pong t pongs) -> alive = true.
Proof.
  induction pongs as [|w ps IH]; simpl; [tauto|].
  intros Hws Hin. destruct (Nat.eq_dec w ws) as [->|Hne].
  - unfold on_pong in Hin. apply in_map_iff in Hin as ([c a] & E & _).
    simpl in E. destruct (Nat.eq_dec c ws); inversion E; congruence.
  - apply on_pong_other in Hin; [|congruence].
    destruct Hws as [->|Hws]; [tauto | auto].
Qed.

(** X22. In both files a connection that has sent a pong since the last
    sweep is not terminated at the next one, whatever pongs the other
    connections have sent. *)
Theorem responsive_connection_survives (t : tracked) (pongs : list conn)
    (ws : conn) :
  In ws pongs ->
  ~ In (Terminate ws) (snd (ServerJs.sweep (fold_right on_pong t pongs))) /\
  ~ In (Terminate ws) (snd (Part000.sweep (fold_right on_pong t pongs))).
Proof.
  intros Hws. split; intros H.
  - apply sweep_server_probes in H.
    apply (pongs_set_flag t pongs ws false Hws) in H. discriminate.
  - apply sweep_part000_probes in H.
    apply (pongs_set_flag t pongs ws false Hws) in H. discriminate.
Qed.

Lemma responsive_connection_survives_witness :
  ~ In (Terminate 2)
      (snd (ServerJs.sweep
              (fold_right on_pong [(1, false); (2, false)] [2]))) /\
  ~ In (Terminate 2)
      (snd (Part000.sweep
              (fold_right on_pong [(1, false); (2, false)] [2]))).
Proof.
  apply (responsive_connection_survives [(1, false); (2, false)] [2] 2).
  simpl. auto.
Defined.

(** ** X23 and X24: the other connections *)








Lemma on_message_not_join_server (ready : readiness) (ws : conn) (m : json)
    (s : ServerJs.state) :
  is_string "join" (prop "t" m) = false -> m <> JNull ->
  ServerJs.on_message ready ws (Parsed m) s =
  Some (ServerJs.relay ready ws m s).
Proof.
  intros Ht Hnull. unfold ServerJs.on_message.
  destruct m; try tauto; rewrite Ht; reflexivity.
Qed.




(** ** X25 and X26: a frame followed by a close *)

Lemma evict_enter (ws : conn) (sd : slot) (r : room) :
  evict ws (set_side ws sd (add_client ws r)) = evict ws r.
Proof.
  unfold evict, set_side, add_client. simpl. f_equal.
  - unfold Set_add. destruct (Set_has Nat.eq_dec ws (clients r));
      [reflexivity|].
    induction (clients r) as [|c cs IH]; simpl.
    + destruct (Nat.eq_dec ws ws); [reflexivity | tauto].
    + destruct (Nat.eq_dec ws c); [exact IH | f_equal; exact IH].
  - unfold Map_set, Map_has.
    destruct (Map_get Nat.eq_dec ws (sides r)) eqn:E.
    + clear E. induction (sides r) as [|[c v] m IH]; simpl; [reflexivity|].
      destruct (Nat.eq_dec ws c) as [->|Hne]; simpl.
      * destruct (Nat.eq_dec c c); [reflexivity | tauto].
      * destruct (Nat.eq_dec ws c); [tauto | f_equal; exact IH].
    + rewrite Map_delete_app. simpl.
      destruct (Nat.eq_dec ws ws); [apply app_nil_r | tauto].
Qed.

Lemma leave_room_enter (ws : conn) (sd : slot) (o : option room) :
  (forall r, o = Some r -> room_ok r) ->
  leave_room ws
    (Some (set_side ws sd
             (add_client ws (match o with Some r => r | None => new_room end))))
  = leave_room ws o.
Proof.
  intros Hok. unfold leave_room at 1.
  rewrite (proj2 (Set_has_In Nat.eq_dec ws _) (enter_room_member ws _ sd)).
  rewrite evict_enter. destruct o as [r|]; [|reflexivity].
  unfold leave_room.
  destruct (Set_has Nat.eq_dec ws (clients r)) eqn:Hs; [reflexivity|].
  apply Set_has_not_In in Hs. pose proof (Hok r eq_refl) as Hr.
  rewrite (evict_absent ws r Hr Hs).
  destruct (room_ok_inv r Hr) as [_ Hne].
  destruct (clients r); [tauto | reflexivity].
Qed.





(** X26. In [server.js], a join that succeeds, followed by the close of the
    connection, restores the registry: every room is as it was before the
    join, the room joined included, which is removed again when the join
    created it. The room the connection was listed in before the join
    still lists it. Only when the connection was already listed in the room
    it joined does the close change that room, by removing it from there. *)
Theorem join_then_close_server (ready ready' : readiness) (ws : conn)
    (m : json) (code : jsstring) (s s1 : ServerJs.state)
    (closed : list conn) (out : list send) (c : jsstring) :
  ServerJs.reachable s closed -> ~ In ws closed ->
  is_string "join" (prop "t" m) = true ->
  prop "room" m = Some (JStr code) -> code <> [] ->
  (forall r, room_of code (ServerJs.objects s) = Some r ->
             length (clients r) < 2) ->
  ServerJs.on_message ready ws (Parsed m) s = Some (s1, out) ->
  room_of c (ServerJs.objects (fst (ServerJs.on_close ready' ws s1))) =
    (if jsstring_eq_dec c code
     then leave_room ws (room_of c (ServerJs.objects s))
     else room_of c (ServerJs.objects s)) /\
  ((forall r, room_of code (ServerJs.objects s) = Some r ->
              ~ In ws (clients r)) ->
   room_of c (ServerJs.objects (fst (ServerJs.on_close ready' ws s1))) =
   room_of c (ServerJs.objects s)).
Proof.
  intros Hreach Hopen Ht Hroom Hne Hfree Hmsg.
  pose proof (reachable_inv_server _ _ Hreach) as Hinv.
  assert (Hwf : store_wf (ServerJs.objects s)) by apply Hinv.
  assert (Hok : forall r, room_of code (ServerJs.objects s) = Some r ->
                          room_ok r).
  { intros r Hr. apply room_of_deref in Hr as (a & Ha & <-).
    apply (proj1 (proj2 Hinv) code a). apply rooms_get_In. exact Ha. }
  rewrite (on_message_join_server ready ws m s Ht), Hroom in Hmsg.
  destruct code as [|k ks]; [tauto|]. injection Hmsg as Hj.
  set (code := k :: ks) in *.
  assert (Es : s1 = fst (ServerJs.join ready ws code s))
    by (rewrite Hj; reflexivity).
  assert (Hinv1 : inv_server s1 closed)
    by (rewrite Es; apply join_inv_server; [discriminate | exact Hinv]).
  pose proof (join_outcome_server ready ws code s Hwf) as Hout.
  cbv zeta in Hout. rewrite <- Es in Hout.
  assert (Hnot :
    (2 <=? length (clients match room_of code (ServerJs.objects s) with
                           | Some r => r
                           | None => new_room
                           end)) = false).
  { apply Nat.leb_gt. destruct (room_of code (ServerJs.objects s)) as [r|];
      [apply Hfree; reflexivity | simpl; lia]. }
  rewrite Hnot in Hout. destruct Hout as (Hcode & Hcur & _).
  assert (Hmain :
    room_of c (ServerJs.objects (fst (ServerJs.on_close ready' ws s1))) =
    if jsstring_eq_dec c code
    then leave_room ws (room_of c (ServerJs.objects s))
    else room_of c (ServerJs.objects s)).
  { rewrite (proj2 (on_close_rooms_server ready' ws s1 closed c Hinv1 Hopen)).
    rewrite Hcur, Map_get_set_same.
    destruct (jsstring_eq_dec c code) as [->|Hc].
    - rewrite Hcode. apply leave_room_enter. exact Hok.
    - rewrite Es. apply rejoin_server; assumption. }
  split; [exact Hmain|]. intros Hnew. rewrite Hmain.
  destruct (jsstring_eq_dec c code) as [->|Hc]; [|reflexivity].
  destruct (room_of code (ServerJs.objects s)) as [r|]; [|reflexivity].
  unfold leave_room.
  rewrite (proj2 (Set_has_not_In Nat.eq_dec ws _) (Hnew r eq_refl)).
  reflexivity.
Qed.

Lemma join_then_close_server_witness :
  room_of xyz
    (ServerJs.objects
       (fst (ServerJs.on_close all_open 3
               (fst (ServerJs.join all_open 3 xyz server_pair_abc))))) =
  room_of xyz (ServerJs.objects server_pair_abc).
Proof.
  assert (Hopen : ~ In 3 (@nil conn)) by (simpl; tauto).
  assert (Hne : xyz <> []) by discriminate.
  assert (Hfree : forall r,
            room_of xyz (ServerJs.objects server_pair_abc) = Some r ->
            length (clients r) < 2) by (intros r H; discriminate H).
  assert (Hnew : forall r,
            room_of xyz (ServerJs.objects server_pair_abc) = Some r ->
            ~ In 3 (clients r)) by (intros r H; discriminate H).
  exact (proj2 (join_then_close_server all_open all_open 3
                  (msg_join_body (JStr xyz)) xyz server_pair_abc
                  (fst (ServerJs.join all_open 3 xyz server_pair_abc)) []
                  (snd (ServerJs.join all_open 3 xyz server_pair_abc)) xyz
                  server_pair_abc_reachable Hopen eq_refl eq_refl Hne Hfree
                  eq_refl) Hnew).
Defined.

(** ** X27: who the handlers write to *)

Lemma send_if_open_addressed (ready : readiness) (ws : conn) (r : room)
    (msg : outmsg) (e : send) :
  match msg with Joined _ _ | Error _ => False | _ => True end ->
  In e (ServerJs.send_if_open ready (ServerJs.otherClient r ws) msg) ->
  addressed ready ws e.
Proof.
  intros Hmsg. unfold ServerJs.send_if_open.
  destruct (ServerJs.otherClient r ws) as [q|] eqn:Eq; [|intros []].
  destruct (ready q) eqn:Rq; [|intros []].
  intros [<-|[]]. apply first_other_Some in Eq as [_ Hne].
  unfold addressed. simpl. destruct msg; tauto.
Qed.

Lemma broadcast_addressed (ready : readiness) (ws : conn) (r : room)
    (msg : outmsg) (e : send) :
  match msg with Joined _ _ | Error _ => False | _ => True end ->
  In e (Part000.broadcast ready r msg (Some ws)) -> addressed ready ws e.
Proof.
  intros Hmsg Hin. destruct e as [p x].
  apply broadcast_sends in Hin as (-> & _ & Hready & Hex).
  assert (p <> ws) by congruence.
  unfold addressed. simpl. destruct msg; tauto.
Qed.

Lemma leaveEverywhere_addressed (ready : readiness) (ws : conn) (st : store)
    (e : send) :
  In e (snd (Part000.leaveEverywhere ready ws st)) -> addressed ready ws e.
Proof.
  destruct e as [p x]. intros Hin.
  apply leaveEverywhere_sends in Hin as ((code & ->) & Hne & Hready).
  unfold addressed. simpl. auto.
Qed.

Lemma join_addressed_part000 (ready : readiness) (ws : conn)
    (code : jsstring) (st : store) (e : send) :
  In e (snd (Part000.join ready ws code st)) -> addressed ready ws e.
Proof.
  unfold Part000.join. destruct (getRoom code st) as [r st1].
  pose proof (leaveEverywhere_addressed ready ws st1 e) as Hl.
  destruct (Part000.leaveEverywhere ready ws st1) as [st2 left].
  cbn [snd] in Hl.
  destruct (Part000.chooseSide (deref r st2)) as [sd|]; cbn [snd];
    intros H; apply in_app_or in H as [H|[<-|H]]; auto;
    try reflexivity; try (destruct H; fail).
  apply broadcast_addressed in H; [exact H | exact I].
Qed.

Lemma relay_addressed_part000 (ready : readiness) (ws : conn)
    (code : jsstring) (msg : option slot -> outmsg) (st : store) (e : send) :
  (forall from, match msg from with
                | Joined _ _ | Error _ => False
                | _ => True
                end) ->
  In e (Part000.relay ready ws code msg st) -> addressed ready ws e.
Proof.
  intros Hmsg. unfold Part000.relay.
  destruct (rooms_get code st) as [a|]; [|intros []].
  destruct (negb (Set_has Nat.eq_dec ws (clients (deref a st)))); [intros []|].
  apply broadcast_addressed. apply Hmsg.
Qed.

Lemma join_addressed_server (ready : readiness) (ws : conn)
    (code : jsstring) (s : ServerJs.state) (e : send) :
  In e (snd (ServerJs.join ready ws code s)) -> addressed ready ws e.
Proof.
  unfold ServerJs.join.
  destruct (getRoom code (ServerJs.objects s)) as [a st1].
  destruct (2 <=? length (clients (deref a st1))); cbn [snd].
  - intros [<-|[]]. reflexivity.
  - intros [<-|H]; [reflexivity|].
    apply send_if_open_addressed in H; [exact H | exact I].
Qed.

Lemma relay_addressed_server (ready : readiness) (ws : conn) (m : json)
    (s : ServerJs.state) (e : send) :
  In e (snd (ServerJs.relay ready ws m s)) -> addressed ready ws e.
Proof.
  unfold ServerJs.relay.
  destruct (ServerJs.in_current_room ws (prop "room" m) s) as [code|];
    [|intros [<-|[]]; reflexivity].
  destruct (getRoom code (ServerJs.objects s)) as [a st1].
  destruct (is_string "move" (prop "t" m));
    [|destruct (is_string "reset" (prop "t" m))]; cbn [snd];
    try (intros []); intros H;
    apply send_if_open_addressed in H; auto; exact I.
Qed.

Lemma on_close_addressed_server (ready : readiness) (ws : conn)
    (s : ServerJs.state) (e : send) :
  In e (snd (ServerJs.on_close ready ws s)) -> addressed ready ws e.
Proof.
  unfold ServerJs.on_close.
  destruct (Map_get Nat.eq_dec ws (ServerJs.currentRoom s)) as [[|k ks]|];
    try (intros []).
  destruct (getRoom (k :: ks) (ServerJs.objects s)) as [a st1]. cbn [snd].
  intros H. apply send_if_open_addressed in H; [exact H | exact I].
Qed.

(** X27. Whom the handlers of a connection write to, in both files and in
    any state: a reply ([joined] or [error]) goes to the connection the
    frame came from, and every notification ([peer_joined], [peer_left],
    [move], [reset]) goes to another connection, which is open at that
    time; no frame is echoed to its sender, and nothing is sent to a
    connection that is not open, the sender apart. *)
Theorem sends_are_addressed (ready : readiness) (ws : conn) (out : list send)
    (e : send) :
  (exists st st',
     (exists buf, Part000.on_message ready ws buf st = Some (st', out)) \/
     Part000.on_close ready ws st = (st', out)) \/
  (exists s s',
     (exists raw, ServerJs.on_message ready ws raw s = Some (s', out)) \/
     ServerJs.on_close ready ws s = (s', out)) ->
  In e out -> addressed ready ws e.
Proof.
  intros [(st & st' & [[buf Hmsg]|Hclose])|(s & s' & [[raw Hmsg]|Hclose])] Hin.
  - unfold Part000.on_message in Hmsg.
    destruct buf as [|m]; [inversion Hmsg; subst; destruct Hin|].
    destruct (negb (truthy (prop "t" m)));
      [inversion Hmsg; subst; destruct Hin|].
    destruct (is_string "join" (prop "t" m)).
    + destruct (Part000.room_code m) as [[|k ks]|]; [| |discriminate].
      * inversion Hmsg; subst. destruct Hin as [<-|[]]. reflexivity.
      * injection Hmsg as Hmsg.
        apply (join_addressed_part000 ready ws (k :: ks) st).
        rewrite Hmsg. exact Hin.
    + destruct (is_string "move" (prop "t" m));
        [|destruct (is_string "reset" (prop "t" m))];
        try (inversion Hmsg; subst; destruct Hin; fail);
        (destruct (Part000.room_code m) as [code|]; [|discriminate]);
        inversion Hmsg; subst;
        apply relay_addressed_part000 in Hin; auto; intros; exact I.
  - apply (leaveEverywhere_addressed ready ws st).
    unfold Part000.on_close in Hclose. rewrite Hclose. exact Hin.
  - destruct raw as [|m].
    + inversion Hmsg; subst. destruct Hin as [<-|[]]. reflexivity.
    + destruct (is_string "join" (prop "t" m)) eqn:Ht.
      * rewrite (on_message_join_server ready ws m s Ht) in Hmsg.
        destruct (prop "room" m) as [[| | |[|k ks]| |]|];
          try (inversion Hmsg; subst; destruct Hin as [<-|[]]; reflexivity).
        injection Hmsg as Hmsg.
        apply (join_addressed_server ready ws (k :: ks) s).
        rewrite Hmsg. exact Hin.
      * assert (Hnull : m <> JNull) by (intros ->; discriminate Hmsg).
        rewrite (on_message_not_join_server ready ws m s Ht Hnull) in Hmsg.
        injection Hmsg as Hmsg.
        apply (relay_addressed_server ready ws m s).
        rewrite Hmsg. exact Hin.
  - apply (on_close_addressed_server ready ws s).
    rewrite Hclose. exact Hin.
Qed.

Lemma sends_are_addressed_witness :
  addressed all_open 2 (1, PeerJoined (Some O)).
Proof.
  apply (sends_are_addressed all_open 2
           (snd (Part000.join all_open 2 abc solo_abc))).
  - left. exists solo_abc, (fst (Part000.join all_open 2 abc solo_abc)).
    left. exists (msg_join (JStr abc)). reflexivity.
  - vm_compute. auto.
Defined.

(** ** X28: frames that leave the state as it was *)

(** X28. A frame that does not decode, a [move] and a [reset] leave the
    state as it was whenever the handler returns. In [part_000] this holds
    in every state, and the handler returns unless the conversion
    [String(m.room || '')] throws. In [server.js] it holds in every state
    the server reaches, for every connection that is not closed, and the
    handler always returns. *)
Theorem relay_leaves_registry (ready : readiness) (ws : conn) (m : json)
    (s : ServerJs.state) (closed : list conn) (st : store) :
  Part000.on_message ready ws Malformed st = Some (st, []) /\
  ServerJs.on_message ready ws Malformed s =
    Some (s, [(ws, Error invalid_json)]) /\
  (relayed m ->
   (Part000.room_code m = None /\
    Part000.on_message ready ws (Parsed m) st = None) \/
   (exists out, Part000.on_message ready ws (Parsed m) st = Some (st, out))) /\
  (relayed m -> ServerJs.reachable s closed -> ~ In ws closed ->
   exists out, ServerJs.on_message ready ws (Parsed m) s = Some (s, out)).
Proof.
  split; [reflexivity|]. split; [reflexivity|]. split.
  - intros [H|H];
      [rewrite on_message_move_part000 by exact H
      |rewrite on_message_reset_part000 by exact H];
      destruct (Part000.room_code m); eauto.
  - intros Hm Hreach Hopen.
    rewrite on_message_relay_server by exact Hm.
    pose proof (relay_state_server ready ws m s closed
                  (reachable_inv_server s closed Hreach) Hopen) as E.
    destruct (ServerJs.relay ready ws m s) as [s' out]. simpl in E. subst s'.
    eauto.
Qed.

Lemma relay_leaves_registry_witness :
  (exists out,
     Part000.on_message all_open 1 (msg_move (JStr abc) payload_x1) pair_abc
     = Some (pair_abc, out)) /\
  (exists out,
     ServerJs.on_message all_open 1 (msg_reset (JStr abc)) server_pair_abc
     = Some (server_pair_abc, out)).
Proof.
  split.
  - destruct (proj1 (proj2 (proj2
      (relay_leaves_registry all_open 1 (msg_move_body (JStr abc) payload_x1)
         ServerJs.init [] pair_abc)))) as [[E _]|H].
    + left. reflexivity.
    + discriminate E.
    + exact H.
  - apply (proj2 (proj2 (proj2
      (relay_leaves_registry all_open 1 (msg_reset_body (JStr abc))
         server_pair_abc [] empty_store)))).
    + right. reflexivity.
    + apply server_pair_abc_reachable.
    + simpl. tauto.
Defined.
